(** * byrec: event log, coverage tracking and aggregation engine

    A shallow embedding of [eventStore.ts] and [eventAggregator.ts].

    Numbers are JavaScript numbers in the source; every value that the
    coverage algebra touches is an integer key of the store (or 0, 1,
    [Number.MAX_SAFE_INTEGER]), on which [+ 1], [-], [Math.max], [Math.min]
    and the comparisons are exact, so they are modelled by [Z].

    An [async] method that is awaited is modelled as one step that runs to
    its end; the storage conditions the code reacts to (a request that fails,
    a transaction that does not commit) are inputs of the step.  Where the
    code does not await a call (the store calling [handleNewEvent], the open
    request of a failed migration), what runs later is kept apart and runs
    later in the model too. *)

From Stdlib Require Import String ZArith List Bool Lia.
Import ListNotations.
Open Scope Z_scope.

(* ================================================================== *)
(** * Part I: definitions                                              *)
(* ================================================================== *)

(** ** Coverage ranges ([interface ProcessedRange]) *)

Record ProcessedRange : Type := mkRange { start : Z; end_ : Z }.

(** [a.start - b.start <= 0]: the comparator of the [sort] call does not
    put [a] after [b]. *)
Definition cmp_start_le (a b : ProcessedRange) : bool := start a - start b <=? 0.

(** [Array.prototype.sort] is stable: elements that compare equal keep their
    order.  Stable insertion sort computes that (unique) result. *)
Fixpoint insert_sorted (x : ProcessedRange) (l : list ProcessedRange)
  : list ProcessedRange :=
  match l with
  | [] => [x]
  | y :: l' => if cmp_start_le x y then x :: y :: l' else y :: insert_sorted x l'
  end.

Definition sort_ranges (l : list ProcessedRange) : list ProcessedRange :=
  fold_right insert_sorted [] l.

(** The [for] loop of [updateProcessedRanges]: [rest] is what is left of
    [allRanges] from index [i] on.  The source assigns
    [currentRange.end] in place; the objects of [allRanges] are pairwise
    distinct and the old array is dropped at the end, so a fresh record is
    the same value. *)
Fixpoint mergeLoop (currentRange : ProcessedRange) (rest mergedRanges : list ProcessedRange)
  : list ProcessedRange :=
  match rest with
  | [] => mergedRanges ++ [currentRange]
  | nextRange :: rest' =>
      if end_ currentRange + 1 >=? start nextRange
      then mergeLoop (mkRange (start currentRange)
                              (Z.max (end_ currentRange) (end_ nextRange)))
                     rest' mergedRanges
      else mergeLoop nextRange rest' (mergedRanges ++ [currentRange])
  end.

(** [updateProcessedRanges(start, end)] on the list [processedRanges]. *)
Definition updateProcessedRanges (processedRanges : list ProcessedRange) (s e : Z)
  : list ProcessedRange :=
  let newRange := mkRange s e in
  let allRanges := sort_ranges (processedRanges ++ [newRange]) in
  match allRanges with
  | [] => []  (* not reached: [allRanges] holds [newRange] *)
  | currentRange :: rest => mergeLoop currentRange rest []
  end.

(** The loop without its accumulator, for reasoning. *)
Fixpoint sweep (cur : ProcessedRange) (rest : list ProcessedRange) : list ProcessedRange :=
  match rest with
  | [] => [cur]
  | nxt :: rest' =>
      if end_ cur + 1 >=? start nxt
      then sweep (mkRange (start cur) (Z.max (end_ cur) (end_ nxt))) rest'
      else cur :: sweep nxt rest'
  end.

(** ** What a coverage list means *)

Definition in_range (r : ProcessedRange) (z : Z) : Prop := start r <= z <= end_ r.

Definition covered (l : list ProcessedRange) (z : Z) : Prop :=
  exists r, In r l /\ in_range r z.

Definition coveredb (l : list ProcessedRange) (z : Z) : bool :=
  existsb (fun r => (start r <=? z) && (z <=? end_ r)) l.

(** Sorted ascending by start, every interval non-empty, and two neighbours
    more than distance 1 apart (neither overlapping nor adjacent). *)
Inductive well_formed : list ProcessedRange -> Prop :=
| wf_nil : well_formed []
| wf_one r : start r <= end_ r -> well_formed [r]
| wf_cons r r' l :
    start r <= end_ r -> end_ r + 1 < start r' ->
    well_formed (r' :: l) -> well_formed (r :: r' :: l).

(** The same, said position by position: an earlier interval ends more than
    distance 1 before a later one starts (so the list is strictly ascending
    by start, and no two intervals overlap or touch). *)
Definition pairwise_separated (l : list ProcessedRange) : Prop :=
  forall i j a b, (i < j)%nat -> nth_error l i = Some a -> nth_error l j = Some b ->
                  start a <= end_ a /\ end_ a + 1 < start b /\ start a < start b.

(** What the comparator sort establishes. *)
Definition head_le (a : ProcessedRange) (l : list ProcessedRange) : Prop :=
  Forall (fun b => start a <= start b) l.

Inductive ascending : list ProcessedRange -> Prop :=
| asc_nil : ascending []
| asc_cons a l : head_le a l -> ascending l -> ascending (a :: l).

(** Successive inserts, as the engine performs them over time. *)
Definition insert_all (l : list ProcessedRange) (ins : list ProcessedRange)
  : list ProcessedRange :=
  fold_left (fun acc r => updateProcessedRanges acc (start r) (end_ r)) ins l.

(** ** Promises and the two range queries *)

(** Where a promise stands when the modelled call is over.  An [async]
    method whose body throws returns a rejected promise. *)
Inductive Promise (T : Type) : Type :=
| Pending
| Resolved (v : T)
| Rejected (msg : string).
Arguments Pending {T}.
Arguments Resolved {T} v.
Arguments Rejected {T} msg.

(** [resolve]/[reject] on a promise that is settled already do nothing. *)
Definition settle {T} (p new : Promise T) : Promise T :=
  match p with Pending => new | _ => p end.

Definition MAX_SAFE_INTEGER : Z := 2 ^ 53 - 1.

(** [findRangeToProcess].  [null] is [None]; the indexed reads cannot miss
    (the list has [size] elements), their [None] branches are not reached. *)
Definition findRangeToProcess (processedRanges : list ProcessedRange)
  : Promise (option ProcessedRange) :=
  let size := length processedRanges in
  if (size =? 0)%nat then Resolved (Some (mkRange 0 MAX_SAFE_INTEGER))
  else
    match nth_error processedRanges (size - 1) with
    | None => Rejected "TypeError"
    | Some lastRange =>
        let rangeEnd := start lastRange in
        if rangeEnd =? 1 then Resolved None
        else if rangeEnd =? 0 then Rejected "Unexpected value"
        else if (1 <? size)%nat then
          match nth_error processedRanges (size - 2) with
          | None => Rejected "TypeError"
          | Some secondToLast =>
              let rangeStart := end_ secondToLast in
              Resolved (Some (mkRange rangeStart rangeEnd))
          end
        else Resolved (Some (mkRange 0 rangeEnd))
    end.

(** [isFullyCovered].  On an empty list the source also starts
    [eventStore.hasAnyRecord()] and drops its promise; the value returned is
    [false] whatever that promise settles to. *)
Definition isFullyCovered (processedRanges : list ProcessedRange) : bool :=
  match processedRanges with
  | [] => false
  | first :: _ => (length processedRanges =? 1)%nat && (start first =? 0)
  end.

(** [findGap] as the specification words it, to compare [findRangeToProcess]
    with: [None] is "no gap", the bounds of a gap are the covered ids on
    either side, and [MAX_SAFE_INTEGER] stands for +infinity. *)
Definition findGap (l : list ProcessedRange) : option ProcessedRange :=
  match rev l with
  | [] => Some (mkRange 0 MAX_SAFE_INTEGER)
  | lastRange :: [] =>
      if start lastRange =? 0 then None else Some (mkRange 0 (start lastRange))
  | lastRange :: secondToLast :: _ =>
      Some (mkRange (end_ secondToLast) (start lastRange))
  end.

(** "Nearest the origin": no id from 1 up to the gap's lower bound is left
    uncovered below it. *)
Definition lowest_gap (l : list ProcessedRange) (g : ProcessedRange) : Prop :=
  forall z, 1 <= z <= start g -> covered l z.

(** "Nearest the newest data": the gap ends where the last interval starts,
    and nothing strictly inside it is covered. *)
Definition highest_gap (l : list ProcessedRange) (g : ProcessedRange) : Prop :=
  (exists before lastRange, l = before ++ [lastRange] /\ end_ g = start lastRange) /\
  (forall z, start g < z < end_ g -> ~ covered l z).

(** ** Events ([types.ts]) *)

Record StoredEvent (V : Type) : Type :=
  mkEvent { localId : Z; globalId : string; value : V }.
Arguments mkEvent {V} localId globalId value.
Arguments localId {V} s.
Arguments globalId {V} s.
Arguments value {V} s.

(** ** What the subclass and the surroundings supply *)

(** The result of the abstract [processEvent(trx, event)]: it throws (its
    promise rejects), or it leaves the sub-stores of the transaction in state
    [d'] and returns a changed item or [null]. *)
Inductive FoldResult (A D : Type) : Type :=
| FoldThrows (err : string)
| FoldReturns (d' : D) (changedItem : option A).
Arguments FoldThrows {A D} err.
Arguments FoldReturns {A D} d' changedItem.

(** [V] is the payload of an event, [A] the aggregated value, [D] the
    content of the sub-stores the subclass keeps in the aggregator's
    database.  The two abstract methods are the subclass's: [processEvent],
    and [getAggregated(itemIds)], which is given whether [this.db] is set and
    the committed sub-stores, and resolves to an object keyed by item id.
    Listeners are opaque callbacks, known by an identity; [listenerThrows]
    says which of them raise when called. *)
Class Consumer (V A D : Type) : Type := {
  processEvent : D -> StoredEvent V -> FoldResult A D;
  getAggregated : bool -> D -> list string -> Promise (list (string * A));
  listenerThrows : nat -> bool
}.

(** How [EventAggregator.initialize] goes: everything succeeds; the open
    request fails ([request.onerror]); a migration hook throws inside
    [onupgradeneeded], where the exception is caught, logged and turned into
    a rejection, while the open request itself goes on; or the database
    opens and the read of the coverage record fails. *)
Inductive InitOutcome : Type :=
| InitSucceeds
| OpenFails (err : string)
| MigrationFails (err : string)
| LoadFails (err : string).

(** How the storage treats a read-write transaction of the aggregator:
    it commits, the [put] of the coverage record fails, or the requests
    succeed and the transaction then fails to commit.  A transaction that
    fails to commit is sent [abort], neither [complete] nor [error]: the
    promise built on [tx.oncomplete] and [tx.onerror] stays pending. *)
Inductive TxFate : Type := Commits | PutFails | CommitFails.

(** How the storage treats the transaction of [EventStore.add]. *)
Inductive StoreTxFate : Type := StoreCommits | StoreRequestFails | StoreCommitFails.

(** The events IndexedDB fires at the request and the transaction of
    [EventStore.add]. *)
Inductive IDBSignal : Type :=
| RequestSuccess (key : Z)
| RequestError
| TransactionError
| TransactionAbort
| TransactionComplete.

(** A listener of the event store: the aggregator's bound [handleNewEvent],
    or some other callback. *)
Inductive StoreListener : Type :=
| AggregatorHandler
| ExternalListener (id : nat).

Definition StoreListener_eqb (a b : StoreListener) : bool :=
  match a, b with
  | AggregatorHandler, AggregatorHandler => true
  | ExternalListener x, ExternalListener y => Nat.eqb x y
  | _, _ => false
  end.

(** What can be observed of a run, in the order it happens. *)
Inductive Effect (V A : Type) : Type :=
| ConsoleError (msg : string)
| ProcessEventCalled (ev : StoredEvent V)
| ListenerCalled (listener : nat) (changedItem : A)
| StoreListenerCalled (listener : StoreListener) (ev : StoredEvent V)
| TxAbortCalled
| Signal (sig : IDBSignal).
Arguments ConsoleError {V A} msg.
Arguments ProcessEventCalled {V A} ev.
Arguments ListenerCalled {V A} listener changedItem.
Arguments StoreListenerCalled {V A} listener ev.
Arguments TxAbortCalled {V A}.
Arguments Signal {V A} sig.

(** ** JavaScript [Set], in insertion order *)

Fixpoint set_has {T} (eqb : T -> T -> bool) (x : T) (s : list T) : bool :=
  match s with
  | [] => false
  | y :: s' => eqb x y || set_has eqb x s'
  end.

Definition set_add {T} (eqb : T -> T -> bool) (x : T) (s : list T) : list T :=
  if set_has eqb x s then s else s ++ [x].

Definition set_delete {T} (eqb : T -> T -> bool) (x : T) (s : list T) : list T :=
  filter (fun y => negb (eqb x y)) s.

(** ** The databases *)

(** The object store ['Events'] ([keyPath: 'localId', autoIncrement: true],
    unique index on [globalId]): its records in key order and its key
    generator. *)
Record EventsDb (V : Type) : Type :=
  mkEventsDb { records : list (StoredEvent V); keyGenerator : Z }.
Arguments mkEventsDb {V} records keyGenerator.
Arguments records {V} e.
Arguments keyGenerator {V} e.

(** [store.add({ globalId, value })] of IndexedDB: a record whose [globalId]
    is in the unique index already is refused (ConstraintError) and nothing
    changes; otherwise the key generator supplies [localId]. *)
Definition idb_add {V} (db : EventsDb V) (gid : string) (v : V)
  : option (Z * EventsDb V) :=
  if existsb (fun r => String.eqb (globalId r) gid) (records db) then None
  else
    let key := keyGenerator db in
    Some (key, mkEventsDb (records db ++ [mkEvent key gid v]) (key + 1)).

(** The aggregator's database: the ['Metadata'] record under
    ['ProcessedRanges'] (absent at first) and the subclass's sub-stores. *)
Record AggDb (D : Type) : Type :=
  mkAggDb { metadata : option (list ProcessedRange); stores : D }.
Arguments mkAggDb {D} metadata stores.
Arguments metadata {D} a.
Arguments stores {D} a.

(** ** The two objects *)

Record EventStore : Type := mkEventStore {
  store_db : bool;                       (* [this.db !== null] *)
  store_listeners : list StoreListener;
  store_initializationTried : bool;
  store_initializationError : option string;
  store_initializationSucceeded : bool
}.

Record EventAggregator : Type := mkEventAggregator {
  agg_db : bool;                         (* [this.db !== null] *)
  processedRanges : list ProcessedRange;
  processingIntervalId : option Z;
  agg_listeners : list nat;
  batchSize : Z;
  agg_initializationTried : bool;
  agg_initializationError : option string;
  agg_initializationSucceeded : bool
}.

(** The two objects and the committed content of their databases;
    [aggOpening] says that an open request of the aggregator's database is
    still on its way: its [success] event has not been delivered yet. *)
Record System (V D : Type) : Type := mkSystem {
  eventsDisk : EventsDb V;
  aggDisk : AggDb D;
  eventStore : EventStore;
  aggregator : EventAggregator;
  aggOpening : bool
}.
Arguments mkSystem {V D} eventsDisk aggDisk eventStore aggregator aggOpening.
Arguments eventsDisk {V D} s.
Arguments aggDisk {V D} s.
Arguments eventStore {V D} s.
Arguments aggregator {V D} s.
Arguments aggOpening {V D} s.

Definition with_processedRanges (ag : EventAggregator) (l : list ProcessedRange)
  : EventAggregator :=
  mkEventAggregator (agg_db ag) l (processingIntervalId ag) (agg_listeners ag)
    (batchSize ag) (agg_initializationTried ag) (agg_initializationError ag)
    (agg_initializationSucceeded ag).

Definition with_processingIntervalId (ag : EventAggregator) (i : option Z)
  : EventAggregator :=
  mkEventAggregator (agg_db ag) (processedRanges ag) i (agg_listeners ag)
    (batchSize ag) (agg_initializationTried ag) (agg_initializationError ag)
    (agg_initializationSucceeded ag).

Definition with_agg_listeners (ag : EventAggregator) (l : list nat) : EventAggregator :=
  mkEventAggregator (agg_db ag) (processedRanges ag) (processingIntervalId ag) l
    (batchSize ag) (agg_initializationTried ag) (agg_initializationError ag)
    (agg_initializationSucceeded ag).

Definition with_store_listeners (st : EventStore) (l : list StoreListener) : EventStore :=
  mkEventStore (store_db st) l (store_initializationTried st)
    (store_initializationError st) (store_initializationSucceeded st).

Definition with_aggregator {V D} (s : System V D) (ag : EventAggregator) : System V D :=
  mkSystem (eventsDisk s) (aggDisk s) (eventStore s) ag (aggOpening s).

Definition with_eventStore {V D} (s : System V D) (st : EventStore) : System V D :=
  mkSystem (eventsDisk s) (aggDisk s) st (aggregator s) (aggOpening s).

Definition with_eventsDisk {V D} (s : System V D) (e : EventsDb V) : System V D :=
  mkSystem e (aggDisk s) (eventStore s) (aggregator s) (aggOpening s).

Definition with_aggDisk {V D} (s : System V D) (a : AggDb D) : System V D :=
  mkSystem (eventsDisk s) a (eventStore s) (aggregator s) (aggOpening s).

Definition with_aggOpening {V D} (s : System V D) (b : bool) : System V D :=
  mkSystem (eventsDisk s) (aggDisk s) (eventStore s) (aggregator s) b.

(** ** Behaviour *)

Section Behaviour.

Context {V A D : Type} `{C : Consumer V A D}.

(** *** [EventAggregator] *)

(** [notifyListeners(changes)]: every change to every listener, a raising
    listener is logged and the loop goes on. *)
Definition EventAggregator_notifyListeners (ag : EventAggregator) (changes : list A)
  : list (Effect V A) :=
  flat_map (fun updated =>
    flat_map (fun listener =>
      ListenerCalled listener updated ::
      (if listenerThrows listener then [ConsoleError "Error in listener:"] else []))
      (agg_listeners ag))
    changes.

Definition EventAggregator_subscribe (listener : nat) (ag : EventAggregator)
  : EventAggregator :=
  with_agg_listeners ag (set_add Nat.eqb listener (agg_listeners ag)).

(** The function [subscribe] returns. *)
Definition EventAggregator_unsubscribe (listener : nat) (ag : EventAggregator)
  : EventAggregator :=
  with_agg_listeners ag (set_delete Nat.eqb listener (agg_listeners ag)).

(** [startProcessing]; [timerId] is what [setInterval] returns. *)
Definition startProcessing (timerId : Z) (ag : EventAggregator) : EventAggregator :=
  match processingIntervalId ag with
  | None => with_processingIntervalId ag (Some timerId)
  | Some _ => ag
  end.

Definition stopProcessing (ag : EventAggregator) : EventAggregator :=
  match processingIntervalId ag with
  | Some _ => with_processingIntervalId ag None
  | None => ag
  end.

Definition EventAggregator_dispose (ag : EventAggregator) : EventAggregator :=
  mkEventAggregator false (processedRanges ag) (processingIntervalId ag) []
    (batchSize ag) (agg_initializationTried ag) (agg_initializationError ag)
    (agg_initializationSucceeded ag).

(** [handleNewEvent(ev)].  The transaction works on the committed content of
    the database; [tx.abort()] and a failed commit leave that content as it
    was, the object's own fields keep what was assigned to them. *)
Definition handleNewEvent (ev : StoredEvent V) (fate : TxFate) (s : System V D)
  : System V D * list (Effect V A) * Promise unit :=
  let ag := aggregator s in
  if negb (agg_db ag) then (s, [], Rejected "Database not initialized")
  else
    match processEvent (stores (aggDisk s)) ev with
    | FoldThrows _ =>
        (s, [ProcessEventCalled ev; ConsoleError "Error processing new event:";
             TxAbortCalled], Resolved tt)
    | FoldReturns d' changedItem =>
        let ag' := with_processedRanges ag
                     (updateProcessedRanges (processedRanges ag) (localId ev) (localId ev)) in
        let notified := match changedItem with
                        | Some c => EventAggregator_notifyListeners ag' [c]
                        | None => []
                        end in
        match fate with
        | PutFails =>
            (with_aggregator s ag',
             [ProcessEventCalled ev; ConsoleError "Error processing new event:";
              TxAbortCalled], Resolved tt)
        | Commits =>
            (with_aggDisk (with_aggregator s ag')
               (mkAggDb (Some (processedRanges ag')) d'),
             ProcessEventCalled ev :: notified, Resolved tt)
        | CommitFails =>
            (with_aggregator s ag', ProcessEventCalled ev :: notified, Pending)
        end
    end.

(** What [handleNewEvent(ev)] does after its [await]: when the store calls
    it as a listener, the call returns at the [await] with [processEvent]
    called, and this part runs once the requests of [processEvent] have been
    served.  It holds its transaction and does not look at [this.db]
    again. *)
Definition handleNewEvent_resume (ev : StoredEvent V) (fate : TxFate) (s : System V D)
  : System V D * list (Effect V A) * Promise unit :=
  let ag := aggregator s in
  match processEvent (stores (aggDisk s)) ev with
  | FoldThrows _ =>
      (s, [ConsoleError "Error processing new event:"; TxAbortCalled], Resolved tt)
  | FoldReturns d' changedItem =>
      let ag' := with_processedRanges ag
                   (updateProcessedRanges (processedRanges ag) (localId ev) (localId ev)) in
      let notified := match changedItem with
                      | Some c => EventAggregator_notifyListeners ag' [c]
                      | None => []
                      end in
      match fate with
      | PutFails =>
          (with_aggregator s ag',
           [ConsoleError "Error processing new event:"; TxAbortCalled], Resolved tt)
      | Commits =>
          (with_aggDisk (with_aggregator s ag')
             (mkAggDb (Some (processedRanges ag')) d'),
           notified, Resolved tt)
      | CommitFails => (with_aggregator s ag', notified, Pending)
      end
  end.

(** The [for (const ev of eventsBefore)] loop of [processEvents]: the calls
    made, the sub-stores if no call threw, and [changedItems]. *)
Fixpoint foldEvents (evs : list (StoredEvent V)) (d : D) (changedItems : list A)
  : list (Effect V A) * option D * list A :=
  match evs with
  | [] => ([], Some d, changedItems)
  | ev :: rest =>
      match processEvent d ev with
      | FoldThrows _ => ([ProcessEventCalled ev], None, changedItems)
      | FoldReturns d' changedItem =>
          let changedItems' := match changedItem with
                               | Some c => changedItems ++ [c]
                               | None => changedItems
                               end in
          let '(calls, r, items) := foldEvents rest d' changedItems' in
          (ProcessEventCalled ev :: calls, r, items)
      end
  end.

(** *** [EventStore]: the queries *)

Inductive IDBCursorDirection : Type := next | prev.

Inductive IDBKeyRange : Type :=
| lowerBound (lower : Z) (open : bool)
| upperBound (upper : Z) (open : bool).

Definition includes (range : IDBKeyRange) (key : Z) : bool :=
  match range with
  | lowerBound lower open => if open then lower <? key else lower <=? key
  | upperBound upper open => if open then key <? upper else key <=? upper
  end.

(** [!options?.limit]: no options, no limit, or a limit of 0. *)
Definition no_limit (limit : option Z) : bool :=
  match limit with
  | None => true
  | Some n => n =? 0
  end.

(** The [onsuccess] handler of the cursor request, once per record the cursor
    is positioned on, and a last time with no record left. *)
Fixpoint cursorLoop (limit : option Z) (cursor results : list (StoredEvent V))
  : list (StoredEvent V) :=
  match cursor with
  | [] => results
  | storedEvent :: rest =>
      let results' := results ++ [storedEvent] in
      if no_limit limit
         || (Z.of_nat (List.length results') <? match limit with Some n => n | None => 0 end)
      then cursorLoop limit rest results'
      else results'
  end.

Definition getEvents (direction : IDBCursorDirection) (range : IDBKeyRange)
    (limit : option Z) (s : System V D) : Promise (list (StoredEvent V)) :=
  if negb (store_db (eventStore s)) then Rejected "Database not initialized"
  else
    let inRange := filter (fun r => includes range (localId r)) (records (eventsDisk s)) in
    let cursor := match direction with next => inRange | prev => rev inRange end in
    Resolved (cursorLoop limit cursor []).

Definition getEventsAfter (id : Z) (limit : option Z) (s : System V D) :=
  getEvents next (lowerBound id true) limit s.

Definition getEventsBefore (id : Z) (limit : option Z) (s : System V D) :=
  getEvents prev (upperBound id true) limit s.

Definition hasAnyRecord (s : System V D) : Promise bool :=
  if negb (store_db (eventStore s)) then Rejected "Database not initialized"
  else Resolved (match records (eventsDisk s) with [] => false | _ :: _ => true end).

(** [cleanupOldData(keepLatest)]: the ascending cursor deletes
    [count - keepLatest] records, or all of them if there are fewer. *)
Definition cleanupOldData (keepLatest : Z) (s : System V D)
  : System V D * Promise unit :=
  if negb (store_db (eventStore s)) then (s, Rejected "Database not initialized")
  else
    let count := Z.of_nat (List.length (records (eventsDisk s))) in
    if count <=? keepLatest then (s, Resolved tt)
    else
      let deleteCount := count - keepLatest in
      (with_eventsDisk s
         (mkEventsDb (skipn (Z.to_nat deleteCount) (records (eventsDisk s)))
                     (keyGenerator (eventsDisk s))),
       Resolved tt).

Definition EventStore_subscribe (listener : StoreListener) (st : EventStore) : EventStore :=
  with_store_listeners st (set_add StoreListener_eqb listener (store_listeners st)).

Definition EventStore_unsubscribe (listener : StoreListener) (st : EventStore)
  : EventStore :=
  with_store_listeners st (set_delete StoreListener_eqb listener (store_listeners st)).

Definition EventStore_dispose (st : EventStore) : EventStore :=
  mkEventStore false [] (store_initializationTried st)
    (store_initializationError st) (store_initializationSucceeded st).

(** [initialize]; [openError] is the error of [indexedDB.open], if any.
    (The store never sets [_initializationSucceeded].) *)
Definition EventStore_initialize (openError : option string) (st : EventStore)
  : EventStore :=
  if store_initializationTried st then st
  else
    match openError with
    | None => mkEventStore true (store_listeners st) true
                (store_initializationError st) (store_initializationSucceeded st)
    | Some err => mkEventStore (store_db st) (store_listeners st) true
                    (Some err) (store_initializationSucceeded st)
    end.

(** *** [processEvents], one tick of the catch-up timer *)

Definition processEvents (fate : TxFate) (s : System V D)
  : System V D * list (Effect V A) * Promise unit :=
  let ag := aggregator s in
  if negb (agg_db ag) then (s, [], Rejected "Database not initialized")
  else if isFullyCovered (processedRanges ag)
  then (with_aggregator s (stopProcessing ag), [], Resolved tt)
  else
    match findRangeToProcess (processedRanges ag) with
    | Pending => (s, [], Pending)
    | Rejected msg => (s, [], Rejected msg)
    | Resolved None => (s, [], Resolved tt)
    | Resolved (Some range) =>
        let limit := Z.min (batchSize ag) (end_ range - start range - 1) in
        match getEventsBefore (end_ range) (Some limit) s with
        | Pending => (s, [], Pending)
        | Rejected msg => (s, [], Rejected msg)
        | Resolved eventsBefore =>
            match eventsBefore with
            | [] => (s, [], Resolved tt)
            | first :: _ =>
                let maxId := localId first in
                let minId := localId (last eventsBefore first) in
                match foldEvents eventsBefore (stores (aggDisk s)) [] with
                | (calls, None, changedItems) =>
                    (s,
                     calls ++ [ConsoleError "Error processing events:"; TxAbortCalled]
                           ++ EventAggregator_notifyListeners ag changedItems,
                     Resolved tt)
                | (calls, Some d', changedItems) =>
                    let ag' :=
                      with_processedRanges ag
                        (if Z.of_nat (List.length eventsBefore) <? batchSize ag
                         then updateProcessedRanges (processedRanges ag) 1 maxId
                         else updateProcessedRanges (processedRanges ag) minId maxId) in
                    match fate with
                    | PutFails =>
                        (with_aggregator s ag',
                         calls ++ [ConsoleError "Error processing events:"; TxAbortCalled]
                               ++ EventAggregator_notifyListeners ag' changedItems,
                         Resolved tt)
                    | Commits =>
                        (with_aggDisk (with_aggregator s ag')
                           (mkAggDb (Some (processedRanges ag')) d'),
                         calls, Resolved tt)
                    | CommitFails => (with_aggregator s ag', calls, Pending)
                    end
                end
            end
        end
    end.

(** [EventAggregator.initialize] up to the point where its promise settles:
    open the database, load the persisted coverage ([?? []]), subscribe
    [handleNewEvent] to the store.  When a migration hook throws,
    [initializeDatabase] rejects from inside [onupgradeneeded] and
    [initialize] records the failure, but the open request is still on its
    way; when the read of the coverage record fails, the database is open and
    the handler is not subscribed. *)
Definition EventAggregator_initialize (outcome : InitOutcome) (s : System V D)
  : System V D :=
  let ag := aggregator s in
  if agg_initializationTried ag then s
  else
    let failed (db : bool) (err : string) :=
      mkEventAggregator db (processedRanges ag) (processingIntervalId ag)
        (agg_listeners ag) (batchSize ag) true (Some err)
        (agg_initializationSucceeded ag) in
    match outcome with
    | OpenFails err => with_aggregator s (failed (agg_db ag) err)
    | MigrationFails err =>
        with_aggOpening (with_aggregator s (failed (agg_db ag) err)) true
    | LoadFails err => with_aggregator s (failed true err)
    | InitSucceeds =>
        let loaded := match metadata (aggDisk s) with Some l => l | None => [] end in
        with_eventStore
          (with_aggregator s
             (mkEventAggregator true loaded (processingIntervalId ag)
                (agg_listeners ag) (batchSize ag) true (agg_initializationError ag) true))
          (EventStore_subscribe AggregatorHandler (eventStore s))
    end.

(** What a call of [initialize] logs: the [console.error] of
    [onupgradeneeded]. *)
Definition initialize_log (outcome : InitOutcome) (s : System V D) : list (Effect V A) :=
  if agg_initializationTried (aggregator s) then []
  else match outcome with
       | MigrationFails _ => [ConsoleError "Error during database migration:"]
       | _ => []
       end.

(** [request.onsuccess] of an open request that is still on its way:
    [this.db = request.result], whatever has happened to the object in
    between. *)
Definition EventAggregator_openSuccess (s : System V D) : System V D :=
  if aggOpening s
  then
    let ag := aggregator s in
    with_aggOpening
      (with_aggregator s
         (mkEventAggregator true (processedRanges ag) (processingIntervalId ag)
            (agg_listeners ag) (batchSize ag) (agg_initializationTried ag)
            (agg_initializationError ag) (agg_initializationSucceeded ag)))
      false
  else s.

(** *** [EventStore.add] *)

(** One listener of the store called with [msg].  The aggregator's handler
    is [handleNewEvent], an [async] function whose promise is not awaited:
    the call runs it up to its [await], that is, it checks [this.db], opens
    the transaction and calls [processEvent]; the rest is left waiting.
    Another callback is recorded, and logged if it raises.  The accumulator
    holds what was observed and the events whose live fold is waiting. *)
Definition callStoreListener (msg : StoredEvent V) (s : System V D)
    (acc : list (Effect V A) * list (StoredEvent V)) (listener : StoreListener)
  : list (Effect V A) * list (StoredEvent V) :=
  let '(trace, waiting) := acc in
  match listener with
  | AggregatorHandler =>
      if negb (agg_db (aggregator s))
      then (trace ++ [StoreListenerCalled listener msg], waiting)
      else (trace ++ [StoreListenerCalled listener msg; ProcessEventCalled msg],
            waiting ++ [msg])
  | ExternalListener id =>
      (trace ++ StoreListenerCalled listener msg ::
                (if listenerThrows id then [ConsoleError "Error in listener:"] else []),
       waiting)
  end.

Definition EventStore_notifyListeners (msg : StoredEvent V) (s : System V D)
  : list (Effect V A) * list (StoredEvent V) :=
  fold_left (callStoreListener msg s) (store_listeners (eventStore s)) ([], []).

Definition broadcastAddEvent (event : StoredEvent V) (s : System V D) :=
  EventStore_notifyListeners event s.

(** A call of [add] in flight: its promise, the system, what happened so
    far, the content of the store inside the open transaction, and the live
    folds that are waiting. *)
Record AddCall : Type := mkAddCall {
  add_promise : Promise unit;
  add_system : System V D;
  add_trace : list (Effect V A);
  add_working : EventsDb V;
  add_waiting : list (StoredEvent V)
}.

(** The handlers [add] installs, one case per event:
    [request.onsuccess], [request.onerror], [trx.onerror], [trx.onabort];
    no handler is installed for [complete]. *)
Definition add_handlers (gid : string) (v : V)
    (sig : IDBSignal) (c : AddCall) : AddCall :=
  match sig with
  | RequestSuccess key =>
      let localId := key in
      let storedEvent := mkEvent localId gid v in
      let '(eff, waiting) := broadcastAddEvent storedEvent (add_system c) in
      mkAddCall (settle (add_promise c) (Resolved tt)) (add_system c) (add_trace c ++ eff)
                (add_working c) (add_waiting c ++ waiting)
  | RequestError =>
      mkAddCall (settle (add_promise c) (Rejected "Add error")) (add_system c)
                (add_trace c) (add_working c) (add_waiting c)
  | TransactionError =>
      mkAddCall (settle (add_promise c) (Rejected "Transaction error")) (add_system c)
                (add_trace c) (add_working c) (add_waiting c)
  | TransactionAbort =>
      mkAddCall (settle (add_promise c) (Rejected "Transaction aborted")) (add_system c)
                (add_trace c) (add_working c) (add_waiting c)
  | TransactionComplete => c
  end.

(** What IndexedDB does and fires for [store.add({ globalId, value })] in a
    fresh read-write transaction: the request fails (always so on a
    [globalId] already indexed), the error reaches the transaction, which
    aborts; or the request succeeds with the new key and the transaction
    then completes, or fails to commit and aborts.  The record is part of
    the store once the transaction has completed. *)
Definition idb_add_signals (db : EventsDb V) (gid : string) (v : V) (fate : StoreTxFate)
  : list IDBSignal * EventsDb V :=
  match idb_add db gid v, fate with
  | None, _ | _, StoreRequestFails =>
      ([RequestError; TransactionError; TransactionAbort], db)
  | Some (key, db'), StoreCommits => ([RequestSuccess key; TransactionComplete], db')
  | Some (key, db'), StoreCommitFails => ([RequestSuccess key; TransactionAbort], db')
  end.

(** Delivery of one event: a completed transaction makes its content the
    committed one, then the handler (if any) runs. *)
Definition deliver (gid : string) (v : V)
    (c : AddCall) (sig : IDBSignal) : AddCall :=
  let c1 := mkAddCall (add_promise c)
              (match sig with
               | TransactionComplete => with_eventsDisk (add_system c) (add_working c)
               | _ => add_system c
               end)
              (add_trace c ++ [Signal sig]) (add_working c) (add_waiting c) in
  add_handlers gid v sig c1.

(** The live folds that were left waiting run to their end, in the order in
    which they were started; [aggFate] is what the storage does with the
    aggregator's transaction. *)
Definition resumeLiveFold (aggFate : TxFate)
    (acc : System V D * list (Effect V A)) (ev : StoredEvent V)
  : System V D * list (Effect V A) :=
  let '(s, trace) := acc in
  let '(s', eff, _) := handleNewEvent_resume ev aggFate s in
  (s', trace ++ eff).

(** [add(value)]; [gid] is what [uuidv7()] returns.  The events of the
    store's transaction are delivered first; the requests of the live fold,
    issued from the success handler against the aggregator's database, are
    served after the store's transaction has ended. *)
Definition add (gid : string) (v : V) (fate : StoreTxFate) (aggFate : TxFate)
    (s : System V D) : System V D * list (Effect V A) * Promise unit :=
  if negb (store_db (eventStore s)) then (s, [], Rejected "Database not initialized")
  else
    let '(signals, working) := idb_add_signals (eventsDisk s) gid v fate in
    let c := fold_left (deliver gid v) signals
                       (mkAddCall Pending s [] working []) in
    let '(s', trace) := fold_left (resumeLiveFold aggFate) (add_waiting c)
                                  (add_system c, add_trace c) in
    (s', trace, add_promise c).

End Behaviour.

(** ** The system as a state machine *)

Section Machine.

Context {V A D : Type} `{C : Consumer V A D}.

(** The calls the outside can make, with what the surroundings decide for
    each. *)
Inductive Op : Type :=
| OpStoreInitialize (openError : option string)
| OpAdd (gid : string) (v : V) (fate : StoreTxFate) (aggFate : TxFate)
| OpGetEventsAfter (id : Z) (limit : option Z)
| OpGetEventsBefore (id : Z) (limit : option Z)
| OpHasAnyRecord
| OpCleanupOldData (keepLatest : Z)
| OpStoreSubscribe (id : nat)
| OpStoreUnsubscribe (id : nat)
| OpStoreDispose
| OpAggInitialize (outcome : InitOutcome)
| OpAggOpenSuccess
| OpGetAggregated (itemIds : list string)
| OpStartProcessing (timerId : Z)
| OpStopProcessing
| OpAggSubscribe (listener : nat)
| OpAggUnsubscribe (listener : nat)
| OpHandleNewEvent (ev : StoredEvent V) (fate : TxFate)
| OpProcessEvents (fate : TxFate)
| OpAggDispose.

Definition forget {T} (p : Promise T) : Promise unit :=
  match p with
  | Pending => Pending
  | Resolved _ => Resolved tt
  | Rejected msg => Rejected msg
  end.

Definition step (op : Op) (s : System V D)
  : System V D * list (Effect V A) * Promise unit :=
  match op with
  | OpStoreInitialize openError =>
      (with_eventStore s (EventStore_initialize openError (eventStore s)), [], Resolved tt)
  | OpAdd gid v fate aggFate => add gid v fate aggFate s
  | OpGetEventsAfter id limit => (s, [], forget (getEventsAfter id limit s))
  | OpGetEventsBefore id limit => (s, [], forget (getEventsBefore id limit s))
  | OpHasAnyRecord => (s, [], forget (hasAnyRecord s))
  | OpCleanupOldData keepLatest =>
      let '(s', r) := cleanupOldData keepLatest s in (s', [], r)
  | OpStoreSubscribe id =>
      (with_eventStore s (EventStore_subscribe (ExternalListener id) (eventStore s)),
       [], Resolved tt)
  | OpStoreUnsubscribe id =>
      (with_eventStore s (EventStore_unsubscribe (ExternalListener id) (eventStore s)),
       [], Resolved tt)
  | OpStoreDispose =>
      (with_eventStore s (EventStore_dispose (eventStore s)), [], Resolved tt)
  | OpAggInitialize outcome =>
      (EventAggregator_initialize outcome s, initialize_log outcome s, Resolved tt)
  | OpAggOpenSuccess => (EventAggregator_openSuccess s, [], Resolved tt)
  | OpGetAggregated itemIds =>
      (s, [], forget (getAggregated (agg_db (aggregator s)) (stores (aggDisk s)) itemIds))
  | OpStartProcessing timerId =>
      (with_aggregator s (startProcessing timerId (aggregator s)), [], Resolved tt)
  | OpStopProcessing => (with_aggregator s (stopProcessing (aggregator s)), [], Resolved tt)
  | OpAggSubscribe listener =>
      (with_aggregator s (EventAggregator_subscribe listener (aggregator s)), [],
       Resolved tt)
  | OpAggUnsubscribe listener =>
      (with_aggregator s (EventAggregator_unsubscribe listener (aggregator s)), [],
       Resolved tt)
  | OpHandleNewEvent ev fate => handleNewEvent ev fate s
  | OpProcessEvents fate => processEvents fate s
  | OpAggDispose =>
      (with_aggregator s (EventAggregator_dispose (aggregator s)), [], Resolved tt)
  end.

(** A sequence of calls: the final state, everything observed, and the
    promise of each call. *)
Fixpoint run (ops : list Op) (s : System V D)
  : System V D * list (Effect V A) * list (Promise unit) :=
  match ops with
  | [] => (s, [], [])
  | op :: ops' =>
      let '(s1, eff1, r1) := step op s in
      let '(s2, eff2, rs) := run ops' s1 in
      (s2, eff1 ++ eff2, r1 :: rs)
  end.



(** An event handed to [handleNewEvent] directly carries a key the store
    could have generated. *)
Definition op_ids_positive (op : Op) : Prop :=
  match op with
  | OpHandleNewEvent ev _ => 1 <= localId ev
  | _ => True
  end.

(** Keys generated by IndexedDB start at 1. *)
Definition store_keys_positive (db : EventsDb V) : Prop :=
  Forall (fun r => 1 <= localId r) (records db) /\ 1 <= keyGenerator db.

(** Nothing covered yet, in the object or in its database. *)
Definition empty_coverage (s : System V D) : Prop :=
  processedRanges (aggregator s) = [] /\
  metadata (aggDisk s) = None /\
  store_keys_positive (eventsDisk s).

Inductive reachable : System V D -> Prop :=
| reachable_start s : empty_coverage s -> reachable s
| reachable_step s op :
    reachable s -> op_ids_positive op -> reachable (fst (fst (step op s))).

Definition starts_positive (l : list ProcessedRange) : Prop :=
  Forall (fun r => 1 <= start r) l.

(** What holds of the coverage in every state that can be reached: no
    interval starts below 1, in the object or in its database. *)
Definition coverage_invariant (s : System V D) : Prop :=
  starts_positive (processedRanges (aggregator s)) /\
  (forall l, metadata (aggDisk s) = Some l -> starts_positive l) /\
  store_keys_positive (eventsDisk s).

(** The objects as their constructors leave them, over empty databases. *)
Definition newSystem (d0 : D) (batchSize : Z) : System V D :=
  mkSystem (mkEventsDb [] 1) (mkAggDb None d0)
           (mkEventStore false [] false None false)
           (mkEventAggregator false [] None [] batchSize false None false)
           false.






(** Effects that are neither a call of a store listener nor an event of the
    store's transaction. *)
Definition quiet (e : Effect V A) : Prop :=
  match e with
  | StoreListenerCalled _ _ | Signal _ => False
  | _ => True
  end.

Definition is_ListenerCalled (e : Effect V A) : bool :=
  match e with ListenerCalled _ _ => true | _ => false end.

Definition is_StoreListenerCalled (e : Effect V A) : bool :=
  match e with StoreListenerCalled _ _ => true | _ => false end.

End Machine.

Arguments Op V : clear implicits.

(** ** Two subclasses to run the model on *)

(** The listen counter of [listenEvent.ts]: the payload is the [itemId], the
    ['Total'] store maps an [aggregationKey] to its [total]. *)
Fixpoint total_of (key : string) (totals : list (string * Z)) : option Z :=
  match totals with
  | [] => None
  | (k, t) :: rest => if String.eqb k key then Some t else total_of key rest
  end.

Fixpoint put_total (key : string) (t : Z) (totals : list (string * Z))
  : list (string * Z) :=
  match totals with
  | [] => [(key, t)]
  | (k, t0) :: rest =>
      if String.eqb k key then (k, t) :: rest else (k, t0) :: put_total key t rest
  end.

(** [{ ...acc, [key]: value }]: a key already present keeps its place and
    takes the new value, a new key goes last. *)
Fixpoint object_set {T} (key : string) (v : T) (obj : list (string * T))
  : list (string * T) :=
  match obj with
  | [] => [(key, v)]
  | (k, v0) :: rest =>
      if String.eqb k key then (k, v) :: rest else (k, v0) :: object_set key v rest
  end.

Fixpoint object_get {T} (key : string) (obj : list (string * T)) : option T :=
  match obj with
  | [] => None
  | (k, v) :: rest => if String.eqb k key then Some v else object_get key rest
  end.

(** [getItemData(itemId)]: the record of the ['Total'] store, or the default
    [{ aggregationKey: itemId, total: 0 }]. *)
Definition getItemData (totals : list (string * Z)) (itemId : string)
  : string * (string * Z) :=
  (itemId, match total_of itemId totals with
           | Some t => (itemId, t)
           | None => (itemId, 0)
           end).

(** What the storage does with the two requests of [processEvent], the
    [get] of the record and the [put] of the new total. *)
Inductive ListenRequests : Type :=
| AllServed
| GetRequestFails (err : string)
| PutRequestFails (err : string).

(** [processEvent] of [MusicListenEventAggregator]: the promise rejects from
    [getReq.onerror] or from [putReq.onerror], and resolves with the updated
    record from [putReq.onsuccess]. *)
Definition MusicListenEventAggregator_processEvent
    (requests : list (string * Z) -> StoredEvent string -> ListenRequests)
    (totals : list (string * Z)) (event : StoredEvent string)
  : FoldResult (string * Z) (list (string * Z)) :=
  let aggregationKey := value event in
  match requests totals event with
  | GetRequestFails err => FoldThrows err
  | served =>
      let total :=
        match total_of aggregationKey totals with Some t => t | None => 0 end + 1 in
      match served with
      | PutRequestFails err => FoldThrows err
      | _ => FoldReturns (put_total aggregationKey total totals)
                         (Some (aggregationKey, total))
      end
  end.

(** [getAggregated(itemIds)] of [MusicListenEventAggregator]. *)
Definition MusicListenEventAggregator_getAggregated (db : bool)
    (totals : list (string * Z)) (itemIds : list string)
  : Promise (list (string * (string * Z))) :=
  if negb db then Rejected "Database not initialized"
  else
    Resolved (fold_left (fun acc entry => object_set (fst entry) (snd entry) acc)
                        (map (getItemData totals) itemIds) []).

(** The listen counter over a storage that treats the requests of
    [processEvent] as [requests] says. *)
Definition MusicListenEventAggregator
    (requests : list (string * Z) -> StoredEvent string -> ListenRequests)
  : Consumer string (string * Z) (list (string * Z)) := {|
  processEvent := MusicListenEventAggregator_processEvent requests;
  getAggregated := MusicListenEventAggregator_getAggregated;
  listenerThrows _ := false
|}.

(** The listen counter over a storage that serves every request of
    [processEvent]. *)
#[local] Instance MusicListen : Consumer string (string * Z) (list (string * Z)) :=
  MusicListenEventAggregator (fun _ _ => AllServed).

(** A fold with an ordering requirement: the payload says how many folds
    must have been applied before this event can be; the sub-store is the
    journal of the ids folded, newest first. *)
#[local] Instance Journal : Consumer Z Z (list Z) := {
  processEvent journal event :=
    if Z.of_nat (List.length journal) <? value event then FoldThrows "not ready"
    else FoldReturns (localId event :: journal) (Some (localId event));
  getAggregated db journal itemIds :=
    if negb db then Rejected "Database not initialized" else Resolved [];
  listenerThrows _ := false
}.

(** ** Scenarios *)

(** An aggregator on the journal fold that has folded events 5 and 6. *)
Definition journal_state : System Z (list Z) :=
  mkSystem (mkEventsDb [mkEvent 5 "g5" 0; mkEvent 6 "g6" 0] 7)
           (mkAggDb (Some [mkRange 5 6]) [6; 5])
           (mkEventStore true [AggregatorHandler] true None false)
           (mkEventAggregator true [mkRange 5 6] (Some 1) [7%nat] 100 true None true)
           false.

(** Five events are in the store before the aggregator is deployed; then
    events 6, 7 and 8 are appended, and the fold of 7 fails on the live
    path. *)
Definition delayed_deploy_ops : list (Op Z) :=
  [OpStoreInitialize None;
   OpAdd "g1" 0 StoreCommits Commits; OpAdd "g2" 0 StoreCommits Commits;
   OpAdd "g3" 0 StoreCommits Commits; OpAdd "g4" 0 StoreCommits Commits;
   OpAdd "g5" 0 StoreCommits Commits;
   OpAggInitialize InitSucceeds; OpAggSubscribe 7%nat;
   OpAdd "g6" 0 StoreCommits Commits;
   OpAdd "g7" 2 StoreCommits Commits;
   OpAdd "g8" 0 StoreCommits Commits].

Definition delayed_deploy : System Z (list Z) :=
  Eval vm_compute in fst (fst (run (C := Journal) delayed_deploy_ops (newSystem [] 100))).

(** Three plays are in the store when the listen counter is deployed, with
    one listener subscribed. *)
Definition listen_backlog_ops : list (Op string) :=
  [OpStoreInitialize None;
   OpAdd "g1" "song1"%string StoreCommits Commits;
   OpAdd "g2" "song2"%string StoreCommits Commits;
   OpAdd "g3" "song1"%string StoreCommits Commits;
   OpAggInitialize InitSucceeds; OpAggSubscribe 7%nat].

Definition listen_backlog : System string (list (string * Z)) :=
  Eval vm_compute in fst (fst (run (C := MusicListen) listen_backlog_ops (newSystem [] 100))).

(** An open store with one subscriber and no aggregator yet. *)
Definition store_with_subscriber : System string (list (string * Z)) :=
  Eval vm_compute in
    fst (fst (run (C := MusicListen) [OpStoreInitialize None; OpStoreSubscribe 3%nat]
                  (newSystem [] 100))).

(** A system in use, with a listener on the store and one on the aggregator. *)
Definition listen_running : System string (list (string * Z)) :=
  Eval vm_compute in fst (fst (run (C := MusicListen)
                [OpStoreInitialize None; OpAggInitialize InitSucceeds;
                 OpStoreSubscribe 3%nat; OpAggSubscribe 7%nat; OpStartProcessing 1;
                 OpAdd "g1" "song1"%string StoreCommits Commits]
                (newSystem [] 100))).
(** ** Stores as IndexedDB leaves them, and the engine over them *)

Fixpoint countup (lo : Z) (n : nat) : list Z :=
  match n with
  | O => []
  | S n' => lo :: countup (lo + 1) n'
  end.

Fixpoint countdown (hi : Z) (n : nat) : list Z :=
  match n with
  | O => []
  | S n' => hi :: countdown (hi - 1) n'
  end.

(** The key the oldest record would have if the keys below the generator
    are all present. *)
Definition lowest_key {V} (db : EventsDb V) : Z :=
  keyGenerator db - Z.of_nat (List.length (records db)).

(** What [add] and [cleanupOldData] keep of an ['Events'] store that starts
    empty: the keys are the consecutive integers from [lowest_key] up to the
    generator, the first of them at least 1, and no [globalId] occurs
    twice. *)
Definition store_invariant {V} (db : EventsDb V) : Prop :=
  1 <= lowest_key db /\
  map localId (records db) = countup (lowest_key db) (List.length (records db)) /\
  NoDup (map globalId (records db)).

Definition ranges_within (lo hi : Z) (l : list ProcessedRange) : Prop :=
  Forall (fun r => lo <= start r /\ end_ r <= hi) l.

Definition eqb_correct {T} (eqb : T -> T -> bool) : Prop :=
  forall x y, eqb x y = true <-> x = y.

Definition is_ProcessEventCalled {V A} (e : Effect V A) : bool :=
  match e with ProcessEventCalled _ => true | _ => false end.

Section Engine.

Context {V A D : Type} `{C : Consumer V A D}.

(** A direct call of [handleNewEvent] is given an event of the store, or the
    one being appended. *)
Definition op_admissible (op : Op V) (s : System V D) : Prop :=
  match op with
  | OpHandleNewEvent ev _ => 1 <= localId ev <= keyGenerator (eventsDisk s)
  | _ => True
  end.

Fixpoint admissible (ops : list (Op V)) (s : System V D) : Prop :=
  match ops with
  | [] => True
  | op :: ops' => op_admissible op s /\ admissible ops' (fst (fst (step op s)))
  end.

(** The coverage list of the object and the persisted one are well-formed and
    lie between 1 and the key generator; an object that has not been
    initialized covers nothing, has no database and has issued no open
    request; once initialization has succeeded, what the persisted list
    covers the list in memory covers. *)
Definition engine_invariant (s : System V D) : Prop :=
  store_invariant (eventsDisk s) /\
  well_formed (processedRanges (aggregator s)) /\
  ranges_within 1 (keyGenerator (eventsDisk s)) (processedRanges (aggregator s)) /\
  (agg_initializationTried (aggregator s) = false ->
   processedRanges (aggregator s) = [] /\ agg_db (aggregator s) = false /\
   aggOpening s = false) /\
  (forall l, metadata (aggDisk s) = Some l ->
     well_formed l /\
     ranges_within 1 (keyGenerator (eventsDisk s)) l /\
     (agg_initializationSucceeded (aggregator s) = true ->
      forall z, covered l z -> covered (processedRanges (aggregator s)) z)).

(** [k] ticks of the timer, each with a transaction that commits. *)
Definition ticks (k : nat) : list (Op V) := repeat (OpProcessEvents Commits) k.

(** Where the catch-up stands after [k] ticks over [n] stored events. *)
Definition frontier (n : nat) (bs : Z) (k : nat) : Z :=
  Z.max 1 (Z.of_nat n + 1 - Z.of_nat k * bs).

(** The coverage after [k] ticks over a backlog of [n] events. *)
Definition coverage_after (n : nat) (bs : Z) (k : nat) : list ProcessedRange :=
  if (k =? 0)%nat || (n =? 0)%nat then []
  else [mkRange (frontier n bs k) (Z.of_nat n)].

(** A system [s] that has spent [k] ticks on the backlog [s0] started
    with. *)
Definition draining (s0 s : System V D) (bs : Z) (k : nat) : Prop :=
  agg_db (aggregator s) = true /\
  store_db (eventStore s) = true /\
  batchSize (aggregator s) = bs /\
  eventsDisk s = eventsDisk s0 /\
  processedRanges (aggregator s)
  = coverage_after (List.length (records (eventsDisk s0))) bs k /\
  ((1 <= k)%nat -> (1 <= List.length (records (eventsDisk s0)))%nat ->
   metadata (aggDisk s)
   = Some (coverage_after (List.length (records (eventsDisk s0))) bs k)).

(** The effect of lines 90 to 105 of [useEvent.tsx], as the calls its body
    makes, in order, for the values it reads. *)
Inductive BootAction : Type :=
| SetIsInitializing (b : bool)
| SetIsSyncing (b : bool)
| SetError (e : option string)
| StartProcessing
| CompleteBoot.

Definition bootEffect (hasBoot : bool) (s : System V D) : list BootAction :=
  if hasBoot then []
  else if negb (store_initializationTried (eventStore s))
          || negb (agg_initializationTried (aggregator s)) then []
  else if store_initializationSucceeded (eventStore s)
          && agg_initializationSucceeded (aggregator s)
  then [SetIsInitializing false; SetIsSyncing true; StartProcessing; CompleteBoot]
  else
    (if negb (store_initializationSucceeded (eventStore s))
     then [SetError (store_initializationError (eventStore s))] else [])
    ++ (if negb (agg_initializationSucceeded (aggregator s))
        then [SetError (agg_initializationError (aggregator s))] else [])
    ++ [SetIsInitializing false; SetIsSyncing false; CompleteBoot].

End Engine.

(** ** [MusicListenEventAggregator.getAggregated] on a system *)

Definition MusicListen_getAggregated (itemIds : list string)
    (s : System string (list (string * Z))) : Promise (list (string * (string * Z))) :=
  MusicListenEventAggregator_getAggregated (agg_db (aggregator s)) (stores (aggDisk s))
    itemIds.

(** [data?.total ?? 0]. *)
Definition total_or_zero (key : string) (totals : list (string * Z)) : Z :=
  match total_of key totals with Some t => t | None => 0 end.

(** How often [key] was played in a list of events. *)
Fixpoint plays (key : string) (evs : list (StoredEvent string)) : Z :=
  match evs with
  | [] => 0
  | ev :: rest => (if String.eqb (value ev) key then 1 else 0) + plays key rest
  end.

(** The events [processEvent] was called with, in the order of the calls. *)
Fixpoint folded {V A} (trace : list (Effect V A)) : list (StoredEvent V) :=
  match trace with
  | [] => []
  | ProcessEventCalled ev :: rest => ev :: folded rest
  | _ :: rest => folded rest
  end.

(** The two objects as the provider of [useEvent.tsx] constructs them when it
    mounts (lines 39 to 41), over the databases the browser holds: every
    field has its initial value. *)
Definition mount {V D} (events : EventsDb V) (agg : AggDb D) (batchSize : Z)
  : System V D :=
  mkSystem events agg
           (mkEventStore false [] false None false)
           (mkEventAggregator false [] None [] batchSize false None false)
           false.

(** Lines 42 to 47: [await eventStore.initialize(); await aggregator.initialize()]. *)
Definition mount_ops {V} (storeError : option string) (aggOutcome : InitOutcome)
  : list (Op V) :=
  [OpStoreInitialize storeError; OpAggInitialize aggOutcome].

(* ================================================================== *)
(** * Part II: theorems                                                *)
(* ================================================================== *)

(** ** The coverage algebra *)

Lemma covered_nil z : ~ covered [] z.
Proof. intros [r [[] _]]. Qed.

Lemma covered_cons r l z : covered (r :: l) z <-> in_range r z \/ covered l z.
Proof.
  unfold covered; split.
  - intros [x [[->|Hin] Hz]]; [now left | right; eauto].
  - intros [Hz | [x [Hin Hz]]]; [exists r | exists x]; simpl; auto.
Qed.

Lemma covered_app l1 l2 z : covered (l1 ++ l2) z <-> covered l1 z \/ covered l2 z.
Proof.
  induction l1 as [|r l1 IH]; simpl.
  - split; [now right | intros [H|H]; [now apply covered_nil in H | exact H]].
  - rewrite !covered_cons, IH. tauto.
Qed.

Lemma coveredb_spec l z : coveredb l z = true <-> covered l z.
Proof.
  unfold coveredb, covered, in_range. rewrite existsb_exists.
  split; intros [r [Hin H]]; exists r; split; auto.
  - apply andb_true_iff in H. lia.
  - apply andb_true_iff. lia.
Qed.

Lemma covered_perm l1 l2 :
  (forall r, In r l1 <-> In r l2) -> forall z, covered l1 z <-> covered l2 z.
Proof.
  intros H z; unfold covered; split; intros [r [Hin Hz]]; exists r; split; auto;
    now apply H.
Qed.

(** *** Sorting *)

Lemma In_insert_sorted x a l : In x (insert_sorted a l) <-> x = a \/ In x l.
Proof.
  induction l as [|y l IH]; simpl.
  - intuition congruence.
  - destruct (cmp_start_le a y); simpl; [|rewrite IH]; intuition congruence.
Qed.

Lemma In_sort_ranges x l : In x (sort_ranges l) <-> In x l.
Proof.
  induction l as [|a l IH]; simpl; [tauto|].
  rewrite In_insert_sorted, IH. intuition congruence.
Qed.

Lemma insert_sorted_ascending a l : ascending l -> ascending (insert_sorted a l).
Proof.
  induction 1 as [|y l Hy Hl IH]; simpl.
  - repeat constructor.
  - unfold cmp_start_le. destruct (Z.leb_spec (start a - start y) 0) as [Hle|Hgt].
    + constructor; [|now constructor].
      constructor; [lia|]. unfold head_le in *.
      rewrite Forall_forall in *. intros b Hb. specialize (Hy b Hb). lia.
    + constructor; [|exact IH].
      unfold head_le in *. rewrite Forall_forall in *.
      intros b Hb. apply In_insert_sorted in Hb as [->|Hb]; [lia|auto].
Qed.

Lemma sort_ranges_ascending l : ascending (sort_ranges l).
Proof.
  induction l; simpl; [constructor | now apply insert_sorted_ascending].
Qed.

(** *** The merge loop *)

Lemma mergeLoop_sweep rest : forall cur acc,
  mergeLoop cur rest acc = acc ++ sweep cur rest.
Proof.
  induction rest as [|n rest IH]; intros cur acc; simpl; [reflexivity|].
  destruct (end_ cur + 1 >=? start n).
  - apply IH.
  - rewrite IH, <- app_assoc. reflexivity.
Qed.

Lemma sweep_head rest : forall cur,
  exists e tl, sweep cur rest = mkRange (start cur) e :: tl /\ end_ cur <= e.
Proof.
  induction rest as [|n rest IH]; intros cur; simpl.
  - exists (end_ cur), []. destruct cur; simpl. split; [reflexivity|lia].
  - destruct (end_ cur + 1 >=? start n).
    + destruct (IH (mkRange (start cur) (Z.max (end_ cur) (end_ n))))
        as (e & tl & -> & He). simpl in *. exists e, tl. split; [reflexivity|lia].
    + exists (end_ cur), (sweep n rest). destruct cur; simpl. split; [reflexivity|lia].
Qed.

Lemma sweep_well_formed rest : forall cur,
  start cur <= end_ cur ->
  Forall (fun r => start r <= end_ r) rest ->
  ascending (cur :: rest) ->
  well_formed (sweep cur rest).
Proof.
  induction rest as [|n rest IH]; intros cur Hcur Hvalid Hasc; simpl.
  - now constructor.
  - inversion Hvalid as [|? ? Hn Hrest]; subst.
    inversion Hasc as [|? ? Hhd Htl]; subst.
    inversion Hhd as [|? ? Hcn Hhd']; subst.
    inversion Htl as [|? ? Hnhd Hrasc]; subst.
    destruct (Z.geb_spec (end_ cur + 1) (start n)) as [Hge|Hlt].
    + apply IH; simpl; [lia | exact Hrest |].
      constructor; [exact Hhd' | exact Hrasc].
    + destruct (sweep_head rest n) as (e & tl & Heq & He).
      specialize (IH n Hn Hrest Htl). rewrite Heq in *.
      constructor; simpl; [exact Hcur | lia | exact IH].
Qed.

Lemma sweep_covered rest : forall cur z,
  start cur <= end_ cur ->
  Forall (fun r => start r <= end_ r) rest ->
  ascending (cur :: rest) ->
  (covered (sweep cur rest) z <-> covered (cur :: rest) z).
Proof.
  induction rest as [|n rest IH]; intros cur z Hcur Hvalid Hasc; simpl.
  - tauto.
  - inversion Hvalid as [|? ? Hn Hrest]; subst.
    inversion Hasc as [|? ? Hhd Htl]; subst.
    inversion Hhd as [|? ? Hcn Hhd']; subst.
    inversion Htl as [|? ? Hnhd Hrasc]; subst.
    destruct (Z.geb_spec (end_ cur + 1) (start n)) as [Hge|Hlt].
    + rewrite IH; simpl; [| lia | exact Hrest | constructor; assumption].
      rewrite !covered_cons. unfold in_range; simpl. intuition lia.
    + rewrite covered_cons, IH by assumption. rewrite !covered_cons. tauto.
Qed.

Lemma well_formed_valid l : well_formed l -> Forall (fun r => start r <= end_ r) l.
Proof. induction 1; constructor; auto. Qed.

Lemma well_formed_tail r l : well_formed (r :: l) -> well_formed l.
Proof. inversion 1; subst; [constructor | assumption]. Qed.

(** Everything a well-formed tail covers lies beyond the head's end, with a
    hole in between. *)
Lemma well_formed_tail_above r l z :
  well_formed (r :: l) -> covered l z -> end_ r + 1 < z.
Proof.
  revert r; induction l as [|r' l IH]; intros r Hwf Hc.
  - now apply covered_nil in Hc.
  - inversion Hwf as [| |? ? ? Hr Hgap Hwf']; subst.
    apply covered_cons in Hc as [Hz|Hc].
    + unfold in_range in Hz. lia.
    + specialize (IH r' Hwf' Hc).
      apply well_formed_valid in Hwf'. inversion Hwf'; subst. lia.
Qed.

Lemma well_formed_head_valid r l : well_formed (r :: l) -> start r <= end_ r.
Proof. inversion 1; assumption. Qed.

(** A well-formed list is determined by the set it covers. *)
Lemma well_formed_unique l1 : forall l2,
  well_formed l1 -> well_formed l2 ->
  (forall z, covered l1 z <-> covered l2 z) -> l1 = l2.
Proof.
  induction l1 as [|r1 t1 IH]; intros [|r2 t2] H1 H2 Heq.
  - reflexivity.
  - exfalso. apply (covered_nil (start r2)). apply Heq, covered_cons. left.
    pose proof (well_formed_head_valid _ _ H2). unfold in_range; lia.
  - exfalso. apply (covered_nil (start r1)). apply Heq, covered_cons. left.
    pose proof (well_formed_head_valid _ _ H1). unfold in_range; lia.
  - pose proof (well_formed_head_valid _ _ H1) as V1.
    pose proof (well_formed_head_valid _ _ H2) as V2.
    pose proof (fun z => well_formed_tail_above r1 t1 z H1) as A1.
    pose proof (fun z => well_formed_tail_above r2 t2 z H2) as A2.
    assert (C1 : forall z, in_range r1 z -> in_range r2 z \/ covered t2 z)
      by (intros z Hz; apply covered_cons, Heq, covered_cons; now left).
    assert (C2 : forall z, in_range r2 z -> in_range r1 z \/ covered t1 z)
      by (intros z Hz; apply covered_cons, Heq, covered_cons; now left).
    assert (Hs : start r1 = start r2).
    { destruct (C1 (start r1)) as [Ha|Ha]; [unfold in_range; lia | |];
      destruct (C2 (start r2)) as [Hb|Hb]; try (unfold in_range; lia);
        unfold in_range in *;
        try (specialize (A1 _ Hb)); try (specialize (A2 _ Ha)); lia. }
    assert (He : end_ r1 = end_ r2).
    { destruct (Z.lt_trichotomy (end_ r1) (end_ r2)) as [Hlt|[Heq'|Hgt]]; [|exact Heq'|].
      - destruct (C2 (end_ r1 + 1)) as [Hb|Hb]; unfold in_range in *; try lia.
        specialize (A1 _ Hb). lia.
      - destruct (C1 (end_ r2 + 1)) as [Hb|Hb]; unfold in_range in *; try lia.
        specialize (A2 _ Hb). lia. }
    assert (r1 = r2) by (destruct r1, r2; simpl in *; congruence). subst r2.
    f_equal. apply IH; [eapply well_formed_tail; eauto .. |].
    intros z; split; intros Hc.
    + assert (Hc' : covered (r1 :: t2) z) by (apply Heq, covered_cons; now right).
      apply covered_cons in Hc' as [Hz|Hc']; [|exact Hc'].
      specialize (A1 _ Hc). unfold in_range in Hz. lia.
    + assert (Hc' : covered (r1 :: t1) z) by (apply Heq, covered_cons; now right).
      apply covered_cons in Hc' as [Hz|Hc']; [|exact Hc'].
      specialize (A2 _ Hc). unfold in_range in Hz. lia.
Qed.

(** *** [updateProcessedRanges] *)

Lemma updateProcessedRanges_sweep l s e :
  exists cur rest,
    sort_ranges (l ++ [mkRange s e]) = cur :: rest /\
    updateProcessedRanges l s e = sweep cur rest.
Proof.
  unfold updateProcessedRanges.
  destruct (sort_ranges (l ++ [mkRange s e])) as [|cur rest] eqn:Hs.
  - exfalso. assert (Hin : In (mkRange s e) (sort_ranges (l ++ [mkRange s e])))
      by (apply In_sort_ranges, in_or_app; right; now left).
    rewrite Hs in Hin. destruct Hin.
  - exists cur, rest. split; [reflexivity|]. apply (mergeLoop_sweep rest cur []).
Qed.

Lemma sorted_all_valid l s e :
  Forall (fun r => start r <= end_ r) l -> s <= e ->
  Forall (fun r => start r <= end_ r) (sort_ranges (l ++ [mkRange s e])).
Proof.
  intros Hl Hse. rewrite Forall_forall in *. intros r Hr.
  apply In_sort_ranges, in_app_or in Hr as [Hr|[<-|[]]]; simpl; auto.
Qed.

Lemma updateProcessedRanges_well_formed l s e :
  Forall (fun r => start r <= end_ r) l -> s <= e ->
  well_formed (updateProcessedRanges l s e).
Proof.
  intros Hl Hse.
  destruct (updateProcessedRanges_sweep l s e) as (cur & rest & Hs & ->).
  pose proof (sorted_all_valid l s e Hl Hse) as Hv. rewrite Hs in Hv.
  inversion Hv; subst.
  apply sweep_well_formed; auto. rewrite <- Hs. apply sort_ranges_ascending.
Qed.

Lemma updateProcessedRanges_covered l s e z :
  Forall (fun r => start r <= end_ r) l -> s <= e ->
  (covered (updateProcessedRanges l s e) z <-> covered l z \/ s <= z <= e).
Proof.
  intros Hl Hse.
  destruct (updateProcessedRanges_sweep l s e) as (cur & rest & Hs & ->).
  pose proof (sorted_all_valid l s e Hl Hse) as Hv. rewrite Hs in Hv.
  inversion Hv; subst.
  rewrite sweep_covered; auto; [|rewrite <- Hs; apply sort_ranges_ascending].
  rewrite <- Hs.
  rewrite (covered_perm _ (l ++ [mkRange s e])) by (intros; apply In_sort_ranges).
  rewrite covered_app, covered_cons. unfold in_range; simpl.
  pose proof (covered_nil z). tauto.
Qed.

Lemma well_formed_pairwise l : well_formed l -> pairwise_separated l.
Proof.
  intros Hwf i. revert l Hwf.
  induction i as [|i IH]; intros l Hwf j a b Hij Ha Hb.
  - destruct l as [|r l]; simpl in Ha; [discriminate|]. injection Ha as ->.
    destruct j as [|j]; [lia|]. simpl in Hb.
    assert (Hc : covered l (start b)).
    { exists b. split; [eapply nth_error_In; eauto|].
      apply well_formed_tail, well_formed_valid in Hwf.
      rewrite Forall_forall in Hwf. apply nth_error_In in Hb.
      specialize (Hwf _ Hb). unfold in_range; lia. }
    pose proof (well_formed_tail_above _ _ _ Hwf Hc).
    pose proof (well_formed_head_valid _ _ Hwf). lia.
  - destruct l as [|r l]; simpl in Ha; [discriminate|].
    destruct j as [|j]; [lia|]. simpl in Hb.
    apply (IH l (well_formed_tail _ _ Hwf) j a b); auto. lia.
Qed.

Lemma insert_all_valid ins : forall l,
  Forall (fun r => start r <= end_ r) l ->
  Forall (fun r => start r <= end_ r) ins ->
  Forall (fun r => start r <= end_ r) (insert_all l ins).
Proof.
  induction ins as [|r ins IH]; intros l Hl Hins; simpl; [exact Hl|].
  inversion Hins; subst. apply IH; auto.
  apply well_formed_valid, updateProcessedRanges_well_formed; auto.
Qed.

Lemma insert_all_well_formed ins : forall l,
  well_formed l ->
  Forall (fun r => start r <= end_ r) ins ->
  well_formed (insert_all l ins).
Proof.
  induction ins as [|r ins IH]; intros l Hl Hins; simpl; [exact Hl|].
  inversion Hins; subst. apply IH; auto.
  apply updateProcessedRanges_well_formed; auto using well_formed_valid.
Qed.

Lemma insert_all_covered ins : forall l z,
  Forall (fun r => start r <= end_ r) l ->
  Forall (fun r => start r <= end_ r) ins ->
  (covered (insert_all l ins) z <-> covered l z \/ covered ins z).
Proof.
  induction ins as [|r ins IH]; intros l z Hl Hins; simpl.
  - pose proof (covered_nil z). tauto.
  - inversion Hins; subst. rewrite IH; auto.
    + rewrite updateProcessedRanges_covered, covered_cons by auto.
      unfold in_range. tauto.
    + apply well_formed_valid, updateProcessedRanges_well_formed; auto.
Qed.

(** C9: inserting an interval with [start <= end] into a well-formed
    coverage list gives a well-formed list again (ascending by start, any two
    intervals more than distance 1 apart), and the result covers exactly
    what was covered before together with the inserted interval; nothing
    that was covered is lost. *)
Theorem C9_updateProcessedRanges_keeps_invariant l s e :
  well_formed l -> s <= e ->
  well_formed (updateProcessedRanges l s e) /\
  pairwise_separated (updateProcessedRanges l s e) /\
  (forall z, covered (updateProcessedRanges l s e) z <-> covered l z \/ s <= z <= e) /\
  (forall z, covered l z -> covered (updateProcessedRanges l s e) z).
Proof.
  intros Hwf Hse. pose proof (well_formed_valid _ Hwf) as Hv.
  pose proof (updateProcessedRanges_well_formed l s e Hv Hse) as Hwf'.
  split; [exact Hwf'|].
  split; [now apply well_formed_pairwise|].
  split; intros z; [now apply updateProcessedRanges_covered|].
  intros Hc. apply updateProcessedRanges_covered; auto.
Qed.

Lemma C9_updateProcessedRanges_keeps_invariant_witness :
  well_formed [mkRange 1 3; mkRange 7 9] /\ 4 <= 6 /\
  (well_formed (updateProcessedRanges [mkRange 1 3; mkRange 7 9] 4 6) /\
   pairwise_separated (updateProcessedRanges [mkRange 1 3; mkRange 7 9] 4 6) /\
   (forall z, covered (updateProcessedRanges [mkRange 1 3; mkRange 7 9] 4 6) z <->
              covered [mkRange 1 3; mkRange 7 9] z \/ 4 <= z <= 6) /\
   (forall z, covered [mkRange 1 3; mkRange 7 9] z ->
              covered (updateProcessedRanges [mkRange 1 3; mkRange 7 9] 4 6) z)).
Proof.
  assert (Hwf : well_formed [mkRange 1 3; mkRange 7 9])
    by (apply wf_cons; simpl; [lia | lia | apply wf_one; simpl; lia]).
  split; [exact Hwf|]. split; [lia|].
  apply (C9_updateProcessedRanges_keeps_invariant _ 4 6 Hwf). lia.
Defined.

(** C8: on a well-formed coverage list, inserting the same interval twice
    gives the list that inserting it once gives; inserting two intervals in
    either order gives the same list; and any sequence of inserts of intervals
    inside [0,K] that, together with what is covered already, covers all of
    [0,K] ends in the single interval [0,K], whatever the order and the
    overlaps.  Intervals have [start <= end]. *)
Theorem C8_insert_commutative_idempotent_convergent l :
  well_formed l ->
  (forall s e, s <= e ->
     updateProcessedRanges (updateProcessedRanges l s e) s e
     = updateProcessedRanges l s e) /\
  (forall s1 e1 s2 e2, s1 <= e1 -> s2 <= e2 ->
     updateProcessedRanges (updateProcessedRanges l s1 e1) s2 e2
     = updateProcessedRanges (updateProcessedRanges l s2 e2) s1 e1) /\
  (forall K ins, 0 <= K ->
     (forall z, covered l z -> 0 <= z <= K) ->
     Forall (fun r => 0 <= start r /\ start r <= end_ r /\ end_ r <= K) ins ->
     (forall z, 0 <= z <= K -> covered l z \/ covered ins z) ->
     insert_all l ins = [mkRange 0 K]).
Proof.
  intros Hwf. pose proof (well_formed_valid _ Hwf) as Hv.
  split; [|split].
  - intros s e Hse.
    pose proof (updateProcessedRanges_well_formed l s e Hv Hse) as Hwf1.
    pose proof (well_formed_valid _ Hwf1) as Hv1.
    apply well_formed_unique; auto using updateProcessedRanges_well_formed.
    intros z. rewrite !updateProcessedRanges_covered by auto. tauto.
  - intros s1 e1 s2 e2 H1 H2.
    pose proof (updateProcessedRanges_well_formed l s1 e1 Hv H1) as Hwf1.
    pose proof (updateProcessedRanges_well_formed l s2 e2 Hv H2) as Hwf2.
    pose proof (well_formed_valid _ Hwf1) as Hv1.
    pose proof (well_formed_valid _ Hwf2) as Hv2.
    apply well_formed_unique; auto using updateProcessedRanges_well_formed.
    intros z. rewrite !updateProcessedRanges_covered by auto. tauto.
  - intros K ins HK Hl Hins Hcov.
    assert (Hvi : Forall (fun r => start r <= end_ r) ins)
      by (eapply Forall_impl; [|exact Hins]; simpl; tauto).
    apply well_formed_unique.
    + now apply insert_all_well_formed.
    + apply wf_one; simpl; lia.
    + intros z. rewrite insert_all_covered by auto.
      rewrite covered_cons. unfold in_range; simpl.
      pose proof (covered_nil z) as Hnil. split.
      * intros [Hc|[r [Hin Hz]]]; left; [auto|].
        rewrite Forall_forall in Hins. specialize (Hins _ Hin).
        unfold in_range in Hz. lia.
      * intros [Hz|Hc]; [auto | tauto].
Qed.

Lemma C8_insert_commutative_idempotent_convergent_witness :
  well_formed [mkRange 2 3] /\
  updateProcessedRanges (updateProcessedRanges [mkRange 2 3] 3 5) 3 5
  = updateProcessedRanges [mkRange 2 3] 3 5 /\
  updateProcessedRanges (updateProcessedRanges [mkRange 2 3] 0 0) 5 6
  = updateProcessedRanges (updateProcessedRanges [mkRange 2 3] 5 6) 0 0 /\
  insert_all [mkRange 2 3] [mkRange 4 5; mkRange 0 1; mkRange 1 4] = [mkRange 0 5].
Proof.
  assert (Hwf : well_formed [mkRange 2 3]) by (apply wf_one; simpl; lia).
  destruct (C8_insert_commutative_idempotent_convergent [mkRange 2 3] Hwf)
    as (Hidem & Hcomm & Hconv).
  split; [exact Hwf|]. split; [apply Hidem; lia|]. split; [apply Hcomm; lia|].
  apply Hconv.
  - lia.
  - intros z [r [[<-|[]] Hz]]. unfold in_range in Hz; simpl in Hz. lia.
  - repeat constructor; simpl; lia.
  - intros z Hz. right.
    exists (if z <=? 1 then mkRange 0 1 else if z <=? 4 then mkRange 1 4 else mkRange 4 5).
    destruct (Z.leb_spec z 1); [|destruct (Z.leb_spec z 4)];
      unfold in_range; simpl; split; auto; lia.
Defined.

Example updateProcessedRanges_merge_overlapping :
  updateProcessedRanges [mkRange 1 3; mkRange 5 7] 2 6 = [mkRange 1 7].
Proof. reflexivity. Qed.

Example updateProcessedRanges_merge_adjacent :
  updateProcessedRanges [mkRange 1 3; mkRange 7 9] 4 6 = [mkRange 1 9].
Proof. reflexivity. Qed.

Example updateProcessedRanges_keep_apart :
  updateProcessedRanges [mkRange 1 3; mkRange 7 9] 5 5
  = [mkRange 1 3; mkRange 5 5; mkRange 7 9].
Proof. reflexivity. Qed.

Example updateProcessedRanges_encompassing :
  updateProcessedRanges [mkRange 2 4; mkRange 6 8] 1 10 = [mkRange 1 10].
Proof. reflexivity. Qed.

Example insert_all_converges :
  insert_all [] [mkRange 4 6; mkRange 0 1; mkRange 5 9; mkRange 2 4; mkRange 0 1]
  = [mkRange 0 9].
Proof. reflexivity. Qed.

(** ** [findRangeToProcess] and [isFullyCovered] *)

Lemma nth_error_last {T} (l : list T) (x : T) :
  nth_error (l ++ [x]) (List.length (l ++ [x]) - 1) = Some x.
Proof.
  rewrite length_app; simpl.
  replace (List.length l + 1 - 1)%nat with (List.length l) by lia.
  rewrite nth_error_app2 by lia. now rewrite Nat.sub_diag.
Qed.

Lemma nth_error_second_to_last {T} (l : list T) (x y : T) :
  nth_error (l ++ [x; y]) (List.length (l ++ [x; y]) - 2) = Some x.
Proof.
  rewrite length_app; simpl.
  replace (List.length l + 2 - 2)%nat with (List.length l) by lia.
  rewrite nth_error_app2 by lia. now rewrite Nat.sub_diag.
Qed.

Lemma findRangeToProcess_last before r :
  findRangeToProcess (before ++ [r]) =
    if start r =? 1 then Resolved None
    else if start r =? 0 then Rejected "Unexpected value"
    else match rev before with
         | [] => Resolved (Some (mkRange 0 (start r)))
         | p :: _ => Resolved (Some (mkRange (end_ p) (start r)))
         end.
Proof.
  unfold findRangeToProcess. rewrite nth_error_last.
  assert (Hlen : List.length (before ++ [r]) = S (List.length before))
    by (rewrite length_app; simpl; lia).
  rewrite Hlen at 1. simpl Nat.eqb. cbv iota.
  destruct (start r =? 1); [reflexivity|].
  destruct (start r =? 0); [reflexivity|].
  destruct before as [|b0 before0] using rev_ind.
  - reflexivity.
  - rewrite rev_app_distr. simpl rev. simpl app.
    rewrite <- app_assoc. simpl app.
    rewrite nth_error_second_to_last.
    rewrite length_app. simpl.
    destruct (Nat.ltb_spec 1 (List.length before0 + 2)); [reflexivity | lia].
Qed.

Lemma well_formed_app_separated l1 : forall l2 r1 r2,
  well_formed (l1 ++ l2) -> In r1 l1 -> In r2 l2 -> end_ r1 + 1 < start r2.
Proof.
  induction l1 as [|r l1 IH]; intros l2 r1 r2 Hwf H1 H2; [destruct H1|].
  simpl in Hwf. destruct H1 as [->|H1].
  - apply (well_formed_tail_above _ _ _ Hwf).
    exists r2. split; [apply in_or_app; now right|].
    apply well_formed_valid in Hwf. rewrite Forall_forall in Hwf.
    assert (Hv : start r2 <= end_ r2)
      by (apply Hwf; right; apply in_or_app; now right).
    unfold in_range; lia.
  - eapply IH; eauto using well_formed_tail.
Qed.

Lemma well_formed_gap_uncovered before a b z :
  well_formed (before ++ [a; b]) -> end_ a < z < start b ->
  ~ covered (before ++ [a; b]) z.
Proof.
  intros Hwf Hz Hc. apply covered_app in Hc as [[r [Hin Hr]]|Hc].
  - pose proof (well_formed_app_separated before [a; b] r a Hwf Hin (or_introl eq_refl)).
    pose proof (well_formed_valid _ Hwf) as Hv. rewrite Forall_forall in Hv.
    assert (start a <= end_ a) by (apply Hv, in_or_app; right; now left).
    unfold in_range in Hr. lia.
  - rewrite !covered_cons in Hc. unfold in_range in Hc.
    pose proof (covered_nil z). intuition lia.
Qed.

(** C2 (as amended): [findRangeToProcess] yields the gap [(0, MAX_SAFE_INTEGER)]
    on the empty list; on a non-empty list it looks at the last interval only:
    no gap when that interval starts at 1, the error 'Unexpected value' when
    it starts at 0, and otherwise the gap between the end of the
    second-to-last interval (0 if there is none) and the start of the last
    one.  On a well-formed list this is the highest gap, the one just below
    the newest interval: it ends where the last interval starts and nothing
    strictly inside it is covered. *)
Theorem C2_findRangeToProcess_gap_below_last l :
  well_formed l ->
  (l = [] -> findRangeToProcess l = Resolved (Some (mkRange 0 MAX_SAFE_INTEGER))) /\
  (forall before r, l = before ++ [r] ->
     findRangeToProcess l =
       if start r =? 1 then Resolved None
       else if start r =? 0 then Rejected "Unexpected value"
       else match rev before with
            | [] => Resolved (Some (mkRange 0 (start r)))
            | p :: _ => Resolved (Some (mkRange (end_ p) (start r)))
            end) /\
  (forall g, l <> [] -> findRangeToProcess l = Resolved (Some g) -> highest_gap l g).
Proof.
  intros Hwf. split; [intros ->; reflexivity|].
  split; [intros before r ->; apply findRangeToProcess_last|].
  intros g Hne Hg.
  destruct l as [|x l0] using rev_ind; [congruence|]. clear IHl0 Hne.
  rewrite findRangeToProcess_last in Hg.
  destruct (start x =? 1); [discriminate|].
  destruct (start x =? 0); [discriminate|].
  destruct l0 as [|p l1] using rev_ind.
  - simpl in Hg. injection Hg as <-. split.
    + exists [], x. split; reflexivity.
    + simpl. intros z Hz Hc. apply covered_cons in Hc as [Hc|Hc].
      * unfold in_range in Hc. lia.
      * now apply covered_nil in Hc.
  - clear IHl1. rewrite rev_app_distr in Hg. simpl in Hg. injection Hg as <-. split.
    + exists (l1 ++ [p]), x. split; reflexivity.
    + simpl. intros z Hz. rewrite <- app_assoc. simpl.
      apply well_formed_gap_uncovered; [|exact Hz].
      rewrite <- app_assoc in Hwf. exact Hwf.
Qed.

Lemma C2_findRangeToProcess_gap_below_last_witness :
  well_formed [mkRange 0 5; mkRange 10 15; mkRange 20 25] /\
  findRangeToProcess [mkRange 0 5; mkRange 10 15; mkRange 20 25]
  = Resolved (Some (mkRange 15 20)) /\
  highest_gap [mkRange 0 5; mkRange 10 15; mkRange 20 25] (mkRange 15 20).
Proof.
  assert (Hwf : well_formed [mkRange 0 5; mkRange 10 15; mkRange 20 25]).
  { apply wf_cons; simpl; [lia | lia |].
    apply wf_cons; simpl; [lia | lia |]. apply wf_one; simpl; lia. }
  destruct (C2_findRangeToProcess_gap_below_last _ Hwf) as (_ & Hlast & Hhigh).
  split; [exact Hwf|].
  split; [exact (Hlast [mkRange 0 5; mkRange 10 15] (mkRange 20 25) eq_refl)|].
  apply Hhigh; [discriminate | reflexivity].
Defined.

(** C2, as the specification states it, fails: a single interval that starts
    at 0 makes [findRangeToProcess] throw where [findGap] has no gap, and with
    three intervals the gap returned is the one below the newest interval
    although id 4 is uncovered below it. *)
Lemma C2_findGap_counterexample :
  (well_formed [mkRange 0 10] /\
   findGap [mkRange 0 10] = None /\
   findRangeToProcess [mkRange 0 10] = Rejected "Unexpected value" /\
   findRangeToProcess [mkRange 0 10] <> Resolved (findGap [mkRange 0 10])) /\
  (well_formed [mkRange 1 3; mkRange 5 7; mkRange 9 11] /\
   findRangeToProcess [mkRange 1 3; mkRange 5 7; mkRange 9 11]
   = Resolved (Some (mkRange 7 9)) /\
   ~ lowest_gap [mkRange 1 3; mkRange 5 7; mkRange 9 11] (mkRange 7 9)).
Proof.
  split.
  - split; [apply wf_one; simpl; lia|].
    split; [reflexivity|]. split; [reflexivity | discriminate].
  - split.
    { apply wf_cons; simpl; [lia | lia |].
      apply wf_cons; simpl; [lia | lia |]. apply wf_one; simpl; lia. }
    split; [reflexivity|].
    intros Hlow. specialize (Hlow 4). simpl in Hlow.
    assert (Hc : covered [mkRange 1 3; mkRange 5 7; mkRange 9 11] 4) by (apply Hlow; lia).
    apply coveredb_spec in Hc. discriminate Hc.
Qed.

Example findRangeToProcess_first_unprocessed :
  findRangeToProcess [mkRange 1 3; mkRange 5 7] = Resolved (Some (mkRange 3 5)).
Proof. reflexivity. Qed.

Example findRangeToProcess_only_range_from_1 :
  findRangeToProcess [mkRange 1 10] = Resolved None.
Proof. reflexivity. Qed.

Example findRangeToProcess_one_range :
  findRangeToProcess [mkRange 5 10] = Resolved (Some (mkRange 0 5)).
Proof. reflexivity. Qed.

Example isFullyCovered_one_range_from_0 : isFullyCovered [mkRange 0 10] = true.
Proof. reflexivity. Qed.

Example isFullyCovered_one_range_from_1 : isFullyCovered [mkRange 1 10] = false.
Proof. reflexivity. Qed.

Example isFullyCovered_two_ranges : isFullyCovered [mkRange 0 5; mkRange 6 10] = false.
Proof. reflexivity. Qed.

(** ** The live path *)

Section LivePath.

Context {V A D : Type} `{C : Consumer V A D}.

Lemma handleNewEvent_eventsDisk ev fate (s : System V D) :
  eventsDisk (fst (fst (handleNewEvent ev fate s))) = eventsDisk s.
Proof.
  unfold handleNewEvent. destruct (agg_db (aggregator s)); simpl; [|reflexivity].
  destruct (processEvent (stores (aggDisk s)) ev); [reflexivity|].
  destruct fate; reflexivity.
Qed.

Lemma handleNewEvent_eventStore ev fate (s : System V D) :
  eventStore (fst (fst (handleNewEvent ev fate s))) = eventStore s.
Proof.
  unfold handleNewEvent. destruct (agg_db (aggregator s)); simpl; [|reflexivity].
  destruct (processEvent (stores (aggDisk s)) ev); [reflexivity|].
  destruct fate; reflexivity.
Qed.

(** C5: when [processEvent] throws for the pushed event, [handleNewEvent]
    calls it once, logs the error and aborts the transaction; the system is
    left exactly as it was (the coverage list in memory, the persisted one and
    the sub-stores are unchanged), no listener is told anything, and the
    handler ends without a second attempt. *)
Theorem C5_live_fold_failure_leaves_no_trace ev fate (s : System V D) err :
  agg_db (aggregator s) = true ->
  processEvent (stores (aggDisk s)) ev = FoldThrows err ->
  handleNewEvent ev fate s
  = (s, [ProcessEventCalled ev; ConsoleError "Error processing new event:";
         TxAbortCalled], Resolved tt) /\
  processedRanges (aggregator (fst (fst (handleNewEvent ev fate s))))
  = processedRanges (aggregator s) /\
  aggDisk (fst (fst (handleNewEvent ev fate s))) = aggDisk s /\
  List.length (filter (fun e => match e with ProcessEventCalled _ => true | _ => false end)
                      (snd (fst (handleNewEvent ev fate s)))) = 1%nat /\
  filter is_ListenerCalled (snd (fst (handleNewEvent ev fate s))) = [].
Proof.
  intros Hdb Hthrow.
  assert (Heq : handleNewEvent ev fate s
                = (s, [ProcessEventCalled ev; ConsoleError "Error processing new event:";
                       TxAbortCalled], Resolved tt)).
  { unfold handleNewEvent. rewrite Hdb, Hthrow. reflexivity. }
  rewrite Heq. simpl. repeat split; reflexivity.
Qed.

End LivePath.

Lemma C5_live_fold_failure_leaves_no_trace_witness :
  agg_db (aggregator journal_state) = true /\
  processEvent (stores (aggDisk journal_state)) (mkEvent 7 "g7" 3)
  = FoldThrows "not ready" /\
  handleNewEvent (C := Journal) (mkEvent 7 "g7" 3) Commits journal_state
  = (journal_state,
     [ProcessEventCalled (mkEvent 7 "g7" 3);
      ConsoleError "Error processing new event:"; TxAbortCalled], Resolved tt).
Proof.
  split; [reflexivity|]. split; [reflexivity|].
  apply (C5_live_fold_failure_leaves_no_trace (C := Journal)
           (mkEvent 7 "g7" 3) Commits journal_state "not ready"); reflexivity.
Defined.

(** ** [EventStore.add] *)

Section Append.

Context {V A D : Type} `{C : Consumer V A D}.



(** The rest of [handleNewEvent] is what the whole of it does after the
    call of [processEvent]. *)
Lemma handleNewEvent_split ev fate (s : System V D) :
  agg_db (aggregator s) = true ->
  handleNewEvent ev fate s
  = (fst (fst (handleNewEvent_resume ev fate s)),
     ProcessEventCalled ev :: snd (fst (handleNewEvent_resume ev fate s)),
     snd (handleNewEvent_resume ev fate s)).
Proof.
  intros Hdb. unfold handleNewEvent, handleNewEvent_resume. rewrite Hdb. cbn [negb].
  destruct (processEvent (stores (aggDisk s)) ev) as [err|d' c]; [reflexivity|].
  destruct fate; reflexivity.
Qed.

Lemma resume_state ev fate (s : System V D) :
  agg_db (aggregator s) = true ->
  fst (fst (handleNewEvent_resume ev fate s)) = fst (fst (handleNewEvent ev fate s)).
Proof. intros Hdb. now rewrite (handleNewEvent_split ev fate s Hdb). Qed.

Lemma resume_agg_db ev fate (s : System V D) :
  agg_db (aggregator (fst (fst (handleNewEvent_resume ev fate s))))
  = agg_db (aggregator s).
Proof.
  unfold handleNewEvent_resume.
  destruct (processEvent (stores (aggDisk s)) ev) as [err|d' c]; [reflexivity|].
  destruct fate; reflexivity.
Qed.

(** What the rest of a live fold shows: no call of a store listener, no
    event of the store's transaction, no further call of [processEvent]. *)
Lemma resume_effects ev fate (s : System V D) :
  Forall (fun e => quiet e /\ is_ProcessEventCalled e = false)
         (snd (fst (handleNewEvent_resume ev fate s))).
Proof.
  assert (Hn : forall ag (c : A),
             Forall (fun e : Effect V A => quiet e /\ is_ProcessEventCalled e = false)
                    (EventAggregator_notifyListeners ag [c])).
  { intros ag c. unfold EventAggregator_notifyListeners.
    apply Forall_flat_map, Forall_forall. intros c' _.
    apply Forall_flat_map, Forall_forall. intros l _.
    destruct (listenerThrows l); repeat constructor. }
  unfold handleNewEvent_resume.
  destruct (processEvent (stores (aggDisk s)) ev) as [err|d' [c|]].
  - repeat constructor.
  - destruct fate; simpl; repeat constructor; apply Hn.
  - destruct fate; simpl; repeat constructor.
Qed.

Lemma callStoreListener_acc msg (s : System V D) tr w l :
  callStoreListener msg s (tr, w) l
  = (tr ++ fst (callStoreListener msg s ([], []) l),
     w ++ snd (callStoreListener msg s ([], []) l)).
Proof.
  destruct l as [|id]; unfold callStoreListener.
  - destruct (negb (agg_db (aggregator s))); cbn [fst snd app]; now rewrite ?app_nil_r.
  - cbn [fst snd app]. now rewrite app_nil_r.
Qed.

(** A broadcast, listener by listener. *)
Lemma broadcast_flat msg (s : System V D) ls : forall tr w,
  fold_left (callStoreListener msg s) ls (tr, w)
  = (tr ++ flat_map (fun l => fst (callStoreListener msg s ([], []) l)) ls,
     w ++ flat_map (fun l => snd (callStoreListener msg s ([], []) l)) ls).
Proof.
  induction ls as [|l ls IH]; intros tr w; cbn [fold_left flat_map];
    [now rewrite !app_nil_r|].
  rewrite callStoreListener_acc, IH, <- !app_assoc. reflexivity.
Qed.

(** What a broadcast does: each listener is called with [msg], and with
    nothing else; no event of the transaction falls into it; the live folds
    left waiting are folds of [msg], one for each call of [processEvent],
    and there is none if the aggregator has no database handle. *)
Lemma broadcast_shape msg (s : System V D) ls :
  let eff := flat_map (fun l => fst (callStoreListener msg s ([], []) l)) ls in
  let waiting := flat_map (fun l => snd (callStoreListener msg s ([], []) l)) ls in
  (forall l, In l ls -> In (StoreListenerCalled l msg) eff) /\
  (forall l e, In (StoreListenerCalled l e) eff -> e = msg /\ In l ls) /\
  (forall sig, ~ In (Signal sig) eff) /\
  filter is_StoreListenerCalled eff = map (fun l => StoreListenerCalled l msg) ls /\
  filter is_ProcessEventCalled eff = map ProcessEventCalled waiting /\
  (forall ev, In ev waiting -> ev = msg) /\
  (agg_db (aggregator s) = false -> waiting = []) /\
  (~ In AggregatorHandler ls -> waiting = []) /\
  (NoDup ls -> In AggregatorHandler ls -> agg_db (aggregator s) = true ->
   waiting = [msg]).
Proof.
  cbv zeta. induction ls as [|l ls IH].
  - simpl. repeat split; auto; try (intros; contradiction).
  - destruct IH as (Hall & Honly & Hsig & Hcalls & Hfolds & Hev & Hclosed & Hnone & Hone).
    assert (Hl : (forall e', In e' (fst (callStoreListener msg s ([], []) l)) ->
                     e' = StoreListenerCalled l msg \/ quiet e') /\
                 In (StoreListenerCalled l msg) (fst (callStoreListener msg s ([], []) l)) /\
                 filter is_StoreListenerCalled (fst (callStoreListener msg s ([], []) l))
                 = [StoreListenerCalled l msg] /\
                 filter is_ProcessEventCalled (fst (callStoreListener msg s ([], []) l))
                 = map ProcessEventCalled (snd (callStoreListener msg s ([], []) l)) /\
                 (forall ev, In ev (snd (callStoreListener msg s ([], []) l)) -> ev = msg) /\
                 (agg_db (aggregator s) = false ->
                  snd (callStoreListener msg s ([], []) l) = []) /\
                 (l <> AggregatorHandler ->
                  snd (callStoreListener msg s ([], []) l) = []) /\
                 (l = AggregatorHandler -> agg_db (aggregator s) = true ->
                  snd (callStoreListener msg s ([], []) l) = [msg])).
    { destruct l as [|id]; simpl.
      - destruct (agg_db (aggregator s)); simpl; repeat split; auto;
          try (intros e' [<-|[<-|[]]]; simpl; auto);
          try (intros e' [<-|[]]; simpl; auto);
          try (intros ev [<-|[]]; reflexivity);
          try (intros; contradiction); try discriminate; try congruence.
      - destruct (listenerThrows id); simpl; repeat split; auto;
          try (intros e' [<-|[<-|[]]]; simpl; auto);
          try (intros e' [<-|[]]; simpl; auto);
          try (intros; contradiction); try discriminate. }
    destruct Hl as (Hq & Hin & Hc1 & Hf1 & Hev1 & Hcl1 & Hno1 & Hon1).
    cbn [flat_map].
    split; [|split; [|split; [|split; [|split; [|split; [|split; [|split]]]]]]].
    + intros l' [<-|Hl']; apply in_or_app; [left; exact Hin | right; auto].
    + intros l' e H. apply in_app_or in H as [H|H].
      * destruct (Hq _ H) as [Heq|Hqq]; [|destruct Hqq].
        injection Heq as <- <-. split; [reflexivity | now left].
      * destruct (Honly _ _ H). split; [assumption | now right].
    + intros sig H. apply in_app_or in H as [H|H]; [|eapply Hsig; eauto].
      destruct (Hq _ H) as [Heq|Hqq]; [discriminate | destruct Hqq].
    + now rewrite filter_app, Hc1, Hcalls.
    + now rewrite filter_app, Hf1, Hfolds, map_app.
    + intros ev H. apply in_app_or in H as [H|H]; auto.
    + intros Hdb. now rewrite Hcl1, Hclosed.
    + intros Hnot.
      assert (H1 : l <> AggregatorHandler) by (intros ->; apply Hnot; now left).
      assert (H2 : ~ In AggregatorHandler ls) by (intros H; apply Hnot; now right).
      now rewrite (Hno1 H1), (Hnone H2).
    + intros Hnd Hin' Hdb. inversion Hnd as [|? ? Hnotin Hnd']; subst.
      destruct Hin' as [->|Hin'].
      * now rewrite (Hon1 eq_refl Hdb), (Hnone Hnotin).
      * assert (H1 : l <> AggregatorHandler) by (intros ->; contradiction).
        now rewrite (Hno1 H1), (Hone Hnd' Hin' Hdb).
Qed.

(** The live folds that were waiting, run to their end: what they show comes
    after what was shown before, and they leave the store, its database and
    the aggregator's handle alone. *)
Lemma resume_fold fate evs : forall (s : System V D) tr,
  exists later,
    snd (fold_left (resumeLiveFold fate) evs (s, tr)) = tr ++ later /\
    Forall (fun e => quiet e /\ is_ProcessEventCalled e = false) later /\
    agg_db (aggregator (fst (fold_left (resumeLiveFold fate) evs (s, tr))))
    = agg_db (aggregator s).
Proof.
  induction evs as [|ev evs IH]; intros s tr; simpl.
  - exists []. rewrite app_nil_r. repeat split; auto.
  - pose proof (resume_effects ev fate s) as Hq.
    pose proof (resume_agg_db ev fate s) as Hdb.
    destruct (handleNewEvent_resume ev fate s) as [[s1 eff1] p1]. simpl in Hq, Hdb.
    destruct (IH s1 (tr ++ eff1)) as (later & Heq & Hlater & Hdb').
    exists (eff1 ++ later). rewrite Heq, <- app_assoc. split; [reflexivity|].
    split; [apply Forall_app; auto | congruence].
Qed.

(** The state the waiting live folds leave is the one the awaited calls of
    [handleNewEvent] would leave, one after the other. *)
Lemma resume_fold_state fate evs : forall (s : System V D) tr,
  agg_db (aggregator s) = true ->
  fst (fold_left (resumeLiveFold fate) evs (s, tr))
  = fold_left (fun s0 ev => fst (fst (handleNewEvent ev fate s0))) evs s.
Proof.
  induction evs as [|ev evs IH]; intros s tr Hdb; simpl; [reflexivity|].
  pose proof (resume_state ev fate s Hdb) as Hst.
  pose proof (resume_agg_db ev fate s) as Hdb'.
  destruct (handleNewEvent_resume ev fate s) as [[s1 eff1] p1]. simpl in Hst, Hdb'.
  rewrite IH by congruence. now rewrite Hst.
Qed.

Lemma resume_fold_disk fate evs : forall (s : System V D) tr,
  eventsDisk (fst (fold_left (resumeLiveFold fate) evs (s, tr))) = eventsDisk s.
Proof.
  induction evs as [|ev evs IH]; intros s tr; simpl; [reflexivity|].
  assert (Hd : eventsDisk (fst (fst (handleNewEvent_resume ev fate s))) = eventsDisk s).
  { unfold handleNewEvent_resume.
    destruct (processEvent (stores (aggDisk s)) ev) as [err|d' c]; [reflexivity|].
    destruct fate; reflexivity. }
  destruct (handleNewEvent_resume ev fate s) as [[s1 eff1] p1]. simpl in Hd.
  now rewrite IH.
Qed.

(** [add], case by case. *)
Lemma add_unfold gid v fate aggFate (s : System V D) :
  store_db (eventStore s) = true ->
  add gid v fate aggFate s
  = match idb_add (eventsDisk s) gid v, fate with
    | None, _ | _, StoreRequestFails =>
        (s, [Signal RequestError; Signal TransactionError; Signal TransactionAbort],
         Rejected "Add error")
    | Some (key, db'), _ =>
        (fst (fold_left (resumeLiveFold aggFate)
                (snd (broadcastAddEvent (mkEvent key gid v) s))
                (match fate with StoreCommits => with_eventsDisk s db' | _ => s end,
                 Signal (RequestSuccess key) ::
                 fst (broadcastAddEvent (mkEvent key gid v) s) ++
                 [Signal (match fate with
                          | StoreCommits => TransactionComplete
                          | _ => TransactionAbort
                          end)])),
         snd (fold_left (resumeLiveFold aggFate)
                (snd (broadcastAddEvent (mkEvent key gid v) s))
                (match fate with StoreCommits => with_eventsDisk s db' | _ => s end,
                 Signal (RequestSuccess key) ::
                 fst (broadcastAddEvent (mkEvent key gid v) s) ++
                 [Signal (match fate with
                          | StoreCommits => TransactionComplete
                          | _ => TransactionAbort
                          end)])),
         Resolved tt)
    end.
Proof.
  intros Hdb. unfold add. rewrite Hdb. cbn [negb]. unfold idb_add_signals.
  destruct (idb_add (eventsDisk s) gid v) as [[key db']|];
    destruct fate; simpl; try reflexivity;
    destruct (broadcastAddEvent (mkEvent key gid v) s) as [eff waiting]; simpl;
    match goal with
    | |- context [fold_left (resumeLiveFold aggFate) waiting ?x] =>
        destruct (fold_left (resumeLiveFold aggFate) waiting x) as [s' tr']
    end; reflexivity.
Qed.

Lemma broadcast_unfold msg (s : System V D) :
  broadcastAddEvent msg s
  = (flat_map (fun l => fst (callStoreListener msg s ([], []) l))
              (store_listeners (eventStore s)),
     flat_map (fun l => snd (callStoreListener msg s ([], []) l))
              (store_listeners (eventStore s))).
Proof.
  unfold broadcastAddEvent, EventStore_notifyListeners. now rewrite broadcast_flat.
Qed.

Lemma handle_repeat fate (msg : StoredEvent V) n : forall (s : System V D),
  fold_left (fun s0 ev => fst (fst (handleNewEvent ev fate s0))) (repeat msg n) s
  = Nat.iter n (fun s0 => fst (fst (handleNewEvent msg fate s0))) s.
Proof.
  induction n as [|n IH]; intros s; [reflexivity|].
  rewrite Nat.iter_succ_r. simpl repeat. simpl fold_left. apply IH.
Qed.

(** The state [add] leaves.  When the request fails, the system is as it
    was.  Otherwise the record is committed or not, as the transaction goes,
    and the live fold of the stored event has run as often as the
    aggregator's handler was called with an open database: not at all if the
    aggregator has no handle or is not subscribed, once if it is. *)
Lemma add_state gid v fate aggFate (s : System V D) :
  store_db (eventStore s) = true ->
  match idb_add (eventsDisk s) gid v, fate with
  | None, _ | _, StoreRequestFails => fst (fst (add gid v fate aggFate s)) = s
  | Some (key, db'), _ =>
      exists n,
        fst (fst (add gid v fate aggFate s))
        = Nat.iter n (fun s0 => fst (fst (handleNewEvent (mkEvent key gid v) aggFate s0)))
            (match fate with StoreCommits => with_eventsDisk s db' | _ => s end) /\
        (agg_db (aggregator s) = false -> n = O) /\
        (~ In AggregatorHandler (store_listeners (eventStore s)) -> n = O) /\
        (NoDup (store_listeners (eventStore s)) ->
         In AggregatorHandler (store_listeners (eventStore s)) ->
         agg_db (aggregator s) = true -> n = 1%nat)
  end.
Proof.
  intros Hdb. rewrite (add_unfold gid v fate aggFate s Hdb).
  destruct (idb_add (eventsDisk s) gid v) as [[key db']|]; [|destruct fate; reflexivity].
  destruct fate; [|reflexivity|]; rewrite broadcast_unfold; cbn [fst snd];
    destruct (broadcast_shape (mkEvent key gid v) s (store_listeners (eventStore s)))
      as (_ & _ & _ & _ & _ & Hev & Hclosed & Hnone & Hone);
    set (waiting := flat_map (fun l => snd (callStoreListener (mkEvent key gid v) s
                                              ([], []) l))
                             (store_listeners (eventStore s))) in *;
    assert (Hrep : waiting = repeat (mkEvent key gid v) (List.length waiting))
      by (apply Forall_eq_repeat, Forall_forall; intros x Hx; symmetry; now apply Hev);
    exists (List.length waiting);
    (split; [|split; [intros H; now rewrite (Hclosed H)
                     |split; [intros H; now rewrite (Hnone H)
                             |intros H1 H2 H3; now rewrite (Hone H1 H2 H3)]]]);
    (destruct (agg_db (aggregator s)) eqn:Hadb;
     [rewrite resume_fold_state by exact Hadb; rewrite Hrep at 1; apply handle_repeat
     |rewrite (Hclosed eq_refl); reflexivity]).
Qed.

(** A property of the system that the store's transaction and the live fold
    keep is kept by [add]. *)
Lemma add_keeps (P : System V D -> Prop) gid v fate aggFate (s : System V D) :
  P s ->
  (forall key db', idb_add (eventsDisk s) gid v = Some (key, db') ->
     P (with_eventsDisk s db') /\
     forall s0, agg_db (aggregator s0) = true ->
       (P s0 -> P (fst (fst (handleNewEvent (mkEvent key gid v) aggFate s0))))) ->
  P (fst (fst (add gid v fate aggFate s))).
Proof.
  intros Hs Hstep. destruct (store_db (eventStore s)) eqn:Hdb;
    [|unfold add; rewrite Hdb; exact Hs].
  pose proof (add_state gid v fate aggFate s Hdb) as Hst.
  destruct (idb_add (eventsDisk s) gid v) as [[key db']|]; [|destruct fate; now rewrite Hst].
  destruct (Hstep key db' eq_refl) as [Hdisk Hhandle].
  assert (Hopen : forall s0, agg_db (aggregator s0) = true ->
            agg_db (aggregator (fst (fst (handleNewEvent (mkEvent key gid v) aggFate s0))))
            = true).
  { intros s0 H0. rewrite <- (resume_state _ _ _ H0), resume_agg_db. exact H0. }
  assert (Hiter : forall n s1, P s1 ->
            (n <> O -> agg_db (aggregator s1) = true) ->
            P (Nat.iter n (fun s0 => fst (fst (handleNewEvent (mkEvent key gid v)
                                                 aggFate s0))) s1)).
  { induction n as [|n IH]; intros s1 H1 Hn; [exact H1|].
    rewrite Nat.iter_succ_r. apply IH.
    - apply Hhandle; auto.
    - intros _. apply Hopen. auto. }
  destruct fate; [|now rewrite Hst|]; destruct Hst as (n & -> & Hclosed & _);
    apply Hiter; auto; intros Hn;
    (destruct (agg_db (aggregator s)) eqn:Hadb;
     [first [reflexivity | cbn [with_eventsDisk aggregator]; exact Hadb]
     |now specialize (Hclosed eq_refl)]).
Qed.

Lemma handleNewEvent_aggOpening ev fate (s : System V D) :
  aggOpening (fst (fst (handleNewEvent ev fate s))) = aggOpening s.
Proof.
  unfold handleNewEvent. destruct (agg_db (aggregator s)); simpl; [|reflexivity].
  destruct (processEvent (stores (aggDisk s)) ev); [reflexivity|].
  destruct fate; reflexivity.
Qed.

(** What [add] leaves of the store: the object is untouched, and its
    database is extended by the new record exactly when the transaction
    completed. *)
Lemma add_store gid v fate aggFate (s : System V D) :
  eventStore (fst (fst (add gid v fate aggFate s))) = eventStore s /\
  aggOpening (fst (fst (add gid v fate aggFate s))) = aggOpening s /\
  eventsDisk (fst (fst (add gid v fate aggFate s)))
  = match store_db (eventStore s), idb_add (eventsDisk s) gid v, fate with
    | true, Some (_, db'), StoreCommits => db'
    | _, _, _ => eventsDisk s
    end.
Proof.
  split; [|split].
  - apply (add_keeps (fun s' => eventStore s' = eventStore s)); [reflexivity|].
    intros key db' _. split; [reflexivity|].
    intros s0 _ H0. now rewrite handleNewEvent_eventStore.
  - apply (add_keeps (fun s' => aggOpening s' = aggOpening s)); [reflexivity|].
    intros key db' _. split; [reflexivity|].
    intros s0 _ H0. now rewrite handleNewEvent_aggOpening.
  - destruct (store_db (eventStore s)) eqn:Hdb; [|unfold add; rewrite Hdb; reflexivity].
    rewrite (add_unfold gid v fate aggFate s Hdb).
    destruct (idb_add (eventsDisk s) gid v) as [[key db']|]; [|destruct fate; reflexivity].
    destruct fate; [|reflexivity|]; cbn [fst]; now rewrite resume_fold_disk.
Qed.

(** What an [add] whose request succeeds shows: the success of the request,
    the broadcast, the end of the transaction, and then the rest of the live
    folds. *)
Lemma add_shows gid v fate aggFate (s : System V D) key db' :
  store_db (eventStore s) = true ->
  idb_add (eventsDisk s) gid v = Some (key, db') ->
  fate <> StoreRequestFails ->
  exists later,
    snd (fst (add gid v fate aggFate s))
    = Signal (RequestSuccess key) ::
      flat_map (fun l => fst (callStoreListener (mkEvent key gid v) s ([], []) l))
               (store_listeners (eventStore s)) ++
      [Signal (match fate with
               | StoreCommits => TransactionComplete
               | _ => TransactionAbort
               end)] ++ later /\
    Forall (fun e => quiet e /\ is_ProcessEventCalled e = false) later.
Proof.
  intros Hdb Hadd Hfate. rewrite (add_unfold gid v fate aggFate s Hdb), Hadd.
  destruct fate; [|congruence|]; rewrite broadcast_unfold; cbn [fst snd];
    match goal with
    | |- context [fold_left (resumeLiveFold aggFate) ?w (?s0, ?tr0)] =>
        destruct (resume_fold aggFate w s0 tr0) as (later & Heq & Hlater & _)
    end;
    exists later; rewrite Heq; (split; [|exact Hlater]);
    simpl; rewrite <- app_assoc; reflexivity.
Qed.



Lemma collision_refused (db : EventsDb V) gid v :
  (exists r, In r (records db) /\ globalId r = gid) -> idb_add db gid v = None.
Proof.
  intros [r [Hin Hg]]. unfold idb_add.
  replace (existsb (fun r0 => String.eqb (globalId r0) gid) (records db)) with true;
    [reflexivity|].
  symmetry. apply existsb_exists. exists r. split; [exact Hin|].
  now apply String.eqb_eq.
Qed.

(** C7: an [add] whose [globalId] is already stored fails: the promise is
    rejected, and the system is left exactly as it was, so no record is
    stored, no listener is called, no event is folded and no coverage is
    advanced, in memory or in the database. *)
Theorem C7_add_rejects_globalId_collision gid v fate aggFate (s : System V D) :
  (exists r, In r (records (eventsDisk s)) /\ globalId r = gid) ->
  exists trace msg,
    add gid v fate aggFate s = (s, trace, Rejected msg) /\
    (forall e, In e trace -> exists sig, e = Signal sig) /\
    records (eventsDisk (fst (fst (add gid v fate aggFate s)))) = records (eventsDisk s) /\
    processedRanges (aggregator (fst (fst (add gid v fate aggFate s))))
    = processedRanges (aggregator s) /\
    metadata (aggDisk (fst (fst (add gid v fate aggFate s)))) = metadata (aggDisk s).
Proof.
  intros Hcol. destruct (store_db (eventStore s)) eqn:Hdb.
  - rewrite (add_unfold gid v fate aggFate s Hdb), (collision_refused _ gid v Hcol).
    eexists _, _. split; [reflexivity|]. simpl.
    split; [|auto].
    intros e [<-|[<-|[<-|[]]]]; eauto.
  - unfold add. rewrite Hdb. simpl.
    exists [], "Database not initialized"%string. split; [reflexivity|].
    split; [intros e []|auto].
Qed.

(** C6 (as amended): when the request of [add] succeeds, every subscriber
    of the store is called with the stored event from the request's success
    handler, before the transaction completes or aborts, and the promise is
    resolved there; no subscriber is called after the transaction has
    ended, where only the rest of the aggregator's live fold is still to
    come.  The record is part of the store only if the transaction
    completes.  When the request fails, no subscriber is called, the promise
    is rejected and nothing is stored. *)
Theorem C6_add_notifies_on_request_success
    gid v fate aggFate (s : System V D) :
  store_db (eventStore s) = true ->
  match idb_add (eventsDisk s) gid v, fate with
  | None, _ | _, StoreRequestFails =>
      (forall l e, ~ In (StoreListenerCalled l e) (snd (fst (add gid v fate aggFate s)))) /\
      (exists msg, snd (add gid v fate aggFate s) = Rejected msg) /\
      fst (fst (add gid v fate aggFate s)) = s
  | Some (key, db'), _ =>
      exists eff later,
        snd (fst (add gid v fate aggFate s))
        = Signal (RequestSuccess key) :: eff ++
          [Signal (match fate with
                   | StoreCommits => TransactionComplete
                   | _ => TransactionAbort
                   end)] ++ later /\
        (forall l, In l (store_listeners (eventStore s)) ->
                   In (StoreListenerCalled l (mkEvent key gid v)) eff) /\
        (forall l e, In (StoreListenerCalled l e) eff -> e = mkEvent key gid v) /\
        (forall sig, ~ In (Signal sig) eff) /\
        (forall l e, ~ In (StoreListenerCalled l e) later) /\
        (forall sig, ~ In (Signal sig) later) /\
        snd (add gid v fate aggFate s) = Resolved tt /\
        eventsDisk (fst (fst (add gid v fate aggFate s)))
        = match fate with StoreCommits => db' | _ => eventsDisk s end
  end.
Proof.
  intros Hdb. rewrite (add_unfold gid v fate aggFate s Hdb).
  assert (Hfail : forall l e,
            ~ In (@StoreListenerCalled V A l e)
                 [Signal RequestError; Signal TransactionError; Signal TransactionAbort]).
  { intros l e [H|[H|[H|[]]]]; discriminate. }
  destruct (idb_add (eventsDisk s) gid v) as [[key db']|].
  2: { destruct fate; (split; [exact Hfail|]); (split; [eexists; reflexivity | reflexivity]). }
  destruct fate; [| split; [exact Hfail|]; split; [eexists; reflexivity | reflexivity] |];
    rewrite broadcast_unfold; cbn [fst snd];
    destruct (broadcast_shape (mkEvent key gid v) s (store_listeners (eventStore s)))
      as (Hall & Honly & Hsig & _);
    match goal with
    | |- context [fold_left (resumeLiveFold aggFate) ?w (?s0, ?tr0)] =>
        destruct (resume_fold aggFate w s0 tr0) as (later & Heq & Hlater & _);
        pose proof (resume_fold_disk aggFate w s0 tr0) as Hdisk;
        destruct (fold_left (resumeLiveFold aggFate) w (s0, tr0)) as [s' tr']
    end;
    cbn [fst snd] in *; subst tr';
    eexists _, later;
    (split; [simpl; rewrite <- app_assoc; reflexivity|]);
    (split; [exact Hall|]);
    (split; [intros l e Hin; now destruct (Honly l e Hin)|]);
    (split; [exact Hsig|]);
    rewrite Forall_forall in Hlater;
    (split; [intros l e Hin; now destruct (Hlater _ Hin) as [[] _]|]);
    (split; [intros sig Hin; now destruct (Hlater _ Hin) as [[] _]|]);
    (split; [reflexivity|]); rewrite Hdisk; reflexivity.
Qed.

End Append.

Lemma C7_add_rejects_globalId_collision_witness :
  (exists r, In r (records (eventsDisk listen_running)) /\ globalId r = "g1"%string) /\
  exists trace msg,
    add (C := MusicListen) "g1" "song2"%string StoreCommits Commits listen_running
    = (listen_running, trace, Rejected msg).
Proof.
  assert (Hcol : exists r, In r (records (eventsDisk listen_running))
                           /\ globalId r = "g1"%string)
    by (exists (mkEvent 1 "g1" "song1"%string); split; [now left | reflexivity]).
  split; [exact Hcol|].
  destruct (C7_add_rejects_globalId_collision (C := MusicListen)
              "g1" "song2"%string StoreCommits Commits listen_running Hcol)
    as (trace & msg & Heq & _).
  exists trace, msg. exact Heq.
Defined.

Lemma C6_add_notifies_on_request_success_witness :
  store_db (eventStore listen_running) = true /\
  exists eff later,
    snd (fst (add (C := MusicListen) "g2" "song2"%string StoreCommits Commits
                  listen_running))
    = Signal (RequestSuccess 2) :: eff ++ [Signal TransactionComplete] ++ later /\
    (forall l, In l (store_listeners (eventStore listen_running)) ->
               In (StoreListenerCalled l (mkEvent 2 "g2" "song2"%string)) eff) /\
    (forall l e, In (StoreListenerCalled l e) eff -> e = mkEvent 2 "g2" "song2"%string) /\
    (forall sig, ~ In (Signal sig) eff) /\
    (forall l e, ~ In (StoreListenerCalled l e) later) /\
    (forall sig, ~ In (Signal sig) later) /\
    snd (add (C := MusicListen) "g2" "song2"%string StoreCommits Commits listen_running)
    = Resolved tt /\
    eventsDisk (fst (fst (add (C := MusicListen) "g2" "song2"%string StoreCommits Commits
                              listen_running)))
    = mkEventsDb [mkEvent 1 "g1" "song1"%string; mkEvent 2 "g2" "song2"%string] 3.
Proof.
  split; [reflexivity|].
  exact (C6_add_notifies_on_request_success (C := MusicListen)
           "g2" "song2"%string StoreCommits Commits listen_running eq_refl).
Defined.

(** C6, as the specification states it, fails: the subscriber is called
    while the transaction is still open, before [complete]; and when the
    transaction then fails to commit, the subscriber has been told of event 1,
    the promise of [add] is resolved, and the store holds no record. *)
Lemma C6_notified_before_commit_counterexample :
  add (C := MusicListen) "g1" "song1"%string StoreCommits Commits store_with_subscriber
  = (with_eventsDisk store_with_subscriber
       (mkEventsDb [mkEvent 1 "g1" "song1"%string] 2),
     [Signal (RequestSuccess 1);
      StoreListenerCalled (ExternalListener 3) (mkEvent 1 "g1" "song1"%string);
      Signal TransactionComplete],
     Resolved tt) /\
  add (C := MusicListen) "g1" "song1"%string StoreCommitFails Commits store_with_subscriber
  = (store_with_subscriber,
     [Signal (RequestSuccess 1);
      StoreListenerCalled (ExternalListener 3) (mkEvent 1 "g1" "song1"%string);
      Signal TransactionAbort],
     Resolved tt) /\
  records (eventsDisk store_with_subscriber) = [].
Proof. repeat split. Qed.

(** ** The catch-up path *)

(** C3, at a batch whose three folds succeed and whose transaction commits:
    the listen counter is deployed over three stored plays with listener 7
    subscribed; the tick folds events 3, 2, 1, persists the totals and the
    coverage [1,3], and calls no listener, although every fold returned a
    changed item. *)
Theorem C3_committed_batch_notifies_nobody :
  agg_listeners (aggregator listen_backlog) = [7%nat] /\
  processedRanges (aggregator listen_backlog) = [] /\
  exists s',
    processEvents (C := MusicListen) Commits listen_backlog
    = (s',
       [ProcessEventCalled (mkEvent 3 "g3" "song1"%string);
        ProcessEventCalled (mkEvent 2 "g2" "song2"%string);
        ProcessEventCalled (mkEvent 1 "g1" "song1"%string)],
       Resolved tt) /\
    aggDisk s' = mkAggDb (Some [mkRange 1 3]) [("song1"%string, 2); ("song2"%string, 1)] /\
    processedRanges (aggregator s') = [mkRange 1 3] /\
    foldEvents (C := MusicListen)
      [mkEvent 3 "g3" "song1"%string; mkEvent 2 "g2" "song2"%string;
       mkEvent 1 "g1" "song1"%string] [] []
    = ([ProcessEventCalled (mkEvent 3 "g3" "song1"%string);
        ProcessEventCalled (mkEvent 2 "g2" "song2"%string);
        ProcessEventCalled (mkEvent 1 "g1" "song1"%string)],
       Some [("song1"%string, 2); ("song2"%string, 1)],
       [("song1"%string, 1); ("song2"%string, 1); ("song1"%string, 2)]).
Proof.
  split; [reflexivity|]. split; [reflexivity|].
  eexists. split; [reflexivity|]. repeat split.
Qed.

(** C1, at a tick that retrieves fewer events than the batch size without
    having reached the origin: events 1 to 5 were stored before the aggregator
    was deployed, 6 and 8 were folded on the live path and the fold of 7
    failed there.  The tick asks for the one event of the gap between 6 and 8,
    folds event 7, and since 1 < 100 advances the coverage to [1,7]: events 1
    to 5 are now covered although the journal of folded ids holds 7, 8 and 6
    only. *)
Theorem C1_short_batch_covers_unfolded_events :
  batchSize (aggregator delayed_deploy) = 100 /\
  map localId (records (eventsDisk delayed_deploy)) = [1; 2; 3; 4; 5; 6; 7; 8] /\
  processedRanges (aggregator delayed_deploy) = [mkRange 6 6; mkRange 8 8] /\
  stores (aggDisk delayed_deploy) = [8; 6] /\
  exists s',
    processEvents (C := Journal) Commits delayed_deploy
    = (s', [ProcessEventCalled (mkEvent 7 "g7" 2)], Resolved tt) /\
    processedRanges (aggregator s') = [mkRange 1 8] /\
    metadata (aggDisk s') = Some [mkRange 1 8] /\
    stores (aggDisk s') = [7; 8; 6] /\
    coveredb (processedRanges (aggregator delayed_deploy)) 1 = false /\
    coveredb (processedRanges (aggregator s')) 1 = true.
Proof.
  repeat (split; [reflexivity|]).
  eexists. split; [reflexivity|]. repeat split.
Qed.

Section CatchUp.

Context {V A D : Type} `{C : Consumer V A D}.

Lemma foldEvents_calls evs : forall d items,
  Forall (fun e => is_ListenerCalled e = false)
         (fst (fst (foldEvents (V := V) (A := A) evs d items))).
Proof.
  induction evs as [|ev evs IH]; intros d items; simpl; [constructor|].
  destruct (processEvent d ev) as [err|d' c]; [repeat constructor|].
  specialize (IH d' (match c with Some c0 => items ++ [c0] | None => items end)).
  destruct (foldEvents evs d' _) as [[calls r] its]. simpl in *.
  constructor; [reflexivity | exact IH].
Qed.

(** With a transaction that commits, a tick that calls a listener has
    aborted its batch: it leaves the system as it found it. *)
Lemma processEvents_notifies_only_on_abort (s : System V D) l c :
  In (ListenerCalled l c) (snd (fst (processEvents Commits s))) ->
  fst (fst (processEvents Commits s)) = s.
Proof.
  unfold processEvents.
  destruct (agg_db (aggregator s)); [|simpl; contradiction].
  destruct (isFullyCovered _); [simpl; contradiction|].
  destruct (findRangeToProcess _) as [|[range|]|msg]; try (simpl; contradiction).
  destruct (getEventsBefore _ _ s) as [|evs0|msg]; try (simpl; contradiction).
  destruct evs0 as [|first evs]; [simpl; contradiction|].
  pose proof (foldEvents_calls (first :: evs) (stores (aggDisk s)) []) as Hcalls.
  destruct (foldEvents (first :: evs) (stores (aggDisk s)) []) as [[calls [d'|]] items];
    cbn [negb fst snd]; [|reflexivity].
  cbn [fst snd] in Hcalls.
  intros Hin. rewrite Forall_forall in Hcalls. apply Hcalls in Hin. discriminate.
Qed.

(** A fold that throws aborts the whole batch: nothing of it stays in the
    database, whatever was folded before it, and the coverage list in memory
    is the one the tick found. *)
Lemma processEvents_fold_failure_aborts fate (s : System V D) range evs calls items :
  agg_db (aggregator s) = true ->
  isFullyCovered (processedRanges (aggregator s)) = false ->
  findRangeToProcess (processedRanges (aggregator s)) = Resolved (Some range) ->
  getEventsBefore (end_ range)
    (Some (Z.min (batchSize (aggregator s)) (end_ range - start range - 1))) s
  = Resolved evs ->
  foldEvents evs (stores (aggDisk s)) [] = (calls, None, items) ->
  processEvents fate s
  = (s, calls ++ [ConsoleError "Error processing events:"; TxAbortCalled]
              ++ EventAggregator_notifyListeners (aggregator s) items,
     Resolved tt).
Proof.
  intros Hdb Hfull Hrange Hevs Hfold. unfold processEvents.
  rewrite Hdb, Hfull, Hrange, Hevs. cbn [negb].
  destruct evs as [|first evs]; [simpl in Hfold; discriminate|].
  rewrite Hfold. reflexivity.
Qed.

(** A batch whose folds all succeed and whose transaction commits is
    persisted, and no listener hears of it. *)
Lemma processEvents_commit_is_silent (s : System V D) range first evs calls d' items :
  agg_db (aggregator s) = true ->
  isFullyCovered (processedRanges (aggregator s)) = false ->
  findRangeToProcess (processedRanges (aggregator s)) = Resolved (Some range) ->
  getEventsBefore (end_ range)
    (Some (Z.min (batchSize (aggregator s)) (end_ range - start range - 1))) s
  = Resolved (first :: evs) ->
  foldEvents (first :: evs) (stores (aggDisk s)) [] = (calls, Some d', items) ->
  snd (fst (processEvents Commits s)) = calls /\
  filter is_ListenerCalled (snd (fst (processEvents Commits s))) = [] /\
  stores (aggDisk (fst (fst (processEvents Commits s)))) = d'.
Proof.
  intros Hdb Hfull Hrange Hevs Hfold.
  pose proof (foldEvents_calls (first :: evs) (stores (aggDisk s)) []) as Hcalls.
  unfold processEvents.
  rewrite Hdb, Hfull, Hrange, Hevs. cbn [negb].
  rewrite Hfold in *. cbn [fst snd] in *.
  split; [reflexivity|]. split; [|reflexivity].
  clear Hfold. induction Hcalls as [|e calls He _ IH]; [reflexivity|].
  simpl. rewrite He. exact IH.
Qed.

Lemma cursorLoop_length n cursor : forall results : list (StoredEvent V),
  Z.of_nat (List.length results) < n ->
  Z.of_nat (List.length (cursorLoop (Some n) cursor results)) <= n.
Proof.
  induction cursor as [|c cursor IH]; intros results Hlen; simpl; [lia|].
  assert (Hlen' : List.length (results ++ [c]) = S (List.length results))
    by (rewrite length_app; simpl; lia).
  destruct (Z.eqb_spec n 0); [lia|]. simpl.
  destruct (Z.ltb_spec (Z.of_nat (List.length (results ++ [c]))) n); [apply IH|]; lia.
Qed.

(** What a committed tick does to the coverage: the whole stretch from 1
    when fewer than [batchSize] events came back, the stretch between the
    oldest and the newest retrieved id otherwise. *)
Lemma processEvents_advance (s : System V D) range first evs calls d' items :
  agg_db (aggregator s) = true ->
  isFullyCovered (processedRanges (aggregator s)) = false ->
  findRangeToProcess (processedRanges (aggregator s)) = Resolved (Some range) ->
  getEventsBefore (end_ range)
    (Some (Z.min (batchSize (aggregator s)) (end_ range - start range - 1))) s
  = Resolved (first :: evs) ->
  foldEvents (first :: evs) (stores (aggDisk s)) [] = (calls, Some d', items) ->
  processedRanges (aggregator (fst (fst (processEvents Commits s))))
  = if Z.of_nat (List.length (first :: evs)) <? batchSize (aggregator s)
    then updateProcessedRanges (processedRanges (aggregator s)) 1 (localId first)
    else updateProcessedRanges (processedRanges (aggregator s))
           (localId (last (first :: evs) first)) (localId first).
Proof.
  intros Hdb Hfull Hrange Hevs Hfold. unfold processEvents.
  rewrite Hdb, Hfull, Hrange, Hevs. cbn [negb]. rewrite Hfold. reflexivity.
Qed.

(** The request is limited to the length of the gap, the origin test
    compares with [batchSize]: over a gap shorter than [batchSize] every
    committed tick extends the coverage down to 1, whatever lies below the
    gap. *)
Lemma processEvents_short_gap_covers_from_1 (s : System V D) range first evs calls d' items :
  agg_db (aggregator s) = true ->
  isFullyCovered (processedRanges (aggregator s)) = false ->
  findRangeToProcess (processedRanges (aggregator s)) = Resolved (Some range) ->
  0 < end_ range - start range - 1 < batchSize (aggregator s) ->
  getEventsBefore (end_ range)
    (Some (Z.min (batchSize (aggregator s)) (end_ range - start range - 1))) s
  = Resolved (first :: evs) ->
  foldEvents (first :: evs) (stores (aggDisk s)) [] = (calls, Some d', items) ->
  processedRanges (aggregator (fst (fst (processEvents Commits s))))
  = updateProcessedRanges (processedRanges (aggregator s)) 1 (localId first).
Proof.
  intros Hdb Hfull Hrange Hgap Hevs Hfold.
  rewrite (processEvents_advance s range first evs calls d' items) by assumption.
  assert (Hlen : Z.of_nat (List.length (first :: evs))
                 <= Z.min (batchSize (aggregator s)) (end_ range - start range - 1)).
  { unfold getEventsBefore, getEvents in Hevs. destruct (negb _); [discriminate|].
    injection Hevs as <-. apply cursorLoop_length. simpl. lia. }
  destruct (Z.ltb_spec (Z.of_nat (List.length (first :: evs))) (batchSize (aggregator s)));
    [reflexivity | lia].
Qed.

End CatchUp.

(** ** Reachable states *)

Lemma sweep_starts (P : Z -> Prop) rest : forall cur,
  Forall (fun r => P (start r)) (cur :: rest) ->
  Forall (fun r => P (start r)) (sweep cur rest).
Proof.
  induction rest as [|n rest IH]; intros cur Hall; simpl; [exact Hall|].
  inversion Hall as [|? ? Hcur Hrest]; subst.
  inversion Hrest as [|? ? Hn Hrest']; subst.
  destruct (end_ cur + 1 >=? start n).
  - apply IH. constructor; [exact Hcur | exact Hrest'].
  - constructor; [exact Hcur | apply IH; exact Hrest].
Qed.

Lemma updateProcessedRanges_starts_positive l s e :
  starts_positive l -> 1 <= s -> starts_positive (updateProcessedRanges l s e).
Proof.
  intros Hl Hs. unfold starts_positive in *.
  destruct (updateProcessedRanges_sweep l s e) as (cur & rest & Hsort & ->).
  apply (sweep_starts (fun z => 1 <= z)). rewrite <- Hsort.
  rewrite Forall_forall in *. intros r Hr.
  apply In_sort_ranges, in_app_or in Hr as [Hr|[<-|[]]]; simpl; auto.
Qed.

Lemma starts_positive_not_fully_covered l :
  starts_positive l -> isFullyCovered l = false.
Proof.
  intros Hl. destruct l as [|first l]; [reflexivity|].
  inversion Hl; subst. unfold isFullyCovered.
  destruct (Z.eqb_spec (start first) 0); [lia|]. apply andb_false_r.
Qed.

Lemma starts_positive_findRange_resolves l :
  starts_positive l -> exists g, findRangeToProcess l = Resolved g.
Proof.
  intros Hl. destruct l as [|r before] using rev_ind; [eexists; reflexivity|].
  rewrite findRangeToProcess_last.
  assert (1 <= start r).
  { unfold starts_positive in Hl. rewrite Forall_forall in Hl.
    apply Hl, in_or_app. right. now left. }
  destruct (start r =? 1); [eexists; reflexivity|].
  destruct (Z.eqb_spec (start r) 0); [lia|].
  destruct (rev before); eexists; reflexivity.
Qed.

Section Reachable.

Context {V A D : Type} `{C : Consumer V A D}.

Lemma cursorLoop_In limit cursor : forall results (x : StoredEvent V),
  In x (cursorLoop limit cursor results) -> In x results \/ In x cursor.
Proof.
  induction cursor as [|c cursor IH]; intros results x Hx; simpl in *; [now left|].
  destruct (no_limit limit || _).
  - apply IH in Hx as [Hx|Hx]; [|now right; right].
    apply in_app_or in Hx as [Hx|[<-|[]]]; [now left | now right; left].
  - apply in_app_or in Hx as [Hx|[<-|[]]]; [now left | now right; left].
Qed.

Lemma getEvents_stored direction range limit (s : System V D) evs x :
  getEvents direction range limit s = Resolved evs -> In x evs ->
  In x (records (eventsDisk s)).
Proof.
  unfold getEvents. destruct (negb _); [discriminate|].
  intros [= <-] Hx. apply cursorLoop_In in Hx as [[]|Hx].
  destruct direction; [|apply in_rev in Hx]; apply filter_In in Hx; tauto.
Qed.

Lemma last_In {T} (l : list T) (d : T) : l <> [] -> In (last l d) l.
Proof.
  induction l as [|a l IH]; [congruence|]. intros _.
  destruct l as [|b l]; [now left|].
  right. apply IH. discriminate.
Qed.

Lemma handleNewEvent_invariant ev fate (s : System V D) :
  1 <= localId ev -> coverage_invariant s ->
  coverage_invariant (fst (fst (handleNewEvent ev fate s))).
Proof.
  intros Hid Hinv. unfold handleNewEvent.
  destruct (agg_db (aggregator s)); cbn [negb]; [|exact Hinv].
  destruct (processEvent (stores (aggDisk s)) ev) as [err|d' c]; [exact Hinv|].
  destruct Hinv as (Hmem & Hdisk & Hkeys).
  pose proof (updateProcessedRanges_starts_positive _ _ (localId ev) Hmem Hid) as Hup.
  destruct fate; cbn [fst snd]; (split; [exact Hup|]); (split; [|exact Hkeys]);
    try exact Hdisk.
  intros l [= <-]. exact Hup.
Qed.

Lemma processEvents_invariant fate (s : System V D) :
  coverage_invariant s -> coverage_invariant (fst (fst (processEvents fate s))).
Proof.
  intros Hinv. unfold processEvents.
  destruct (agg_db (aggregator s)); cbn [negb]; [|exact Hinv].
  destruct (isFullyCovered _).
  { unfold stopProcessing. destruct (processingIntervalId _); exact Hinv. }
  destruct (findRangeToProcess _) as [|[range|]|msg]; try exact Hinv.
  destruct (getEventsBefore _ _ s) as [|evs0|msg] eqn:Hevs; try exact Hinv.
  destruct evs0 as [|first evs]; [exact Hinv|].
  assert (Hstored : forall x, In x (first :: evs) -> 1 <= localId x).
  { intros x Hx. destruct Hinv as (_ & _ & Hk & _). rewrite Forall_forall in Hk.
    apply Hk. eapply getEvents_stored; eauto. }
  destruct (foldEvents (first :: evs) (stores (aggDisk s)) []) as [[calls [d'|]] items];
    [|exact Hinv].
  destruct Hinv as (Hmem & Hdisk & Hkeys).
  set (ranges' := if Z.of_nat (List.length (first :: evs)) <? batchSize (aggregator s)
                  then updateProcessedRanges (processedRanges (aggregator s)) 1
                         (localId first)
                  else updateProcessedRanges (processedRanges (aggregator s))
                         (localId (last (first :: evs) first)) (localId first)).
  assert (Hup : starts_positive ranges').
  { subst ranges'. destruct (_ <? _).
    - apply updateProcessedRanges_starts_positive; [exact Hmem | lia].
    - apply updateProcessedRanges_starts_positive; [exact Hmem|].
      apply Hstored, last_In. discriminate. }
  destruct fate; cbn [fst snd]; (split; [exact Hup|]); (split; [|exact Hkeys]);
    try exact Hdisk.
  intros l [= <-]. exact Hup.
Qed.

Lemma idb_add_keys (db : EventsDb V) gid v key db' :
  store_keys_positive db -> idb_add db gid v = Some (key, db') ->
  1 <= key /\ store_keys_positive db'.
Proof.
  intros [Hrec Hgen]. unfold idb_add. destruct (existsb _ _); [discriminate|].
  intros [= <- <-]. split; [exact Hgen|]. split; simpl; [|lia].
  apply Forall_app. split; [exact Hrec|]. repeat constructor. exact Hgen.
Qed.

Lemma add_invariant gid v fate aggFate (s : System V D) :
  coverage_invariant s -> coverage_invariant (fst (fst (add gid v fate aggFate s))).
Proof.
  intros Hinv. apply add_keeps; [exact Hinv|].
  intros key db' Hadd.
  destruct (idb_add_keys _ _ _ _ _ (proj2 (proj2 Hinv)) Hadd) as [Hkey Hdb'].
  split.
  - destruct Hinv as (Hmem & Hdisk & _). repeat split; auto; apply Hdb'.
  - intros s0 _. now apply handleNewEvent_invariant.
Qed.

Lemma step_invariant (op : Op V) (s : System V D) :
  op_ids_positive op -> coverage_invariant s ->
  coverage_invariant (fst (fst (step op s))).
Proof.
  intros Hop Hinv. destruct op; simpl; try exact Hinv.
  - now apply add_invariant.
  - unfold cleanupOldData. destruct (negb _); [exact Hinv|].
    destruct (_ <=? _); [exact Hinv|]. simpl.
    destruct Hinv as (Hmem & Hdisk & Hrec & Hgen). repeat split; auto. simpl.
    rewrite Forall_forall in *. intros x Hx. apply Hrec.
    rewrite <- (firstn_skipn (Z.to_nat
      (Z.of_nat (List.length (records (eventsDisk s))) - keepLatest))).
    apply in_or_app. now right.
  - unfold EventAggregator_initialize.
    destruct (agg_initializationTried _); [exact Hinv|].
    destruct outcome; try exact Hinv.
    destruct Hinv as (Hmem & Hdisk & Hkeys). repeat split; auto; simpl; try apply Hkeys.
    destruct (metadata (aggDisk s)) as [l|]; [now apply Hdisk | constructor].
  - unfold EventAggregator_openSuccess. destruct (aggOpening s); exact Hinv.
  - unfold startProcessing. destruct (processingIntervalId _); exact Hinv.
  - unfold stopProcessing. destruct (processingIntervalId _); exact Hinv.
  - now apply handleNewEvent_invariant.
  - now apply processEvents_invariant.
Qed.

Lemma reachable_invariant (s : System V D) : reachable s -> coverage_invariant s.
Proof.
  induction 1 as [s (Hmem & Hdisk & Hkeys)|s op _ IH Hop].
  - repeat split; try apply Hkeys.
    + rewrite Hmem. constructor.
    + intros l Hl. congruence.
  - now apply step_invariant.
Qed.

(** C4: starting from empty coverage, in every state reached by appends,
    live-path calls on events with [localId >= 1], catch-up ticks and the
    other calls, every coverage interval, in memory and persisted, starts at
    1 or above; so [isFullyCovered] is false, a tick leaves the timer as it
    is, and [findRangeToProcess] returns a range or [null], never the
    'Unexpected value' error. *)
Theorem C4_reachable_coverage_starts_at_least_1 (s : System V D) :
  reachable s ->
  starts_positive (processedRanges (aggregator s)) /\
  (forall l, metadata (aggDisk s) = Some l -> starts_positive l) /\
  isFullyCovered (processedRanges (aggregator s)) = false /\
  (forall fate,
     processingIntervalId (aggregator (fst (fst (processEvents fate s))))
     = processingIntervalId (aggregator s)) /\
  (exists g, findRangeToProcess (processedRanges (aggregator s)) = Resolved g) /\
  findRangeToProcess (processedRanges (aggregator s)) <> Rejected "Unexpected value".
Proof.
  intros Hreach. destruct (reachable_invariant s Hreach) as (Hmem & Hdisk & Hkeys).
  pose proof (starts_positive_not_fully_covered _ Hmem) as Hfull.
  destruct (starts_positive_findRange_resolves _ Hmem) as [g Hg].
  split; [exact Hmem|]. split; [exact Hdisk|]. split; [exact Hfull|].
  split; [|split; [exists g; exact Hg | rewrite Hg; discriminate]].
  intros fate. unfold processEvents. rewrite Hfull.
  destruct (agg_db (aggregator s)); cbn [negb]; [|reflexivity].
  destruct (findRangeToProcess _) as [|[range|]|msg]; try reflexivity.
  destruct (getEventsBefore _ _ s) as [|evs0|msg]; try reflexivity.
  destruct evs0 as [|first evs]; [reflexivity|].
  destruct (foldEvents (first :: evs) (stores (aggDisk s)) []) as [[calls [d'|]] items];
    [|reflexivity].
  destruct fate; reflexivity.
Qed.

End Reachable.

Lemma C4_reachable_coverage_starts_at_least_1_witness :
  reachable (fst (fst (step (C := MusicListen) (OpProcessEvents Commits) listen_backlog))) /\
  processedRanges
    (aggregator (fst (fst (step (C := MusicListen) (OpProcessEvents Commits) listen_backlog))))
  = [mkRange 1 3] /\
  isFullyCovered
    (processedRanges
       (aggregator (fst (fst (step (C := MusicListen) (OpProcessEvents Commits)
                                   listen_backlog))))) = false /\
  findRangeToProcess
    (processedRanges
       (aggregator (fst (fst (step (C := MusicListen) (OpProcessEvents Commits)
                                   listen_backlog)))))
  <> Rejected "Unexpected value".
Proof.
  assert (Hstart : reachable (C := MusicListen) listen_backlog).
  { apply reachable_start. split; [reflexivity|]. split; [reflexivity|].
    split; [|simpl; lia]. repeat constructor; simpl; lia. }
  assert (Hreach : reachable (fst (fst (step (C := MusicListen) (OpProcessEvents Commits)
                                             listen_backlog))))
    by (apply reachable_step; [exact Hstart | exact I]).
  split; [exact Hreach|]. split; [reflexivity|].
  destruct (C4_reachable_coverage_starts_at_least_1 _ Hreach)
    as (_ & _ & Hfull & _ & _ & Hfind).
  split; [exact Hfull | exact Hfind].
Defined.

(** ** After [dispose] *)

Section Disposal.

Context {V A D : Type} `{C : Consumer V A D}.







Lemma quiet_no_store_listener (l : list (Effect V A)) :
  Forall quiet l -> filter is_StoreListenerCalled l = [].
Proof.
  induction 1 as [|e l He _ IH]; [reflexivity|].
  simpl. destruct e; simpl in *; try exact IH; contradiction.
Qed.







End Disposal.




(* ================================================================== *)
(** * Part III: further properties of the code                         *)
(* ================================================================== *)

(** ** Consecutive keys *)

Lemma countup_length lo n : List.length (countup lo n) = n.
Proof. revert lo; induction n; intros lo; simpl; auto. Qed.

Lemma countdown_length hi n : List.length (countdown hi n) = n.
Proof. revert hi; induction n; intros hi; simpl; auto. Qed.

Lemma In_countup z n : forall lo, In z (countup lo n) <-> lo <= z < lo + Z.of_nat n.
Proof.
  induction n as [|n IH]; intros lo; simpl; [lia|].
  rewrite IH. lia.
Qed.

Lemma In_countdown z n : forall hi, In z (countdown hi n) <-> hi - Z.of_nat n < z <= hi.
Proof.
  induction n as [|n IH]; intros hi; simpl; [lia|].
  rewrite IH. lia.
Qed.

Lemma firstn_countup m : forall lo n, firstn m (countup lo n) = countup lo (Nat.min m n).
Proof.
  induction m as [|m IH]; intros lo [|n]; simpl; auto. now rewrite IH.
Qed.

Lemma skipn_countup m : forall lo n,
  skipn m (countup lo n) = countup (lo + Z.of_nat m) (n - m).
Proof.
  induction m as [|m IH]; intros lo n.
  - simpl. now rewrite Z.add_0_r, Nat.sub_0_r.
  - destruct n as [|n]; [reflexivity|]. simpl skipn. rewrite IH. simpl Nat.sub.
    f_equal. lia.
Qed.

Lemma firstn_countdown m : forall hi n,
  firstn m (countdown hi n) = countdown hi (Nat.min m n).
Proof.
  induction m as [|m IH]; intros hi [|n]; simpl; auto. now rewrite IH.
Qed.

Lemma countdown_snoc n : forall hi,
  countdown hi (S n) = countdown hi n ++ [hi - Z.of_nat n].
Proof.
  induction n as [|n IH]; intros hi.
  - simpl. now rewrite Z.sub_0_r.
  - change (countdown hi (S (S n))) with (hi :: countdown (hi - 1) (S n)).
    rewrite IH. simpl. do 2 f_equal. f_equal. lia.
Qed.

Lemma rev_countup n : forall lo,
  rev (countup lo n) = countdown (lo + Z.of_nat n - 1) n.
Proof.
  induction n as [|n IH]; intros lo; [reflexivity|].
  simpl rev. rewrite IH, countdown_snoc. f_equal; [f_equal; lia | f_equal; lia].
Qed.

Lemma countdown_first_last hi n d :
  (0 < n)%nat ->
  hd d (countdown hi n) = hi /\ last (countdown hi n) d = hi - Z.of_nat n + 1.
Proof.
  intros Hn. destruct n as [|n]; [lia|]. split; [reflexivity|].
  rewrite countdown_snoc, last_last. lia.
Qed.

Section ConsecutiveRecords.

Context {V : Type}.

Lemma consecutive_cons (r : StoredEvent V) recs lo n :
  map localId (r :: recs) = countup lo n ->
  localId r = lo /\ map localId recs = countup (lo + 1) (n - 1) /\ n = S (List.length recs).
Proof.
  intros H. pose proof (f_equal (@List.length Z) H) as Hlen.
  rewrite countup_length in Hlen. simpl in Hlen. rewrite length_map in Hlen. subst n.
  simpl in H. injection H as H1 H2.
  split; [exact H1|]. split; [|reflexivity].
  simpl. rewrite Nat.sub_0_r. exact H2.
Qed.

(** With consecutive keys, the records below a bound are a prefix. *)
Lemma filter_below (recs : list (StoredEvent V)) : forall lo c,
  map localId recs = countup lo (List.length recs) ->
  filter (fun r => localId r <? c) recs = firstn (Z.to_nat (c - lo)) recs.
Proof.
  induction recs as [|r recs IH]; intros lo c H; [now rewrite firstn_nil|].
  apply consecutive_cons in H as (Hr & Hrest & _).
  simpl in Hrest. rewrite Nat.sub_0_r in Hrest. simpl filter.
  destruct (Z.ltb_spec (localId r) c) as [Hlt|Hge].
  - replace (Z.to_nat (c - lo)) with (S (Z.to_nat (c - (lo + 1)))) by lia.
    simpl. f_equal. now apply IH.
  - replace (Z.to_nat (c - lo)) with O by lia. simpl.
    rewrite (IH (lo + 1) c Hrest). replace (Z.to_nat (c - (lo + 1))) with O by lia.
    reflexivity.
Qed.

(** And the records above a bound are a suffix. *)
Lemma filter_above (recs : list (StoredEvent V)) : forall lo c,
  map localId recs = countup lo (List.length recs) ->
  filter (fun r => c <? localId r) recs = skipn (Z.to_nat (c + 1 - lo)) recs.
Proof.
  induction recs as [|r recs IH]; intros lo c H; [now rewrite skipn_nil|].
  pose proof H as H0.
  apply consecutive_cons in H as (Hr & Hrest & _).
  simpl in Hrest. rewrite Nat.sub_0_r in Hrest. simpl filter.
  destruct (Z.ltb_spec c (localId r)) as [Hlt|Hge].
  - replace (Z.to_nat (c + 1 - lo)) with O by lia. simpl. f_equal.
    rewrite (IH (lo + 1) c Hrest). replace (Z.to_nat (c + 1 - (lo + 1))) with O by lia.
    reflexivity.
  - replace (Z.to_nat (c + 1 - lo)) with (S (Z.to_nat (c + 1 - (lo + 1)))) by lia.
    simpl. now apply IH.
Qed.

End ConsecutiveRecords.

Lemma In_firstn {T} (x : T) n l : In x (firstn n l) -> In x l.
Proof.
  intros H. rewrite <- (firstn_skipn n l). apply in_or_app. now left.
Qed.

Lemma In_skipn {T} (x : T) n l : In x (skipn n l) -> In x l.
Proof.
  intros H. rewrite <- (firstn_skipn n l). apply in_or_app. now right.
Qed.

(** ** The queries of the store *)

Section StoreQueries.

Context {V D : Type}.

Lemma cursorLoop_unlimited limit (cursor : list (StoredEvent V)) : forall results,
  no_limit limit = true -> cursorLoop limit cursor results = results ++ cursor.
Proof.
  induction cursor as [|c cursor IH]; intros results H; simpl.
  - now rewrite app_nil_r.
  - rewrite H. simpl. rewrite IH by exact H. now rewrite <- app_assoc.
Qed.

Lemma cursorLoop_firstn L (cursor : list (StoredEvent V)) : forall results,
  (List.length results < Z.to_nat L)%nat ->
  cursorLoop (Some L) cursor results
  = results ++ firstn (Z.to_nat L - List.length results) cursor.
Proof.
  induction cursor as [|c cursor IH]; intros results Hlen; simpl.
  - now rewrite firstn_nil, app_nil_r.
  - assert (Hlen' : List.length (results ++ [c]) = S (List.length results))
      by (rewrite length_app; simpl; lia).
    destruct (Z.eqb_spec L 0); [lia|]. simpl.
    destruct (Z.ltb_spec (Z.of_nat (List.length (results ++ [c]))) L) as [Hlt|Hge].
    + rewrite IH by lia. rewrite Hlen', <- app_assoc. simpl.
      replace (Z.to_nat L - List.length results)%nat
        with (S (Z.to_nat L - S (List.length results))) by lia.
      reflexivity.
    + replace (Z.to_nat L - List.length results)%nat with 1%nat by lia.
      reflexivity.
Qed.

Lemma cursorLoop_negative L (cursor : list (StoredEvent V)) :
  L < 0 -> cursorLoop (Some L) cursor [] = firstn 1 cursor.
Proof.
  intros HL. destruct cursor as [|c cursor]; [reflexivity|]. simpl.
  destruct (Z.eqb_spec L 0); [lia|]. simpl.
  destruct (Z.ltb_spec 1 L); [lia | reflexivity].
Qed.

Lemma getEvents_cursor direction range limit (s : System V D) :
  store_db (eventStore s) = true ->
  getEvents direction range limit s
  = Resolved
      (let inRange := filter (fun r => includes range (localId r))
                             (records (eventsDisk s)) in
       let cursor := match direction with next => inRange | prev => rev inRange end in
       match limit with
       | None => cursor
       | Some L => if L =? 0 then cursor
                   else if L <? 0 then firstn 1 cursor
                   else firstn (Z.to_nat L) cursor
       end).
Proof.
  intros Hdb. unfold getEvents. rewrite Hdb. cbn [negb]. f_equal. cbv zeta.
  destruct limit as [L|]; [|now apply (cursorLoop_unlimited None)].
  destruct (Z.eqb_spec L 0) as [->|Hne]; [now apply (cursorLoop_unlimited (Some 0))|].
  destruct (Z.ltb_spec L 0) as [Hneg|Hpos]; [now apply cursorLoop_negative|].
  rewrite cursorLoop_firstn by (simpl; lia). simpl. now rewrite Nat.sub_0_r.
Qed.


Lemma ids_rev_firstn (recs : list (StoredEvent V)) lo m :
  map localId recs = countup lo (List.length recs) ->
  map localId (rev (firstn m recs))
  = countdown (lo + Z.of_nat (Nat.min m (List.length recs)) - 1)
              (Nat.min m (List.length recs)).
Proof.
  intros H. rewrite map_rev, <- firstn_map, H, firstn_countup. apply rev_countup.
Qed.

(** On a store with consecutive keys, [getEventsBefore(id, { limit })] with
    a limit of 1 or more returns stored events whose keys are [id - 1],
    [id - 2], ... (starting at the newest key when [id] lies beyond it), in
    that order: [limit] of them, or all there are down to the oldest key. *)
Theorem getEventsBefore_newest_first (s : System V D) c L :
  store_db (eventStore s) = true ->
  store_invariant (eventsDisk s) ->
  1 <= L ->
  exists evs,
    getEventsBefore c (Some L) s = Resolved evs /\
    (forall ev, In ev evs -> In ev (records (eventsDisk s))) /\
    map localId evs
    = countdown (Z.min c (keyGenerator (eventsDisk s)) - 1)
        (Nat.min (Z.to_nat L)
           (Z.to_nat (Z.min c (keyGenerator (eventsDisk s)) - lowest_key (eventsDisk s)))).
Proof.
  intros Hdb (Hlo & Hids & _) HL. unfold getEventsBefore.
  rewrite getEvents_cursor by exact Hdb. cbv zeta.
  destruct (Z.eqb_spec L 0) as [|HL0]; [lia|].
  destruct (Z.ltb_spec L 0) as [|HL1]; [lia|].
  eexists. split; [reflexivity|]. simpl includes.
  rewrite (filter_below _ _ c Hids). split.
  - intros ev Hev. apply In_firstn, in_rev, In_firstn in Hev. exact Hev.
  - rewrite <- firstn_map, (ids_rev_firstn _ _ _ Hids), firstn_countdown.
    unfold lowest_key in *.
    set (n := List.length (records (eventsDisk s))) in *.
    set (g := keyGenerator (eventsDisk s)) in *.
    assert (Hk : Nat.min (Z.to_nat (c - (g - Z.of_nat n))) n
                 = Z.to_nat (Z.min c g - (g - Z.of_nat n))) by lia.
    rewrite Hk.
    destruct (Z.to_nat (Z.min c g - (g - Z.of_nat n))) as [|k] eqn:Ek.
    + now rewrite !Nat.min_0_r.
    + f_equal. lia.
Qed.

(** [getEventsAfter(id, { limit })] on such a store returns the stored
    events with keys [id + 1], [id + 2], ... (starting at the oldest key when
    [id] lies below it), in that order, at most [limit] of them. *)
Theorem getEventsAfter_oldest_first (s : System V D) c L :
  store_db (eventStore s) = true ->
  store_invariant (eventsDisk s) ->
  1 <= L ->
  exists evs,
    getEventsAfter c (Some L) s = Resolved evs /\
    (forall ev, In ev evs -> In ev (records (eventsDisk s))) /\
    map localId evs
    = countup (Z.max (c + 1) (lowest_key (eventsDisk s)))
        (Nat.min (Z.to_nat L)
           (Z.to_nat (keyGenerator (eventsDisk s)
                      - Z.max (c + 1) (lowest_key (eventsDisk s))))).
Proof.
  intros Hdb (Hlo & Hids & _) HL. unfold getEventsAfter.
  rewrite getEvents_cursor by exact Hdb. cbv zeta.
  destruct (Z.eqb_spec L 0) as [|HL0]; [lia|].
  destruct (Z.ltb_spec L 0) as [|HL1]; [lia|].
  eexists. split; [reflexivity|]. simpl includes.
  rewrite (filter_above _ _ c Hids). split.
  - intros ev Hev. apply In_firstn, In_skipn in Hev. exact Hev.
  - rewrite <- firstn_map, <- skipn_map, Hids, skipn_countup, firstn_countup.
    unfold lowest_key in *.
    set (n := List.length (records (eventsDisk s))) in *.
    set (g := keyGenerator (eventsDisk s)) in *.
    f_equal; lia.
Qed.

End StoreQueries.

(** ** The store under [add] and [cleanupOldData] *)

Lemma countup_snoc n : forall lo, countup lo (S n) = countup lo n ++ [lo + Z.of_nat n].
Proof.
  induction n as [|n IH]; intros lo.
  - simpl. now rewrite Z.add_0_r.
  - change (countup lo (S (S n))) with (lo :: countup (lo + 1) (S n)).
    rewrite IH. simpl. do 2 f_equal. f_equal. lia.
Qed.

Lemma NoDup_skipn {T} n (l : list T) : NoDup l -> NoDup (skipn n l).
Proof.
  intros H. rewrite <- (firstn_skipn n l) in H. eapply NoDup_app_remove_l; eauto.
Qed.

Section StoreFacts.

Context {V A D : Type} `{C : Consumer V A D}.

Lemma idb_add_store_invariant (db db' : EventsDb V) gid v key :
  store_invariant db -> idb_add db gid v = Some (key, db') ->
  key = keyGenerator db /\
  records db' = records db ++ [mkEvent key gid v] /\
  keyGenerator db' = keyGenerator db + 1 /\
  lowest_key db' = lowest_key db /\
  store_invariant db'.
Proof.
  intros (Hlo & Hids & Hnd). unfold idb_add.
  destruct (existsb _ _) eqn:Hex; [discriminate|]. intros [= <- <-].
  assert (Hlow : lowest_key (mkEventsDb (records db ++ [mkEvent (keyGenerator db) gid v])
                                        (keyGenerator db + 1)) = lowest_key db).
  { unfold lowest_key. simpl. rewrite length_app. simpl. lia. }
  repeat (split; [reflexivity|]). split; [exact Hlow|].
  split; [now rewrite Hlow|]. split.
  - rewrite Hlow. simpl. rewrite map_app, length_app, Hids. simpl.
    rewrite Nat.add_1_r, countup_snoc. do 2 f_equal. unfold lowest_key. lia.
  - simpl. rewrite map_app. simpl. apply NoDup_app; [exact Hnd | repeat constructor; auto |].
    intros g Hg [<-|[]]. apply in_map_iff in Hg as (r & Hr & Hin).
    assert (Ht : existsb (fun r0 => String.eqb (globalId r0) (globalId r)) (records db) = true).
    { apply existsb_exists. exists r. split; [exact Hin | apply String.eqb_refl]. }
    rewrite Hr in Ht. congruence.
Qed.

Lemma processEvents_eventsDisk fate (s : System V D) :
  eventsDisk (fst (fst (processEvents fate s))) = eventsDisk s /\
  eventStore (fst (fst (processEvents fate s))) = eventStore s.
Proof.
  unfold processEvents.
  destruct (agg_db (aggregator s)); cbn [negb]; [|auto].
  destruct (isFullyCovered _); [auto|].
  destruct (findRangeToProcess _) as [|[range|]|msg]; auto.
  destruct (getEventsBefore _ _ s) as [|evs0|msg]; auto.
  destruct evs0 as [|first evs]; [auto|].
  destruct (foldEvents (first :: evs) (stores (aggDisk s)) []) as [[calls [d'|]] items];
    [|auto].
  destruct fate; auto.
Qed.

(** What [add] leaves of the store: the object is untouched, and its
    database is as before or, when the transaction completed, extended by
    the new record. *)
Lemma add_store_cases gid v fate aggFate (s : System V D) :
  eventStore (fst (fst (add gid v fate aggFate s))) = eventStore s /\
  (eventsDisk (fst (fst (add gid v fate aggFate s))) = eventsDisk s \/
   exists key db',
     store_db (eventStore s) = true /\ fate = StoreCommits /\
     idb_add (eventsDisk s) gid v = Some (key, db') /\
     eventsDisk (fst (fst (add gid v fate aggFate s))) = db').
Proof.
  destruct (add_store gid v fate aggFate s) as (Hs & _ & Hd).
  split; [exact Hs|]. rewrite Hd.
  destruct (store_db (eventStore s)); [|auto].
  destruct (idb_add (eventsDisk s) gid v) as [[key db']|]; [|auto].
  destruct fate; auto. right. exists key, db'. auto.
Qed.

Lemma cleanupOldData_store_invariant keepLatest (s : System V D) :
  store_invariant (eventsDisk s) ->
  store_invariant (eventsDisk (fst (cleanupOldData keepLatest s))) /\
  keyGenerator (eventsDisk (fst (cleanupOldData keepLatest s)))
  = keyGenerator (eventsDisk s).
Proof.
  intros Hinv. unfold cleanupOldData. destruct (negb _); [auto|].
  destruct (_ <=? _); [auto|]. simpl. split; [|reflexivity].
  destruct Hinv as (Hlo & Hids & Hnd). unfold store_invariant, lowest_key in *. simpl.
  set (n := List.length (records (eventsDisk s))) in *.
  set (k := Z.to_nat (Z.of_nat n - keepLatest)).
  rewrite length_skipn. fold n.
  split; [lia|]. split.
  - rewrite <- skipn_map, Hids, skipn_countup.
    destruct (n - k)%nat eqn:E; [reflexivity|]. f_equal. lia.
  - rewrite <- skipn_map. now apply NoDup_skipn.
Qed.

Lemma step_store_invariant (op : Op V) (s : System V D) :
  store_invariant (eventsDisk s) ->
  store_invariant (eventsDisk (fst (fst (step op s)))) /\
  keyGenerator (eventsDisk s) <= keyGenerator (eventsDisk (fst (fst (step op s)))).
Proof.
  intros Hinv. destruct op; simpl; try (split; [exact Hinv | lia]).
  - destruct (add_store_cases gid v fate aggFate s) as [_ [->|(key & db' & _ & _ & Hadd & ->)]];
      [split; [exact Hinv | lia]|].
    destruct (idb_add_store_invariant _ _ _ _ _ Hinv Hadd) as (_ & _ & Hg & _ & Hinv').
    split; [exact Hinv' | lia].
  - destruct (cleanupOldData_store_invariant keepLatest s Hinv) as [H1 H2].
    destruct (cleanupOldData keepLatest s) as [s' r]. simpl in *.
    split; [exact H1 | lia].
  - unfold EventAggregator_initialize. destruct (agg_initializationTried _);
      [split; [exact Hinv | lia]|].
    destruct outcome; (split; [exact Hinv | simpl; lia]).
  - unfold EventAggregator_openSuccess. destruct (aggOpening s);
      (split; [exact Hinv | simpl; lia]).
  - rewrite handleNewEvent_eventsDisk. split; [exact Hinv | lia].
  - rewrite (proj1 (processEvents_eventsDisk fate s)). split; [exact Hinv | lia].
Qed.

(** Whatever is called, in whatever order and with whatever failures of the
    storage, the store keeps consecutive keys that start at 1 or above, the
    [globalId]s of its records stay pairwise distinct, and the key generator
    never goes back. *)
Theorem store_keeps_consecutive_unique_keys (ops : list (Op V)) : forall (s : System V D),
  store_invariant (eventsDisk s) ->
  store_invariant (eventsDisk (fst (fst (run ops s)))) /\
  keyGenerator (eventsDisk s) <= keyGenerator (eventsDisk (fst (fst (run ops s)))).
Proof.
  induction ops as [|op ops IH]; intros s Hinv; simpl; [split; [exact Hinv | lia]|].
  destruct (step_store_invariant op s Hinv) as [H1 H2].
  destruct (step op s) as [[s1 eff1] r1]. simpl in *.
  destruct (IH s1 H1) as [H3 H4].
  destruct (run ops s1) as [[s2 eff2] rs]. simpl in *.
  split; [exact H3 | lia].
Qed.

End StoreFacts.

Lemma new_store_invariant {V} : store_invariant (mkEventsDb (@nil (StoredEvent V)) 1).
Proof.
  unfold store_invariant, lowest_key. simpl. split; [lia|]. split; [reflexivity|constructor].
Qed.

Lemma store_keeps_consecutive_unique_keys_witness :
  store_invariant (eventsDisk (newSystem (V := string) (D := list (string * Z)) [] 100)) /\
  store_invariant
    (eventsDisk (fst (fst (run (C := MusicListen) listen_backlog_ops (newSystem [] 100))))) /\
  keyGenerator (eventsDisk (newSystem (V := string) (D := list (string * Z)) [] 100))
  <= keyGenerator
       (eventsDisk (fst (fst (run (C := MusicListen) listen_backlog_ops
                                  (newSystem [] 100))))).
Proof.
  split; [apply new_store_invariant|].
  apply (store_keeps_consecutive_unique_keys (C := MusicListen) listen_backlog_ops
           (newSystem [] 100)).
  apply new_store_invariant.
Defined.

Section StoreRoundTrip.

Context {V A D : Type} `{C : Consumer V A D}.

Lemma fresh_globalId_accepted (db : EventsDb V) gid v :
  (forall r, In r (records db) -> globalId r <> gid) ->
  idb_add db gid v
  = Some (keyGenerator db,
          mkEventsDb (records db ++ [mkEvent (keyGenerator db) gid v])
                     (keyGenerator db + 1)).
Proof.
  intros Hfresh. unfold idb_add.
  destruct (existsb _ _) eqn:Hex; [|reflexivity].
  apply existsb_exists in Hex as (r & Hin & Heq). apply String.eqb_eq in Heq.
  now destruct (Hfresh r Hin).
Qed.

(** An [add] with a fresh [globalId] whose transaction completes stores the
    event under the key the generator held, after all records there were;
    it is then the one event [getEventsAfter] finds above the previous keys,
    and the first [getEventsBefore] finds below the new generator value. *)
Theorem add_then_query_returns_the_event gid v aggFate (s : System V D) :
  store_db (eventStore s) = true ->
  store_invariant (eventsDisk s) ->
  (forall r, In r (records (eventsDisk s)) -> globalId r <> gid) ->
  let key := keyGenerator (eventsDisk s) in
  let s' := fst (fst (add gid v StoreCommits aggFate s)) in
  snd (add gid v StoreCommits aggFate s) = Resolved tt /\
  records (eventsDisk s') = records (eventsDisk s) ++ [mkEvent key gid v] /\
  keyGenerator (eventsDisk s') = key + 1 /\
  getEventsAfter (key - 1) None s' = Resolved [mkEvent key gid v] /\
  getEventsBefore (key + 1) (Some 1) s' = Resolved [mkEvent key gid v].
Proof.
  intros Hdb Hinv Hfresh key s'.
  pose proof (fresh_globalId_accepted _ gid v Hfresh) as Hadd. fold key in Hadd.
  assert (Hres : snd (add gid v StoreCommits aggFate s) = Resolved tt /\
                 eventsDisk s' = mkEventsDb (records (eventsDisk s) ++ [mkEvent key gid v])
                                            (key + 1)).
  { subst s'. split.
    - rewrite (add_unfold gid v StoreCommits aggFate s Hdb), Hadd. reflexivity.
    - rewrite (proj2 (proj2 (add_store gid v StoreCommits aggFate s))), Hdb, Hadd.
      reflexivity. }
  destruct Hres as [Hp Hdisk].
  assert (Hst : store_db (eventStore s') = true).
  { subst s'. now rewrite (proj1 (add_store_cases gid v StoreCommits aggFate s)). }
  destruct (idb_add_store_invariant _ _ _ _ _ Hinv Hadd) as (_ & _ & _ & Hlow & Hinv').
  rewrite <- Hdisk in Hinv', Hlow. destruct Hinv' as (_ & Hids' & _).
  split; [exact Hp|]. rewrite Hdisk. simpl. split; [reflexivity|]. split; [reflexivity|].
  unfold getEventsAfter, getEventsBefore. rewrite !getEvents_cursor by exact Hst.
  cbv zeta. simpl includes. simpl Z.eqb. simpl Z.ltb. cbv iota.
  rewrite (filter_above _ _ (key - 1) Hids'), (filter_below _ _ (key + 1) Hids').
  rewrite Hlow, Hdisk. simpl records.
  unfold lowest_key. fold key.
  set (n := List.length (records (eventsDisk s))).
  replace (Z.to_nat (key - 1 + 1 - (key - Z.of_nat n))) with (n + 0)%nat by lia.
  replace (Z.to_nat (key + 1 - (key - Z.of_nat n)))
    with (List.length (records (eventsDisk s) ++ [mkEvent key gid v]))
    by (rewrite length_app; simpl; lia).
  subst n. rewrite skipn_app, skipn_all2 by lia.
  replace (List.length (records (eventsDisk s)) + 0
           - List.length (records (eventsDisk s)))%nat with O by lia.
  rewrite firstn_all, rev_app_distr. split; reflexivity.
Qed.


End StoreRoundTrip.

Lemma listen_running_store_invariant : store_invariant (eventsDisk listen_running).
Proof.
  split; [unfold lowest_key; simpl; lia|]. split; [reflexivity|].
  simpl. constructor; [intros [] | constructor].
Qed.

Lemma add_then_query_returns_the_event_witness :
  store_db (eventStore listen_running) = true /\
  store_invariant (eventsDisk listen_running) /\
  (forall r, In r (records (eventsDisk listen_running)) -> globalId r <> "g2"%string) /\
  getEventsBefore 3 (Some 1)
    (fst (fst (add (C := MusicListen) "g2" "song2"%string StoreCommits Commits
                   listen_running)))
  = Resolved [mkEvent 2 "g2" "song2"%string].
Proof.
  assert (Hfresh : forall r, In r (records (eventsDisk listen_running)) ->
                             globalId r <> "g2"%string)
    by (intros r [<-|[]]; discriminate).
  split; [reflexivity|]. split; [exact listen_running_store_invariant|].
  split; [exact Hfresh|].
  pose proof (add_then_query_returns_the_event (C := MusicListen) "g2" "song2"%string
                Commits listen_running eq_refl listen_running_store_invariant Hfresh) as H.
  cbv zeta in H. destruct H as (_ & _ & _ & _ & H). exact H.
Defined.


(** ** Listeners *)

Lemma set_has_In {T} (eqb : T -> T -> bool) x s :
  eqb_correct eqb -> (set_has eqb x s = true <-> In x s).
Proof.
  intros Heq. induction s as [|y s IH]; simpl; [intuition discriminate|].
  rewrite orb_true_iff, IH, (Heq x y). intuition congruence.
Qed.

Lemma set_add_spec {T} (eqb : T -> T -> bool) x s :
  eqb_correct eqb ->
  (forall y, In y (set_add eqb x s) <-> y = x \/ In y s) /\
  (NoDup s -> NoDup (set_add eqb x s)) /\
  set_add eqb x (set_add eqb x s) = set_add eqb x s.
Proof.
  intros Heq. unfold set_add.
  destruct (set_has eqb x s) eqn:Hhas.
  - apply (set_has_In eqb x s Heq) in Hhas. rewrite (proj2 (set_has_In eqb x s Heq) Hhas).
    repeat split; auto. intros [->|]; auto.
  - assert (Hnot : ~ In x s)
      by (intros Hin; apply (set_has_In eqb x s Heq) in Hin; congruence).
    assert (Hin : set_has eqb x (s ++ [x]) = true)
      by (apply (set_has_In eqb x _ Heq), in_or_app; right; now left).
    rewrite Hin. split; [|split; [|reflexivity]].
    + intros y. rewrite in_app_iff. simpl. intuition congruence.
    + intros Hnd. apply NoDup_app; [exact Hnd | repeat constructor; auto |].
      intros a Ha [<-|[]]. contradiction.
Qed.

Lemma set_delete_spec {T} (eqb : T -> T -> bool) x s :
  eqb_correct eqb ->
  (forall y, In y (set_delete eqb x s) <-> In y s /\ y <> x) /\
  (NoDup s -> NoDup (set_delete eqb x s)).
Proof.
  intros Heq. unfold set_delete. split.
  - intros y. rewrite filter_In, negb_true_iff.
    destruct (eqb x y) eqn:E.
    + apply Heq in E. intuition congruence.
    + assert (y <> x) by (intros ->; rewrite (proj2 (Heq x x) eq_refl) in E; discriminate).
      tauto.
  - apply NoDup_filter.
Qed.

Lemma StoreListener_eqb_correct : eqb_correct StoreListener_eqb.
Proof.
  intros [|x] [|y]; simpl; try (split; [discriminate | congruence]); [tauto|].
  rewrite Nat.eqb_eq. split; congruence.
Qed.

Lemma Nat_eqb_correct : eqb_correct Nat.eqb.
Proof. intros x y. apply Nat.eqb_eq. Qed.

Section Listeners.

Context {V A D : Type} `{C : Consumer V A D}.

(** When the request of [add] succeeds, every listener subscribed to the
    store is called exactly once with the stored event, in the order of
    subscription, whether or not other listeners raise; when it fails, none
    is called. *)
Theorem add_calls_each_listener_once gid v fate aggFate (s : System V D) :
  store_db (eventStore s) = true ->
  filter is_StoreListenerCalled (snd (fst (add gid v fate aggFate s)))
  = match idb_add (eventsDisk s) gid v, fate with
    | None, _ | _, StoreRequestFails => []
    | Some (key, _), _ =>
        map (fun l => StoreListenerCalled l (mkEvent key gid v))
            (store_listeners (eventStore s))
    end.
Proof.
  intros Hdb.
  destruct (idb_add (eventsDisk s) gid v) as [[key db']|] eqn:Hadd;
    [|rewrite (add_unfold gid v fate aggFate s Hdb), Hadd; destruct fate; reflexivity].
  assert (Hcases : fate = StoreRequestFails \/ fate <> StoreRequestFails)
    by (destruct fate; auto; right; discriminate).
  destruct Hcases as [->|Hfate];
    [rewrite (add_unfold gid v _ aggFate s Hdb), Hadd; reflexivity|].
  destruct (add_shows gid v fate aggFate s key db' Hdb Hadd Hfate) as (later & -> & Hlater).
  destruct (broadcast_shape (mkEvent key gid v) s (store_listeners (eventStore s)))
    as (_ & _ & _ & Hcalls & _).
  assert (Hq : filter is_StoreListenerCalled later = []).
  { apply quiet_no_store_listener. eapply Forall_impl; [|exact Hlater]. now intros e [He _]. }
  cbn [filter is_StoreListenerCalled]. rewrite !filter_app, Hcalls, Hq.
  cbn [filter is_StoreListenerCalled]. rewrite !app_nil_r.
  destruct fate; [reflexivity | congruence | reflexivity].
Qed.

(** [subscribe] adds to a set and the function it returns removes from it:
    a second [subscribe] of the same listener changes nothing, no listener
    is ever held twice, a removed listener is gone and the others stay. *)
Theorem store_subscriptions_form_a_set (st : EventStore) l :
  NoDup (store_listeners st) ->
  EventStore_subscribe l (EventStore_subscribe l st) = EventStore_subscribe l st /\
  NoDup (store_listeners (EventStore_subscribe l st)) /\
  NoDup (store_listeners (EventStore_unsubscribe l st)) /\
  In l (store_listeners (EventStore_subscribe l st)) /\
  ~ In l (store_listeners (EventStore_unsubscribe l st)) /\
  (forall l', l' <> l ->
     (In l' (store_listeners (EventStore_subscribe l st)) <-> In l' (store_listeners st)) /\
     (In l' (store_listeners (EventStore_unsubscribe l st)) <-> In l' (store_listeners st))).
Proof.
  intros Hnd.
  destruct (set_add_spec StoreListener_eqb l (store_listeners st) StoreListener_eqb_correct)
    as (Hin & Hnd' & Hidem).
  destruct (set_delete_spec StoreListener_eqb l (store_listeners st)
              StoreListener_eqb_correct) as (Hdel & Hnd'').
  unfold EventStore_subscribe, EventStore_unsubscribe, with_store_listeners. simpl.
  split; [now rewrite Hidem|]. split; [auto|]. split; [auto|].
  split; [apply Hin; now left|]. split; [rewrite Hdel; tauto|].
  intros l' Hne. rewrite Hin, Hdel. tauto.
Qed.

(** The calls of a notification are blocks, one per change and listener: the
    call, followed by the log line if the listener raised. *)
Lemma notifyListeners_blocks (ag : EventAggregator) (changes : list A) :
  EventAggregator_notifyListeners (V := V) ag changes
  = flat_map (fun p => ListenerCalled (snd p) (fst p) ::
                       (if listenerThrows (snd p)
                        then [ConsoleError "Error in listener:"] else []))
             (flat_map (fun c => map (pair c) (agg_listeners ag)) changes).
Proof.
  unfold EventAggregator_notifyListeners.
  assert (Hone : forall (c : A) ls,
            flat_map (fun listener =>
                        @ListenerCalled V A listener c ::
                        (if listenerThrows listener
                         then [ConsoleError "Error in listener:"] else [])) ls
            = flat_map (fun p => ListenerCalled (snd p) (fst p) ::
                                 (if listenerThrows (snd p)
                                  then [ConsoleError "Error in listener:"] else []))
                       (map (pair c) ls)).
  { intros c ls. induction ls as [|l ls IHl]; [reflexivity|].
    cbn [flat_map map fst snd]. now rewrite IHl. }
  induction changes as [|c changes IH]; [reflexivity|].
  cbn [flat_map]. rewrite flat_map_app, IH. f_equal. apply Hone.
Qed.

(** In a sequence of such blocks, what follows a call is the log line exactly
    when the listener called raises. *)
Lemma blocks_after_call (ps : list (A * nat)) : forall pre l c post,
  flat_map (fun p => @ListenerCalled V A (snd p) (fst p) ::
                     (if listenerThrows (snd p)
                      then [ConsoleError "Error in listener:"] else [])) ps
  = pre ++ ListenerCalled l c :: post ->
  if listenerThrows l
  then exists post', post = ConsoleError "Error in listener:" :: post'
  else forall post', post <> ConsoleError "Error in listener:" :: post'.
Proof.
  induction ps as [|[c0 l0] ps IH]; intros pre l c post Heq.
  - destruct pre; discriminate.
  - cbn [flat_map fst snd] in Heq.
    assert (Hhead : forall rest,
              flat_map (fun p => @ListenerCalled V A (snd p) (fst p) ::
                          (if listenerThrows (snd p)
                           then [ConsoleError "Error in listener:"] else [])) ps
              <> ConsoleError "Error in listener:" :: rest).
    { intros rest. destruct ps as [|[c1 l1] ps']; discriminate. }
    destruct pre as [|e pre].
    + simpl in Heq. injection Heq as <- <- <-.
      destruct (listenerThrows l0); [eexists; reflexivity | exact Hhead].
    + simpl in Heq. injection Heq as <- Heq.
      destruct (listenerThrows l0).
      * destruct pre as [|e' pre]; [discriminate|].
        simpl in Heq. injection Heq as <- Heq. eapply IH; eauto.
      * simpl in Heq. eapply IH; eauto.
Qed.

(** [notifyListeners(changes)] of the aggregator calls every listener once
    for every change, change by change and in the order of subscription.  A
    listener that raises is logged right after its call, with 'Error in
    listener:', and the listeners after it are still called; nothing is
    logged after a listener that returns, and nothing else happens. *)
Theorem notifyListeners_calls_every_listener (ag : EventAggregator) (changes : list A) :
  filter is_ListenerCalled (EventAggregator_notifyListeners (V := V) ag changes)
  = flat_map (fun updated => map (fun l => ListenerCalled l updated) (agg_listeners ag))
             changes /\
  (forall e, In e (EventAggregator_notifyListeners (V := V) ag changes) ->
             is_ListenerCalled e = true \/ e = ConsoleError "Error in listener:") /\
  (forall pre l c post,
     EventAggregator_notifyListeners (V := V) ag changes
     = pre ++ ListenerCalled l c :: post ->
     if listenerThrows l
     then exists post', post = ConsoleError "Error in listener:" :: post'
     else forall post', post <> ConsoleError "Error in listener:" :: post') /\
  List.length (filter (fun e => negb (is_ListenerCalled e))
                 (EventAggregator_notifyListeners (V := V) ag changes))
  = (List.length changes * List.length (filter listenerThrows (agg_listeners ag)))%nat.
Proof.
  split; [|split; [|split]].
  - unfold EventAggregator_notifyListeners.
    assert (Hone : forall c : A,
              filter is_ListenerCalled
                (flat_map (fun listener =>
                   @ListenerCalled V A listener c ::
                   (if listenerThrows listener
                    then [ConsoleError "Error in listener:"] else []))
                   (agg_listeners ag))
              = map (fun l => ListenerCalled l c) (agg_listeners ag)).
    { intros c. induction (agg_listeners ag) as [|l ls IHl]; [reflexivity|].
      simpl. rewrite filter_app, IHl. destruct (listenerThrows l); reflexivity. }
    induction changes as [|c changes IH]; [reflexivity|].
    simpl. rewrite filter_app, IH, Hone. reflexivity.
  - unfold EventAggregator_notifyListeners.
    intros e He. apply in_flat_map in He as (c & _ & He).
    apply in_flat_map in He as (l & _ & He).
    destruct He as [<-|He]; [now left|].
    destruct (listenerThrows l); [destruct He as [<-|[]]; now right | destruct He].
  - intros pre l c post Heq. rewrite notifyListeners_blocks in Heq.
    eapply blocks_after_call; eauto.
  - unfold EventAggregator_notifyListeners.
    assert (Hone : forall c : A,
              List.length
                (filter (fun e => negb (is_ListenerCalled e))
                   (flat_map (fun listener =>
                      @ListenerCalled V A listener c ::
                      (if listenerThrows listener
                       then [ConsoleError "Error in listener:"] else []))
                      (agg_listeners ag)))
              = List.length (filter listenerThrows (agg_listeners ag))).
    { intros c. induction (agg_listeners ag) as [|l ls IHl]; [reflexivity|].
      cbn [flat_map filter is_ListenerCalled negb]. rewrite filter_app, length_app, IHl.
      destruct (listenerThrows l); reflexivity. }
    induction changes as [|c changes IH]; [reflexivity|].
    cbn [flat_map]. rewrite filter_app, length_app, IH, Hone. simpl. reflexivity.
Qed.

Lemma step_store_flag (op : Op V) (s : System V D) :
  store_initializationSucceeded (eventStore (fst (fst (step op s))))
  = store_initializationSucceeded (eventStore s).
Proof.
  destruct op; simpl; try reflexivity.
  - unfold EventStore_initialize. destruct (store_initializationTried _); [reflexivity|].
    destruct openError; reflexivity.
  - now rewrite (proj1 (add_store_cases gid v fate aggFate s)).
  - unfold cleanupOldData. destruct (negb _); [reflexivity|].
    destruct (_ <=? _); reflexivity.
  - unfold EventAggregator_initialize. destruct (agg_initializationTried _); [reflexivity|].
    destruct outcome; reflexivity.
  - unfold EventAggregator_openSuccess. destruct (aggOpening s); reflexivity.
  - now rewrite handleNewEvent_eventStore.
  - now rewrite (proj2 (processEvents_eventsDisk fate s)).
Qed.

(** No method of [EventStore] sets [_initializationSucceeded]: after any
    calls on a store constructed with the flag false,
    [isInitializationSucceeded()] is still false; so the boot effect of the
    provider, which starts the catch-up timer only if both objects report
    success, never calls [startProcessing]. *)
Theorem store_never_reports_success (ops : list (Op V)) : forall (s : System V D),
  store_initializationSucceeded (eventStore s) = false ->
  store_initializationSucceeded (eventStore (fst (fst (run ops s)))) = false /\
  (forall hasBoot, ~ In StartProcessing (bootEffect hasBoot (fst (fst (run ops s))))).
Proof.
  induction ops as [|op ops IH]; intros s Hflag.
  - simpl. split; [exact Hflag|]. intros hasBoot. unfold bootEffect. rewrite Hflag.
    destruct hasBoot; [intros []|]. destruct (_ || _); [intros []|]. simpl.
    destruct (negb (agg_initializationSucceeded _)); simpl; intuition discriminate.
  - simpl. pose proof (step_store_flag op s) as Hstep.
    destruct (step op s) as [[s1 eff1] r1]. simpl in Hstep.
    specialize (IH s1). rewrite Hstep in IH. specialize (IH Hflag).
    destruct (run ops s1) as [[s2 eff2] rs]. exact IH.
Qed.

End Listeners.

(** ** The engine in operation *)

Lemma sweep_within lo hi rest : forall cur,
  ranges_within lo hi (cur :: rest) -> ranges_within lo hi (sweep cur rest).
Proof.
  unfold ranges_within.
  induction rest as [|n rest IH]; intros cur Hall; simpl; [exact Hall|].
  inversion Hall as [|? ? Hcur Hrest]; subst.
  inversion Hrest as [|? ? Hn Hrest']; subst.
  destruct (end_ cur + 1 >=? start n).
  - apply IH. constructor; [simpl; lia | exact Hrest'].
  - constructor; [exact Hcur | apply IH; exact Hrest].
Qed.

Lemma updateProcessedRanges_within lo hi l s e :
  ranges_within lo hi l -> lo <= s -> e <= hi ->
  ranges_within lo hi (updateProcessedRanges l s e).
Proof.
  intros Hl Hs He.
  destruct (updateProcessedRanges_sweep l s e) as (cur & rest & Hsort & ->).
  apply sweep_within. rewrite <- Hsort. unfold ranges_within in *.
  rewrite Forall_forall in *. intros r Hr.
  apply In_sort_ranges, in_app_or in Hr as [Hr|[<-|[]]]; simpl; auto.
Qed.

Lemma ranges_within_weaken lo hi hi' l :
  ranges_within lo hi l -> hi <= hi' -> ranges_within lo hi' l.
Proof.
  unfold ranges_within. intros H Hle. eapply Forall_impl; [|exact H].
  simpl. intros r. lia.
Qed.

Lemma map_last {T U} (f : T -> U) (l : list T) (d : T) :
  f (last l d) = last (map f l) (f d).
Proof.
  induction l as [|a l IH]; [reflexivity|].
  destruct l as [|b l]; [reflexivity|]. exact IH.
Qed.

Section EngineFacts.

Context {V A D : Type} `{C : Consumer V A D}.

(** What [getEventsBefore] returns on a store with consecutive keys, for any
    limit: a run of keys downwards from just below the bound (or from the
    newest key), that does not go below the oldest key, and is no longer than
    a limit of 1 or more. *)
Lemma getEventsBefore_shape (s : System V D) c limit evs :
  store_invariant (eventsDisk s) ->
  getEventsBefore c limit s = Resolved evs ->
  (forall ev, In ev evs -> In ev (records (eventsDisk s))) /\
  exists k,
    map localId evs = countdown (Z.min c (keyGenerator (eventsDisk s)) - 1) k /\
    Z.of_nat k <= Z.min c (keyGenerator (eventsDisk s)) - lowest_key (eventsDisk s)
    \/ (k = O /\ evs = []).
Proof.
  intros (Hlo & Hids & _) Hevs. split.
  { intros ev. eapply getEvents_stored. exact Hevs. }
  unfold getEventsBefore in Hevs.
  assert (Hdb : store_db (eventStore s) = true).
  { unfold getEvents in Hevs. destruct (store_db _); [reflexivity | discriminate]. }
  rewrite getEvents_cursor in Hevs by exact Hdb. cbv zeta in Hevs.
  simpl includes in Hevs. rewrite (filter_below _ _ c Hids) in Hevs.
  set (cursor := rev (firstn (Z.to_nat (c - lowest_key (eventsDisk s)))
                             (records (eventsDisk s)))) in *.
  assert (Hpre : exists j, evs = firstn j cursor).
  { injection Hevs as <-. destruct limit as [L|]; [|exists (List.length cursor); now rewrite firstn_all].
    destruct (L =? 0); [exists (List.length cursor); now rewrite firstn_all|].
    destruct (L <? 0); [exists 1%nat | exists (Z.to_nat L)]; reflexivity. }
  destruct Hpre as (j & ->).
  subst cursor. rewrite <- firstn_map, (ids_rev_firstn _ _ _ Hids), firstn_countdown.
  unfold lowest_key in *.
  set (n := List.length (records (eventsDisk s))) in *.
  set (g := keyGenerator (eventsDisk s)) in *.
  assert (Hq : Nat.min (Z.to_nat (c - (g - Z.of_nat n))) n
               = Z.to_nat (Z.min c g - (g - Z.of_nat n))) by lia.
  rewrite Hq.
  destruct (Z.to_nat (Z.min c g - (g - Z.of_nat n))) as [|q] eqn:Eq.
  - exists O. rewrite Nat.min_0_r. right. split; [reflexivity|].
    apply length_zero_iff_nil. rewrite length_firstn, length_rev, length_firstn. fold n. lia.
  - exists (Nat.min j (S q)). left. split; [f_equal; lia | lia].
Qed.


(** The ids of a non-empty batch: it runs downwards from the first to the
    last, both are keys of the store. *)
Lemma batch_bounds (s : System V D) c limit first evs :
  store_invariant (eventsDisk s) ->
  getEventsBefore c limit s = Resolved (first :: evs) ->
  localId first = Z.min c (keyGenerator (eventsDisk s)) - 1 /\
  localId (last (first :: evs) first) = localId first - Z.of_nat (List.length evs) /\
  lowest_key (eventsDisk s) <= localId (last (first :: evs) first) /\
  (forall ev, In ev (first :: evs) ->
     localId (last (first :: evs) first) <= localId ev <= localId first).
Proof.
  intros Hinv Hevs.
  destruct (getEventsBefore_shape s c limit _ Hinv Hevs) as (_ & k & [[Hids Hk]|[_ ?]]);
    [|discriminate].
  pose proof (f_equal (@List.length Z) Hids) as Hlen.
  rewrite length_map, countdown_length in Hlen. simpl in Hlen. subst k.
  destruct (countdown_first_last (Z.min c (keyGenerator (eventsDisk s)) - 1)
              (S (List.length evs)) (localId first)) as [Hhd Hlast]; [lia|].
  rewrite <- Hids in Hhd, Hlast. simpl hd in Hhd.
  rewrite <- (map_last localId (first :: evs) first) in Hlast.
  split; [exact Hhd|]. split; [lia|]. split; [lia|].
  intros ev Hev. apply (in_map localId) in Hev. rewrite Hids in Hev.
  apply In_countdown in Hev. lia.
Qed.

End EngineFacts.

Section EngineInvariant.

Context {V A D : Type} `{C : Consumer V A D}.

Lemma store_invariant_generator (db : EventsDb V) :
  store_invariant db -> 1 <= keyGenerator db.
Proof. intros (Hlo & _). unfold lowest_key in Hlo. lia. Qed.

(** What an insert of a valid interval does to an invariant state. *)
Lemma insert_keeps_engine_shape l kg s e persisted (succeeded : bool) :
  well_formed l -> ranges_within 1 kg l -> 1 <= s -> s <= e -> e <= kg ->
  (succeeded = true -> forall z, covered persisted z -> covered l z) ->
  well_formed (updateProcessedRanges l s e) /\
  ranges_within 1 kg (updateProcessedRanges l s e) /\
  (forall z, covered l z -> covered (updateProcessedRanges l s e) z) /\
  (succeeded = true ->
   forall z, covered persisted z -> covered (updateProcessedRanges l s e) z).
Proof.
  intros Hwf Hin Hs Hse He Hlag. pose proof (well_formed_valid _ Hwf) as Hv.
  split; [now apply updateProcessedRanges_well_formed|].
  split; [now apply updateProcessedRanges_within|].
  assert (Hmono : forall z, covered l z -> covered (updateProcessedRanges l s e) z)
    by (intros z Hz; apply updateProcessedRanges_covered; auto).
  split; [exact Hmono|]. auto.
Qed.

Lemma handleNewEvent_engine_invariant ev fate (s : System V D) :
  engine_invariant s ->
  1 <= localId ev <= keyGenerator (eventsDisk s) ->
  engine_invariant (fst (fst (handleNewEvent ev fate s))) /\
  (forall z, covered (processedRanges (aggregator s)) z ->
             covered (processedRanges (aggregator (fst (fst (handleNewEvent ev fate s))))) z).
Proof.
  intros Hinv Hid. unfold handleNewEvent.
  destruct (agg_db (aggregator s)) eqn:Hdb; cbn [negb]; [|auto].
  destruct (processEvent (stores (aggDisk s)) ev) as [err|d' c]; [auto|].
  destruct Hinv as (Hstore & Hwf & Hin & Hnew & Hdisk).
  assert (Htried : agg_initializationTried (aggregator s) = true).
  { destruct (agg_initializationTried (aggregator s)) eqn:E; [reflexivity|].
    destruct (Hnew eq_refl) as (_ & Hdb' & _). congruence. }
  destruct (insert_keeps_engine_shape _ _ (localId ev) (localId ev) []
              false Hwf Hin) as (Hwf' & Hin' & Hmono & _); try lia; try discriminate.
  destruct fate; cbn [fst snd]; (split; [|exact Hmono]);
    (split; [exact Hstore|]); (split; [exact Hwf'|]); (split; [exact Hin'|]);
    (split; [simpl; intros Ht; rewrite Htried in Ht; discriminate|]); simpl.
  - intros l [= <-]. auto.
  - intros l Hl. destruct (Hdisk l Hl) as (H1 & H2 & H3). auto.
  - intros l Hl. destruct (Hdisk l Hl) as (H1 & H2 & H3). auto.
Qed.

Lemma processEvents_engine_invariant fate (s : System V D) :
  engine_invariant s ->
  engine_invariant (fst (fst (processEvents fate s))) /\
  (forall z, covered (processedRanges (aggregator s)) z ->
             covered (processedRanges (aggregator (fst (fst (processEvents fate s))))) z).
Proof.
  intros Hinv. unfold processEvents.
  destruct (agg_db (aggregator s)) eqn:Hdb; cbn [negb]; [|auto].
  destruct (isFullyCovered _).
  { unfold stopProcessing. destruct (processingIntervalId _); auto. }
  destruct (findRangeToProcess _) as [|[range|]|msg]; auto.
  destruct (getEventsBefore _ _ s) as [|evs0|msg] eqn:Hevs; auto.
  destruct evs0 as [|first evs]; [auto|].
  destruct (foldEvents (first :: evs) (stores (aggDisk s)) []) as [[calls [d'|]] items];
    [|auto].
  destruct Hinv as (Hstore & Hwf & Hin & Hnew & Hdisk).
  destruct (batch_bounds s _ _ first evs Hstore Hevs) as (Hfirst & Hlast & Hlow & _).
  pose proof Hstore as (Hlo & _).
  assert (Htried : agg_initializationTried (aggregator s) = true).
  { destruct (agg_initializationTried (aggregator s)) eqn:E; [reflexivity|].
    destruct (Hnew eq_refl) as (_ & Hdb' & _). congruence. }
  set (ranges' := if Z.of_nat (List.length (first :: evs)) <? batchSize (aggregator s)
                  then updateProcessedRanges (processedRanges (aggregator s)) 1
                         (localId first)
                  else updateProcessedRanges (processedRanges (aggregator s))
                         (localId (last (first :: evs) first)) (localId first)).
  assert (Hshape : well_formed ranges' /\
                   ranges_within 1 (keyGenerator (eventsDisk s)) ranges' /\
                   (forall z, covered (processedRanges (aggregator s)) z ->
                              covered ranges' z)).
  { subst ranges'. destruct (_ <? _).
    - destruct (insert_keeps_engine_shape _ _ 1 (localId first) [] false Hwf Hin)
        as (H1 & H2 & H3 & _); try lia; try discriminate; auto.
    - destruct (insert_keeps_engine_shape _ _ (localId (last (first :: evs) first))
                  (localId first) [] false Hwf Hin)
        as (H1 & H2 & H3 & _); try lia; try discriminate; auto. }
  destruct Hshape as (Hwf' & Hin' & Hmono).
  destruct fate; cbn [fst snd]; (split; [|exact Hmono]);
    (split; [exact Hstore|]); (split; [exact Hwf'|]); (split; [exact Hin'|]);
    (split; [simpl; intros Ht; rewrite Htried in Ht; discriminate|]); simpl.
  - intros l [= <-]. auto.
  - intros l Hl. destruct (Hdisk l Hl) as (H1 & H2 & H3). auto.
  - intros l Hl. destruct (Hdisk l Hl) as (H1 & H2 & H3). auto.
Qed.

Lemma engine_invariant_new_disk (s : System V D) db' :
  engine_invariant s -> store_invariant db' ->
  keyGenerator (eventsDisk s) <= keyGenerator db' ->
  engine_invariant (with_eventsDisk s db').
Proof.
  intros (Hstore & Hwf & Hin & Hnew & Hdisk) Hstore' Hle.
  split; [exact Hstore'|]. split; [exact Hwf|].
  split; [eapply ranges_within_weaken; eauto|]. split; [exact Hnew|].
  intros l Hl. destruct (Hdisk l Hl) as (H1 & H2 & H3).
  split; [exact H1|]. split; [eapply ranges_within_weaken; eauto | exact H3].
Qed.

Lemma add_engine_invariant gid v fate aggFate (s : System V D) :
  engine_invariant s ->
  engine_invariant (fst (fst (add gid v fate aggFate s))) /\
  (forall z, covered (processedRanges (aggregator s)) z ->
             covered (processedRanges (aggregator (fst (fst (add gid v fate aggFate s))))) z).
Proof.
  intros Hinv.
  enough (H : (engine_invariant (fst (fst (add gid v fate aggFate s))) /\
               keyGenerator (eventsDisk s)
               <= keyGenerator (eventsDisk (fst (fst (add gid v fate aggFate s))))) /\
              (forall z, covered (processedRanges (aggregator s)) z ->
                 covered (processedRanges
                            (aggregator (fst (fst (add gid v fate aggFate s))))) z))
    by (destruct H as [[H1 _] H2]; auto).
  apply (add_keeps
           (fun s' => (engine_invariant s' /\
                       keyGenerator (eventsDisk s) <= keyGenerator (eventsDisk s')) /\
                      (forall z, covered (processedRanges (aggregator s)) z ->
                                 covered (processedRanges (aggregator s')) z))).
  { split; [split; [exact Hinv | lia] | auto]. }
  intros key db' Hadd.
  pose proof Hinv as (Hstore & _).
  destruct (idb_add_store_invariant _ _ _ _ _ Hstore Hadd) as (Hkey & _ & Hg & _ & Hstore').
  pose proof (store_invariant_generator _ Hstore) as Hgen.
  split.
  - split; [split; [|simpl; lia] | auto].
    apply engine_invariant_new_disk; [exact Hinv | exact Hstore' | lia].
  - intros s0 _ ((Hinv0 & Hle) & Hmono).
    destruct (handleNewEvent_engine_invariant (mkEvent key gid v) aggFate s0 Hinv0)
      as [H1 H2]; [simpl; lia|].
    split; [split; [exact H1 | now rewrite handleNewEvent_eventsDisk] | auto].
Qed.

Lemma step_engine_invariant (op : Op V) (s : System V D) :
  engine_invariant s -> op_admissible op s ->
  engine_invariant (fst (fst (step op s))) /\
  (forall z, covered (processedRanges (aggregator s)) z ->
             covered (processedRanges (aggregator (fst (fst (step op s))))) z).
Proof.
  intros Hinv Hop. destruct op; simpl; try (split; [exact Hinv | auto]).
  - now apply add_engine_invariant.
  - destruct (cleanupOldData_store_invariant keepLatest s (proj1 Hinv)) as [H1 H2].
    unfold cleanupOldData in *. destruct (negb _); [auto|].
    destruct (_ <=? _); [auto|]. simpl in *. split; [|auto].
    apply (engine_invariant_new_disk s _ Hinv H1). simpl. lia.
  - unfold EventAggregator_initialize.
    destruct (agg_initializationTried (aggregator s)) eqn:Htried; [auto|].
    destruct Hinv as (Hstore & Hwf & Hin & Hnew & Hdisk).
    destruct (Hnew Htried) as (Hmem & Hdb & Hopening).
    destruct outcome as [|err|err|err]; simpl.
    + split; [|rewrite Hmem; intros z Hz; now apply covered_nil in Hz].
      split; [exact Hstore|].
      destruct (metadata (aggDisk s)) as [l|] eqn:Hmeta.
      * destruct (Hdisk l eq_refl) as (H1 & H2 & _).
        split; [exact H1|]. split; [exact H2|]. split; [discriminate|].
        intros l' Hl'. simpl in Hl'. rewrite Hmeta in Hl'. injection Hl' as <-.
        simpl. auto.
      * split; [constructor|]. split; [constructor|]. split; [discriminate|].
        intros l' Hl'. simpl in Hl'. congruence.
    + split; [|auto]. split; [exact Hstore|]. split; [exact Hwf|]. split; [exact Hin|].
      split; [discriminate | exact Hdisk].
    + split; [|auto]. split; [exact Hstore|]. split; [exact Hwf|]. split; [exact Hin|].
      split; [discriminate | exact Hdisk].
    + split; [|auto]. split; [exact Hstore|]. split; [exact Hwf|]. split; [exact Hin|].
      split; [discriminate | exact Hdisk].
  - unfold EventAggregator_openSuccess.
    destruct (aggOpening s) eqn:Hopening; [|auto]. simpl. split; [|auto].
    destruct Hinv as (Hstore & Hwf & Hin & Hnew & Hdisk).
    split; [exact Hstore|]. split; [exact Hwf|]. split; [exact Hin|].
    split; [|exact Hdisk]. simpl. intros Ht. destruct (Hnew Ht) as (_ & _ & H). congruence.
  - unfold startProcessing. destruct (processingIntervalId _); auto.
  - unfold stopProcessing. destruct (processingIntervalId _); auto.
  - now apply handleNewEvent_engine_invariant.
  - now apply processEvents_engine_invariant.
  - split; [|auto]. destruct Hinv as (Hstore & Hwf & Hin & Hnew & Hdisk).
    split; [exact Hstore|]. split; [exact Hwf|]. split; [exact Hin|].
    split; [|exact Hdisk]. simpl. intros Ht. destruct (Hnew Ht) as (H1 & _ & H3). auto.
Qed.

Lemma run_engine_invariant (ops : list (Op V)) : forall (s : System V D),
  engine_invariant s -> admissible ops s ->
  engine_invariant (fst (fst (run ops s))) /\
  (forall z, covered (processedRanges (aggregator s)) z ->
             covered (processedRanges (aggregator (fst (fst (run ops s))))) z).
Proof.
  induction ops as [|op ops IH]; intros s Hinv Hadm; simpl; [auto|].
  destruct Hadm as [Hop Hadm].
  destruct (step_engine_invariant op s Hinv Hop) as [H1 H2].
  destruct (step op s) as [[s1 eff1] r1]. simpl in *.
  destruct (IH s1 H1 Hadm) as [H3 H4].
  destruct (run ops s1) as [[s2 eff2] rs]. simpl in *. auto.
Qed.

Lemma new_engine_invariant (d0 : D) bs : engine_invariant (newSystem (V := V) d0 bs).
Proof.
  split; [apply new_store_invariant|]. split; [constructor|]. split; [constructor|].
  split; [auto|]. intros l Hl. discriminate.
Qed.

End EngineInvariant.

Section EngineProperties.

Context {V A D : Type} `{C : Consumer V A D}.

(** Along any run of admissible calls from an invariant state (the
    constructors' state is one), the coverage list of the object and the
    persisted one stay well-formed, and every interval lies between 1 and the
    key generator. *)
Theorem coverage_stays_well_formed (ops : list (Op V)) (s : System V D) :
  engine_invariant s -> admissible ops s ->
  well_formed (processedRanges (aggregator (fst (fst (run ops s))))) /\
  ranges_within 1 (keyGenerator (eventsDisk (fst (fst (run ops s)))))
    (processedRanges (aggregator (fst (fst (run ops s))))) /\
  (forall l, metadata (aggDisk (fst (fst (run ops s)))) = Some l ->
     well_formed l /\
     ranges_within 1 (keyGenerator (eventsDisk (fst (fst (run ops s))))) l).
Proof.
  intros Hinv Hadm.
  destruct (run_engine_invariant ops s Hinv Hadm) as [(_ & Hwf & Hin & _ & Hdisk) _].
  split; [exact Hwf|]. split; [exact Hin|].
  intros l Hl. destruct (Hdisk l Hl) as (H1 & H2 & _). auto.
Qed.

(** Along such a run the coverage in memory only grows: an id that is
    covered stays covered, whatever is called and whatever fails. *)
Theorem coverage_never_shrinks (ops : list (Op V)) (s : System V D) z :
  engine_invariant s -> admissible ops s ->
  covered (processedRanges (aggregator s)) z ->
  covered (processedRanges (aggregator (fst (fst (run ops s))))) z.
Proof.
  intros Hinv Hadm. apply (run_engine_invariant ops s Hinv Hadm).
Qed.

(** Once initialization has succeeded, the persisted coverage never runs
    ahead of the coverage in memory: every id the ['ProcessedRanges'] record
    covers is covered by the list of the object. *)
Theorem persisted_coverage_is_covered_in_memory (ops : list (Op V)) (s : System V D) l z :
  engine_invariant s -> admissible ops s ->
  agg_initializationSucceeded (aggregator (fst (fst (run ops s)))) = true ->
  metadata (aggDisk (fst (fst (run ops s)))) = Some l ->
  covered l z ->
  covered (processedRanges (aggregator (fst (fst (run ops s))))) z.
Proof.
  intros Hinv Hadm Hsucc Hl.
  destruct (run_engine_invariant ops s Hinv Hadm) as [(_ & _ & _ & _ & Hdisk) _].
  destruct (Hdisk l Hl) as (_ & _ & H). now apply H.
Qed.






End EngineProperties.

(** ** Draining a backlog *)

Lemma rev_firstn_skipn {T} q (l : list T) :
  rev (firstn q l) = skipn (List.length l - q) (rev l).
Proof.
  destruct (Nat.le_gt_cases q (List.length l)) as [Hle|Hgt].
  - rewrite skipn_rev. f_equal. f_equal. lia.
  - rewrite firstn_all2 by lia. replace (List.length l - q)%nat with O by lia.
    reflexivity.
Qed.

Lemma firstn_add {T} a b (l : list T) :
  firstn (a + b) l = firstn a l ++ firstn b (skipn a l).
Proof.
  revert l; induction a as [|a IH]; intros l; [reflexivity|].
  destruct l as [|x l]; [simpl; now rewrite firstn_nil|].
  simpl. now rewrite IH.
Qed.

Lemma firstn_same_when_short {T} a b (l : list T) :
  (List.length l <= a)%nat -> (List.length l <= b)%nat -> firstn a l = firstn b l.
Proof. intros Ha Hb. now rewrite !firstn_all2. Qed.

Section Drain.

Context {V A D : Type} `{C : Consumer V A D}.

Lemma foldEvents_total (evs : list (StoredEvent V)) :
  (forall d ev, exists d' c, processEvent d ev = FoldReturns d' c) ->
  forall d (items : list A),
  exists d' items',
    foldEvents evs d items = (map ProcessEventCalled evs, Some d', items').
Proof.
  intros Htot. induction evs as [|ev evs IH]; intros d items; simpl; [eauto|].
  destruct (Htot d ev) as (d1 & c & ->).
  destruct (IH d1 (match c with Some c0 => items ++ [c0] | None => items end))
    as (d' & items' & ->). eauto.
Qed.

(** What a tick reads below [c] on a store whose keys start at 1. *)
Lemma tick_fetch (s : System V D) c L :
  store_db (eventStore s) = true ->
  store_invariant (eventsDisk s) -> lowest_key (eventsDisk s) = 1 ->
  1 <= L -> 1 <= c ->
  getEventsBefore c (Some L) s
  = Resolved (firstn (Z.to_nat L)
                (skipn (List.length (records (eventsDisk s)) - Z.to_nat (c - 1))
                       (rev (records (eventsDisk s))))).
Proof.
  intros Hdb (_ & Hids & _) Hlo HL Hc. unfold getEventsBefore.
  rewrite getEvents_cursor by exact Hdb. cbv zeta.
  destruct (Z.eqb_spec L 0) as [|HL0]; [lia|].
  destruct (Z.ltb_spec L 0) as [|HL1]; [lia|].
  simpl includes. rewrite (filter_below _ _ c Hids), Hlo, rev_firstn_skipn.
  reflexivity.
Qed.

Lemma single_range_unique l a e :
  well_formed l -> a <= e ->
  (forall z, covered l z <-> a <= z <= e) -> l = [mkRange a e].
Proof.
  intros Hwf Hae Hcov. apply well_formed_unique; [exact Hwf | now apply wf_one |].
  intros z. rewrite Hcov, covered_cons. unfold in_range. simpl.
  pose proof (covered_nil z). tauto.
Qed.

Lemma update_nil s e : updateProcessedRanges [] s e = [mkRange s e].
Proof. reflexivity. Qed.

Lemma update_extends_down a n s :
  1 <= s -> s <= a - 1 -> a <= n ->
  updateProcessedRanges [mkRange a n] s (a - 1) = [mkRange s n].
Proof.
  intros Hs Hsa Han.
  assert (Hv : Forall (fun r => start r <= end_ r) [mkRange a n])
    by (repeat constructor; simpl; lia).
  apply single_range_unique; [apply updateProcessedRanges_well_formed; auto; lia | lia |].
  intros z. rewrite updateProcessedRanges_covered by (auto; lia).
  rewrite covered_cons. unfold in_range. simpl.
  pose proof (covered_nil z). intuition lia.
Qed.

Lemma tick_idle (s : System V D) fate :
  agg_db (aggregator s) = true ->
  isFullyCovered (processedRanges (aggregator s)) = false ->
  findRangeToProcess (processedRanges (aggregator s)) = Resolved None ->
  processEvents fate s = (s, [], Resolved tt).
Proof.
  intros Hdb Hfull Hrange. unfold processEvents. now rewrite Hdb, Hfull, Hrange.
Qed.

Lemma tick_nothing_to_read (s : System V D) fate range :
  agg_db (aggregator s) = true ->
  isFullyCovered (processedRanges (aggregator s)) = false ->
  findRangeToProcess (processedRanges (aggregator s)) = Resolved (Some range) ->
  getEventsBefore (end_ range)
    (Some (Z.min (batchSize (aggregator s)) (end_ range - start range - 1))) s
  = Resolved [] ->
  processEvents fate s = (s, [], Resolved tt).
Proof.
  intros Hdb Hfull Hrange Hevs. unfold processEvents.
  now rewrite Hdb, Hfull, Hrange, Hevs.
Qed.

Lemma tick_on_batch (s : System V D) range first rest :
  (forall d ev, exists d' c, processEvent d ev = FoldReturns d' c) ->
  agg_db (aggregator s) = true ->
  isFullyCovered (processedRanges (aggregator s)) = false ->
  findRangeToProcess (processedRanges (aggregator s)) = Resolved (Some range) ->
  getEventsBefore (end_ range)
    (Some (Z.min (batchSize (aggregator s)) (end_ range - start range - 1))) s
  = Resolved (first :: rest) ->
  exists d',
    processEvents Commits s
    = (let ranges' :=
         if Z.of_nat (List.length (first :: rest)) <? batchSize (aggregator s)
         then updateProcessedRanges (processedRanges (aggregator s)) 1 (localId first)
         else updateProcessedRanges (processedRanges (aggregator s))
                (localId (last (first :: rest) first)) (localId first) in
       (with_aggDisk (with_aggregator s (with_processedRanges (aggregator s) ranges'))
          (mkAggDb (Some ranges') d'),
        map ProcessEventCalled (first :: rest), Resolved tt)).
Proof.
  intros Htot Hdb Hfull Hrange Hevs.
  destruct (foldEvents_total (first :: rest) Htot (stores (aggDisk s)) [])
    as (d' & items & Hfold).
  exists d'. unfold processEvents. rewrite Hdb, Hfull, Hrange, Hevs. cbn [negb].
  rewrite Hfold. reflexivity.
Qed.

(** One tick of the drain. *)
Lemma tick_drains (s0 s : System V D) bs j :
  (forall d ev, exists d' c, processEvent d ev = FoldReturns d' c) ->
  1 <= bs ->
  store_invariant (eventsDisk s0) -> lowest_key (eventsDisk s0) = 1 ->
  keyGenerator (eventsDisk s0) <= MAX_SAFE_INTEGER ->
  draining s0 s bs j ->
  exists s1,
    processEvents Commits s
    = (s1,
       map ProcessEventCalled
           (firstn (Z.to_nat bs) (skipn (j * Z.to_nat bs) (rev (records (eventsDisk s0))))),
       Resolved tt) /\
    draining s0 s1 bs (S j).
Proof.
  intros Htot Hbs Hstore Hlo Hmax (Hadb & Hsdb & Hbsz & Hdisk & Hmem & Hmeta).
  set (recs := records (eventsDisk s0)) in *.
  set (n := List.length recs) in *.
  set (b := Z.to_nat bs).
  assert (Hkg : keyGenerator (eventsDisk s0) = Z.of_nat n + 1)
    by (unfold lowest_key in Hlo; fold recs n in Hlo; lia).
  assert (Hjb : Z.of_nat (j * b) = Z.of_nat j * bs)
    by (subst b; rewrite Nat2Z.inj_mul, Z2Nat.id by lia; reflexivity).
  assert (Hrevlen : List.length (rev recs) = n) by (subst n; apply length_rev).
  assert (Hstore' : store_invariant (eventsDisk s)) by (rewrite Hdisk; exact Hstore).
  assert (Hlo' : lowest_key (eventsDisk s) = 1) by (rewrite Hdisk; exact Hlo).
  unfold coverage_after in Hmem.
  destruct ((j =? 0)%nat || (n =? 0)%nat) eqn:Hcase.
  - (* nothing covered yet *)
    assert (Hfull : isFullyCovered (processedRanges (aggregator s)) = false)
      by (rewrite Hmem; reflexivity).
    assert (Hrange : findRangeToProcess (processedRanges (aggregator s))
                     = Resolved (Some (mkRange 0 MAX_SAFE_INTEGER)))
      by (rewrite Hmem; reflexivity).
    pose proof (tick_fetch s MAX_SAFE_INTEGER
                  (Z.min bs (MAX_SAFE_INTEGER - 0 - 1)) Hsdb Hstore' Hlo') as Hfetch.
    assert (HM : MAX_SAFE_INTEGER = 9007199254740991) by reflexivity.
    specialize (Hfetch ltac:(lia) ltac:(lia)).
    rewrite Hdisk in Hfetch. fold recs n in Hfetch.
    replace (n - Z.to_nat (MAX_SAFE_INTEGER - 1))%nat with O in Hfetch by lia.
    simpl skipn in Hfetch.
    assert (Hsame : firstn (Z.to_nat (Z.min bs (MAX_SAFE_INTEGER - 0 - 1))) (rev recs)
                    = firstn b (skipn (j * b) (rev recs))).
    { destruct (Nat.eqb_spec n 0) as [Hn0|Hn0].
      - assert (Hnil : rev recs = []) by (apply length_zero_iff_nil; lia).
        rewrite Hnil, skipn_nil, !firstn_nil. reflexivity.
      - assert (j = O) as -> by (destruct (Nat.eqb_spec j 0); [auto | discriminate]).
        simpl skipn.
        destruct (Z.le_gt_cases bs (MAX_SAFE_INTEGER - 0 - 1)).
        + f_equal. subst b. lia.
        + apply firstn_same_when_short; subst b; lia. }
    rewrite Hsame in Hfetch.
    destruct (firstn b (skipn (j * b) (rev recs))) as [|first rest] eqn:Hevs.
    + exists s. split.
      * apply (tick_nothing_to_read s Commits _ Hadb Hfull Hrange).
        simpl. rewrite Hbsz. exact Hfetch.
      * assert (Hn0 : n = O).
        { destruct (Nat.eqb_spec n 0) as [|Hn0]; [auto|].
          assert (j = O) as -> by (destruct (Nat.eqb_spec j 0); [auto | discriminate]).
          simpl in Hevs. apply (f_equal (@List.length _)) in Hevs.
          rewrite length_firstn in Hevs. simpl in Hevs. subst b. lia. }
        unfold draining, coverage_after. fold recs n. rewrite Hn0, orb_true_r.
        repeat split; auto. intros _ Hn. lia.
    + assert (Hn0 : n <> O).
      { intros Hn0. assert (Hnil : rev recs = []) by (apply length_zero_iff_nil; lia).
        rewrite Hnil, skipn_nil, firstn_nil in Hevs. discriminate. }
      assert (j = O) as ->.
      { destruct (Nat.eqb_spec j 0); [auto|]. destruct (Nat.eqb_spec n 0); [lia|].
        discriminate. }
      assert (Hfetch' : getEventsBefore (end_ (mkRange 0 MAX_SAFE_INTEGER))
                (Some (Z.min (batchSize (aggregator s))
                             (end_ (mkRange 0 MAX_SAFE_INTEGER)
                              - start (mkRange 0 MAX_SAFE_INTEGER) - 1))) s
                = Resolved (first :: rest))
        by (simpl; rewrite Hbsz; exact Hfetch).
      destruct (tick_on_batch s _ first rest Htot Hadb Hfull Hrange Hfetch') as (d' & Htick).
      destruct (batch_bounds s _ _ first rest Hstore' Hfetch') as (Hfirst & Hlast & _).
      simpl end_ in Hfirst. rewrite Hdisk, Hkg in Hfirst.
      assert (Hlen : List.length (first :: rest) = Nat.min b n).
      { rewrite <- Hevs. simpl skipn. now rewrite length_firstn, Hrevlen. }
      cbv zeta in Htick. rewrite Hmem, Hbsz, !update_nil in Htick.
      assert (Hcov : (if Z.of_nat (List.length (first :: rest)) <? bs
                      then [mkRange 1 (localId first)]
                      else [mkRange (localId (last (first :: rest) first)) (localId first)])
                     = [mkRange (frontier n bs 1) (Z.of_nat n)]).
      { unfold frontier.
        destruct (Z.ltb_spec (Z.of_nat (List.length (first :: rest))) bs); do 2 f_equal;
          simpl List.length in *; subst b; lia. }
      rewrite Hcov in Htick.
      eexists. split; [exact Htick|].
      unfold draining, coverage_after. fold recs n. cbn [Nat.eqb orb].
      destruct (Nat.eqb_spec n 0); [lia|].
      repeat split; auto.
  - (* one interval, down to the frontier *)
    apply orb_false_iff in Hcase as [Hj Hn].
    apply Nat.eqb_neq in Hj. apply Nat.eqb_neq in Hn.
    set (a := frontier n bs j) in *.
    assert (Ha : 1 <= a <= Z.of_nat n) by (subst a; unfold frontier; nia).
    assert (Hfull : isFullyCovered (processedRanges (aggregator s)) = false).
    { rewrite Hmem. simpl. destruct (Z.eqb_spec a 0); [lia | reflexivity]. }
    specialize (Hmeta ltac:(lia) ltac:(lia)).
    unfold coverage_after in Hmeta. fold recs n in Hmeta.
    replace ((j =? 0)%nat || (n =? 0)%nat) with false in Hmeta
      by (symmetry; apply orb_false_iff; split; now apply Nat.eqb_neq).
    fold a in Hmeta.
    destruct (Z.eq_dec a 1) as [Ha1|Ha1].
    + (* the origin is reached: the tick is idle *)
      assert (Hrange : findRangeToProcess (processedRanges (aggregator s)) = Resolved None).
      { rewrite Hmem. unfold findRangeToProcess. simpl. now rewrite Ha1. }
      exists s. split.
      * rewrite (tick_idle s Commits Hadb Hfull Hrange). do 2 f_equal.
        rewrite skipn_all2; [now rewrite firstn_nil|].
        rewrite Hrevlen. subst a. unfold frontier in Ha1. nia.
      * unfold draining, coverage_after. fold recs n.
        replace ((S j =? 0)%nat || (n =? 0)%nat) with false
          by (symmetry; apply orb_false_iff; split; now apply Nat.eqb_neq).
        assert (Hf : frontier n bs (S j) = a).
        { subst a. unfold frontier in *. nia. }
        rewrite Hf. repeat split; auto.
    + assert (Haj : a = Z.of_nat n + 1 - Z.of_nat j * bs)
        by (subst a; unfold frontier in *; lia).
      assert (Hrange : findRangeToProcess (processedRanges (aggregator s))
                       = Resolved (Some (mkRange 0 a))).
      { rewrite Hmem. unfold findRangeToProcess. simpl.
        destruct (Z.eqb_spec a 1); [lia|]. destruct (Z.eqb_spec a 0); [lia|].
        reflexivity. }
      pose proof (tick_fetch s a (Z.min bs (a - 0 - 1)) Hsdb Hstore' Hlo') as Hfetch.
      specialize (Hfetch ltac:(lia) ltac:(lia)).
      rewrite Hdisk in Hfetch. fold recs n in Hfetch.
      replace (n - Z.to_nat (a - 1))%nat with (j * b)%nat in Hfetch by lia.
      assert (Hskiplen : List.length (skipn (j * b) (rev recs)) = Z.to_nat (a - 1))
        by (rewrite length_skipn, Hrevlen; lia).
      assert (Hsame : firstn (Z.to_nat (Z.min bs (a - 0 - 1))) (skipn (j * b) (rev recs))
                      = firstn b (skipn (j * b) (rev recs))).
      { destruct (Z.le_gt_cases bs (a - 0 - 1)).
        + f_equal. subst b. lia.
        + apply firstn_same_when_short; subst b; lia. }
      rewrite Hsame in Hfetch.
      destruct (firstn b (skipn (j * b) (rev recs))) as [|first rest] eqn:Hevs.
      { apply (f_equal (@List.length _)) in Hevs. rewrite length_firstn, Hskiplen in Hevs.
        simpl in Hevs. subst b. lia. }
      assert (Hfetch' : getEventsBefore (end_ (mkRange 0 a))
                (Some (Z.min (batchSize (aggregator s))
                             (end_ (mkRange 0 a) - start (mkRange 0 a) - 1))) s
                = Resolved (first :: rest))
        by (simpl; rewrite Hbsz; exact Hfetch).
      destruct (tick_on_batch s _ first rest Htot Hadb Hfull Hrange Hfetch') as (d' & Htick).
      destruct (batch_bounds s _ _ first rest Hstore' Hfetch') as (Hfirst & Hlast & _).
      simpl end_ in Hfirst. rewrite Hdisk, Hkg in Hfirst.
      assert (Hlen : List.length (first :: rest) = Nat.min b (Z.to_nat (a - 1))).
      { rewrite <- Hevs. now rewrite length_firstn, Hskiplen. }
      cbv zeta in Htick. rewrite Hmem, Hbsz in Htick.
      assert (Hf : frontier n bs (S j) = Z.max 1 (a - bs))
        by (unfold frontier; lia).
      assert (Hcov : (if Z.of_nat (List.length (first :: rest)) <? bs
                      then updateProcessedRanges [mkRange a (Z.of_nat n)] 1 (localId first)
                      else updateProcessedRanges [mkRange a (Z.of_nat n)]
                             (localId (last (first :: rest) first)) (localId first))
                     = [mkRange (frontier n bs (S j)) (Z.of_nat n)]).
      { rewrite Hf. replace (localId first) with (a - 1) by lia.
        destruct (Z.ltb_spec (Z.of_nat (List.length (first :: rest))) bs).
        - rewrite update_extends_down by lia. do 2 f_equal.
          simpl List.length in *. subst b. lia.
        - replace (localId (last (first :: rest) first)) with (a - bs)
            by (simpl List.length in *; subst b; lia).
          rewrite update_extends_down by (simpl List.length in *; subst b; lia).
          do 2 f_equal. simpl List.length in *. subst b. lia. }
      rewrite Hcov in Htick.
      eexists. split; [exact Htick|].
      unfold draining, coverage_after. fold recs n. cbn [Nat.eqb orb].
      destruct (Nat.eqb_spec n 0); [lia|].
      repeat split; auto.
Qed.

End Drain.

Section DrainTheorem.

Context {V A D : Type} `{C : Consumer V A D}.

Lemma run_ticks_drain (s0 : System V D) bs k : forall j s,
  (forall d ev, exists d' c, processEvent d ev = FoldReturns d' c) ->
  1 <= bs ->
  store_invariant (eventsDisk s0) -> lowest_key (eventsDisk s0) = 1 ->
  keyGenerator (eventsDisk s0) <= MAX_SAFE_INTEGER ->
  draining s0 s bs j ->
  exists s',
    run (ticks k) s
    = (s',
       map ProcessEventCalled
           (firstn (k * Z.to_nat bs)
                   (skipn (j * Z.to_nat bs) (rev (records (eventsDisk s0))))),
       repeat (Resolved tt) k) /\
    draining s0 s' bs (j + k).
Proof.
  induction k as [|k IH]; intros j s Htot Hbs Hstore Hlo Hmax Hdr.
  - exists s. rewrite Nat.add_0_r. auto.
  - destruct (tick_drains s0 s bs j Htot Hbs Hstore Hlo Hmax Hdr) as (s1 & Htick & Hdr1).
    destruct (IH (S j) s1 Htot Hbs Hstore Hlo Hmax Hdr1) as (s' & Hrun & Hdr').
    exists s'. split; [|now rewrite Nat.add_succ_r].
    change (ticks (S k)) with (OpProcessEvents Commits :: ticks (V := V) k).
    cbn [run step]. rewrite Htick, Hrun. f_equal. f_equal.
    rewrite <- map_app. f_equal.
    change (S k * Z.to_nat bs)%nat with (Z.to_nat bs + k * Z.to_nat bs)%nat.
    rewrite firstn_add, skipn_skipn. reflexivity.
Qed.

(** A backlog is drained in batches, newest first: over a store that holds
    events 1 to [n], with a fold that does not throw, transactions that
    commit and a batch size of 1 or more, [k] ticks from empty coverage fold
    exactly the newest [k * batchSize] events, each once and in descending
    order of id, and leave the coverage at the single interval from
    [max(1, n + 1 - k * batchSize)] to [n]; once [k * batchSize] reaches [n],
    every event has been folded exactly once and the coverage is [1, n]. *)
Theorem catch_up_drains_the_backlog (s : System V D) bs k :
  (forall d ev, exists d' c, processEvent d ev = FoldReturns d' c) ->
  agg_db (aggregator s) = true ->
  store_db (eventStore s) = true ->
  batchSize (aggregator s) = bs -> 1 <= bs ->
  store_invariant (eventsDisk s) -> lowest_key (eventsDisk s) = 1 ->
  keyGenerator (eventsDisk s) <= MAX_SAFE_INTEGER ->
  processedRanges (aggregator s) = [] ->
  snd (fst (run (ticks k) s))
  = map ProcessEventCalled (firstn (k * Z.to_nat bs) (rev (records (eventsDisk s)))) /\
  processedRanges (aggregator (fst (fst (run (ticks k) s))))
  = coverage_after (List.length (records (eventsDisk s))) bs k /\
  ((1 <= List.length (records (eventsDisk s)))%nat ->
   Z.of_nat (List.length (records (eventsDisk s))) <= Z.of_nat k * bs ->
   snd (fst (run (ticks k) s)) = map ProcessEventCalled (rev (records (eventsDisk s))) /\
   processedRanges (aggregator (fst (fst (run (ticks k) s))))
   = [mkRange 1 (Z.of_nat (List.length (records (eventsDisk s))))] /\
   metadata (aggDisk (fst (fst (run (ticks k) s))))
   = Some [mkRange 1 (Z.of_nat (List.length (records (eventsDisk s))))]).
Proof.
  intros Htot Hadb Hsdb Hbsz Hbs Hstore Hlo Hmax Hmem.
  assert (Hdr : draining s s bs 0).
  { unfold draining, coverage_after. simpl. repeat split; auto. intros Hk. lia. }
  destruct (run_ticks_drain s bs k 0 s Htot Hbs Hstore Hlo Hmax Hdr)
    as (s' & Hrun & (_ & _ & _ & _ & Hmem' & Hmeta')).
  rewrite Hrun. cbn [fst snd]. simpl skipn in *. simpl Nat.add in *.
  split; [reflexivity|]. split; [exact Hmem'|].
  intros Hn Hk.
  assert (Hk1 : (1 <= k)%nat) by nia.
  assert (Hcov : coverage_after (List.length (records (eventsDisk s))) bs k
                 = [mkRange 1 (Z.of_nat (List.length (records (eventsDisk s))))]).
  { unfold coverage_after, frontier.
    replace ((k =? 0)%nat || (List.length (records (eventsDisk s)) =? 0)%nat) with false
      by (symmetry; apply orb_false_iff; split; apply Nat.eqb_neq; lia).
    do 2 f_equal. lia. }
  split; [|split].
  - f_equal. apply firstn_all2. rewrite length_rev.
    assert (Z.of_nat (k * Z.to_nat bs) = Z.of_nat k * bs)
      by (rewrite Nat2Z.inj_mul, Z2Nat.id by lia; reflexivity).
    lia.
  - now rewrite Hmem'.
  - rewrite (Hmeta' Hk1 Hn). now rewrite Hcov.
Qed.

End DrainTheorem.

(** ** The live path, when the fold succeeds *)

Section LivePathSuccess.

Context {V A D : Type} `{C : Consumer V A D}.

Lemma notifyListeners_filter_fold (ag : EventAggregator) (changes : list A) :
  filter is_ProcessEventCalled (EventAggregator_notifyListeners (V := V) ag changes) = [].
Proof.
  unfold EventAggregator_notifyListeners.
  assert (Hone : forall c : A,
            filter is_ProcessEventCalled
              (flat_map (fun listener =>
                 @ListenerCalled V A listener c ::
                 (if listenerThrows listener
                  then [ConsoleError "Error in listener:"] else []))
                 (agg_listeners ag)) = []).
  { intros c. induction (agg_listeners ag) as [|l ls IHl]; [reflexivity|].
    simpl. rewrite filter_app, IHl. destruct (listenerThrows l); reflexivity. }
  induction changes as [|c changes IH]; [reflexivity|].
  simpl. now rewrite filter_app, IH, Hone.
Qed.

Lemma notifyListeners_filter_calls (ag : EventAggregator) (c : A) :
  filter is_ListenerCalled (EventAggregator_notifyListeners (V := V) ag [c])
  = map (fun l => ListenerCalled l c) (agg_listeners ag).
Proof.
  unfold EventAggregator_notifyListeners. simpl. rewrite app_nil_r.
  induction (agg_listeners ag) as [|l ls IHl]; [reflexivity|].
  simpl. rewrite filter_app, IHl. destruct (listenerThrows l); reflexivity.
Qed.

(** When the fold of the pushed event returns and the transaction commits,
    [handleNewEvent] persists the sub-stores the fold left together with the
    coverage list, which now covers the event's id and whatever it covered
    before; the persisted list is the list in memory; every listener is
    called once with the changed item, or none if the fold returned
    [null]. *)
Theorem live_path_covers_and_persists ev d' c (s : System V D) :
  agg_db (aggregator s) = true ->
  well_formed (processedRanges (aggregator s)) ->
  processEvent (stores (aggDisk s)) ev = FoldReturns d' c ->
  snd (handleNewEvent ev Commits s) = Resolved tt /\
  stores (aggDisk (fst (fst (handleNewEvent ev Commits s)))) = d' /\
  metadata (aggDisk (fst (fst (handleNewEvent ev Commits s))))
  = Some (processedRanges (aggregator (fst (fst (handleNewEvent ev Commits s))))) /\
  well_formed (processedRanges (aggregator (fst (fst (handleNewEvent ev Commits s))))) /\
  (forall z,
     covered (processedRanges (aggregator (fst (fst (handleNewEvent ev Commits s))))) z
     <-> covered (processedRanges (aggregator s)) z \/ z = localId ev) /\
  filter is_ProcessEventCalled (snd (fst (handleNewEvent ev Commits s)))
  = [ProcessEventCalled ev] /\
  filter is_ListenerCalled (snd (fst (handleNewEvent ev Commits s)))
  = match c with
    | Some item => map (fun l => ListenerCalled l item) (agg_listeners (aggregator s))
    | None => []
    end.
Proof.
  intros Hdb Hwf Hfold. pose proof (well_formed_valid _ Hwf) as Hv.
  unfold handleNewEvent. rewrite Hdb, Hfold. cbn [negb fst snd].
  split; [reflexivity|]. split; [reflexivity|]. split; [reflexivity|].
  split; [apply updateProcessedRanges_well_formed; auto; lia|].
  split.
  { intros z. simpl. rewrite updateProcessedRanges_covered by (auto; lia). intuition lia. }
  cbn [filter is_ProcessEventCalled is_ListenerCalled].
  destruct c as [item|].
  - split; [f_equal; apply notifyListeners_filter_fold|].
    apply (notifyListeners_filter_calls
             (with_processedRanges (aggregator s)
                (updateProcessedRanges (processedRanges (aggregator s))
                   (localId ev) (localId ev))) item).
  - split; reflexivity.
Qed.

Lemma handleNewEvent_one_fold ev fate (s : System V D) :
  agg_db (aggregator s) = true ->
  filter is_ProcessEventCalled (snd (fst (handleNewEvent ev fate s)))
  = [ProcessEventCalled ev] /\
  agg_db (aggregator (fst (fst (handleNewEvent ev fate s)))) = true.
Proof.
  intros Hdb. unfold handleNewEvent. rewrite Hdb. cbn [negb].
  destruct (processEvent (stores (aggDisk s)) ev) as [err|d' [c|]]; [auto| |].
  - destruct fate; cbn [fst snd filter is_ProcessEventCalled]; (split; [|exact Hdb]);
      try reflexivity; f_equal; apply notifyListeners_filter_fold.
  - destruct fate; cbn [fst snd filter is_ProcessEventCalled]; auto.
Qed.

(** The live path runs once per append: when the request of [add] succeeds
    on a store the initialized aggregator is subscribed to, [processEvent] is
    called exactly once, with the stored event. *)
Theorem append_folds_the_event_once gid v fate aggFate (s : System V D) key db' :
  store_db (eventStore s) = true ->
  agg_db (aggregator s) = true ->
  NoDup (store_listeners (eventStore s)) ->
  In AggregatorHandler (store_listeners (eventStore s)) ->
  idb_add (eventsDisk s) gid v = Some (key, db') ->
  fate <> StoreRequestFails ->
  filter is_ProcessEventCalled (snd (fst (add gid v fate aggFate s)))
  = [ProcessEventCalled (mkEvent key gid v)].
Proof.
  intros Hsdb Hadb Hnd Hin Hadd Hfate.
  destruct (add_shows gid v fate aggFate s key db' Hsdb Hadd Hfate) as (later & -> & Hlater).
  destruct (broadcast_shape (mkEvent key gid v) s (store_listeners (eventStore s)))
    as (_ & _ & _ & _ & Hfolds & _ & _ & _ & Hone).
  assert (Hq : filter is_ProcessEventCalled later = []).
  { clear - Hlater. induction Hlater as [|e l [_ He] _ IH]; [reflexivity|].
    simpl. now rewrite He. }
  cbn [filter is_ProcessEventCalled]. rewrite !filter_app, Hfolds, (Hone Hnd Hin Hadb), Hq.
  cbn [filter is_ProcessEventCalled map]. now rewrite app_nil_r.
Qed.

End LivePathSuccess.

(** ** The listen counter *)

Lemma total_of_put_total key key' t totals :
  total_of key (put_total key' t totals)
  = if String.eqb key' key then Some t else total_of key totals.
Proof.
  induction totals as [|[k t0] totals IH]; simpl.
  - destruct (String.eqb_spec key' key); reflexivity.
  - destruct (String.eqb_spec k key') as [->|Hne]; simpl.
    + destruct (String.eqb_spec key' key); reflexivity.
    + destruct (String.eqb_spec k key) as [->|Hne'].
      * destruct (String.eqb_spec key' key); [congruence | reflexivity].
      * exact IH.
Qed.

Lemma MusicListen_processEvent totals (ev : StoredEvent string) :
  processEvent (Consumer := MusicListen) totals ev
  = FoldReturns (put_total (value ev) (total_or_zero (value ev) totals + 1) totals)
                (Some (value ev, total_or_zero (value ev) totals + 1)).
Proof. reflexivity. Qed.

Lemma MusicListen_fold_total :
  forall d ev, exists d' c, processEvent (Consumer := MusicListen) d ev = FoldReturns d' c.
Proof. intros d ev. eexists _, _. reflexivity. Qed.

Lemma listen_processEvent requests totals (ev : StoredEvent string) :
  processEvent (Consumer := MusicListenEventAggregator requests) totals ev
  = match requests totals ev with
    | AllServed =>
        FoldReturns (put_total (value ev) (total_or_zero (value ev) totals + 1) totals)
                    (Some (value ev, total_or_zero (value ev) totals + 1))
    | GetRequestFails err | PutRequestFails err => FoldThrows err
    end.
Proof.
  cbn [processEvent MusicListenEventAggregator].
  unfold MusicListenEventAggregator_processEvent.
  destruct (requests totals ev); reflexivity.
Qed.

(** A batch whose requests are all served. *)
Lemma listen_fold_served requests (evs : list (StoredEvent string)) :
  forall totals items,
  (forall d ev, In ev evs -> requests d ev = AllServed) ->
  exists d' items',
    foldEvents (C := MusicListenEventAggregator requests) evs totals items
    = (map ProcessEventCalled evs, Some d', items') /\
    map fst items' = map fst items ++ map value evs /\
    forall key, total_or_zero key d' = total_or_zero key totals + plays key evs.
Proof.
  induction evs as [|ev evs IH]; intros totals items Hserved.
  - exists totals, items. split; [reflexivity|]. split; [simpl; now rewrite app_nil_r|].
    intros key. simpl. lia.
  - cbn [foldEvents]. rewrite listen_processEvent, (Hserved totals ev) by now left.
    destruct (IH (put_total (value ev) (total_or_zero (value ev) totals + 1) totals)
                 (items ++ [(value ev, total_or_zero (value ev) totals + 1)]))
      as (d' & items' & Hfold & Hitems & Htot).
    { intros d ev' Hin. apply Hserved. now right. }
    rewrite Hfold. exists d', items'. split; [reflexivity|].
    split; [rewrite Hitems, map_app, <- app_assoc; reflexivity|].
    intros key. rewrite Htot. unfold total_or_zero.
    rewrite total_of_put_total. cbn [plays].
    destruct (String.eqb_spec (value ev) key) as [->|Hne]; lia.
Qed.

(** A batch in which a request fails: the fold stops at the first event
    whose request fails, after the events before it have been counted. *)
Lemma listen_fold_fails requests (evs : list (StoredEvent string)) :
  forall totals items calls items',
  foldEvents (C := MusicListenEventAggregator requests) evs totals items
  = (calls, None, items') ->
  exists pre ev post d,
    evs = pre ++ ev :: post /\
    calls = map ProcessEventCalled (pre ++ [ev]) /\
    requests d ev <> AllServed /\
    map fst items' = map fst items ++ map value pre /\
    forall key, total_or_zero key d = total_or_zero key totals + plays key pre.
Proof.
  induction evs as [|ev evs IH]; intros totals items calls items' Hfold;
    [discriminate|].
  cbn [foldEvents] in Hfold. rewrite listen_processEvent in Hfold.
  destruct (requests totals ev) as [|err|err] eqn:Hreq.
  - destruct (foldEvents evs _ _) as [[calls1 r1] items1] eqn:Hrest.
    injection Hfold as <- -> <-.
    destruct (IH _ _ _ _ Hrest) as (pre & ev' & post & d & -> & -> & Hfail & Hitems & Htot).
    exists (ev :: pre), ev', post, d.
    split; [reflexivity|]. split; [reflexivity|]. split; [exact Hfail|].
    split; [rewrite Hitems, map_app, <- app_assoc; reflexivity|].
    intros key. rewrite Htot. unfold total_or_zero.
    rewrite total_of_put_total. cbn [plays].
    destruct (String.eqb_spec (value ev) key) as [->|Hne]; lia.
  - injection Hfold as <- <-. exists [], ev, evs, totals.
    split; [reflexivity|]. split; [reflexivity|]. split; [congruence|].
    split; [simpl; now rewrite app_nil_r|]. intros key. simpl. lia.
  - injection Hfold as <- <-. exists [], ev, evs, totals.
    split; [reflexivity|]. split; [reflexivity|]. split; [congruence|].
    split; [simpl; now rewrite app_nil_r|]. intros key. simpl. lia.
Qed.

Lemma listen_totals_fold (evs : list (StoredEvent string)) :
  forall totals items,
  exists d' items',
    foldEvents (C := MusicListen) evs totals items
    = (map ProcessEventCalled evs, Some d', items') /\
    map fst items' = map fst items ++ map value evs /\
    forall key, total_or_zero key d' = total_or_zero key totals + plays key evs.
Proof.
  intros totals items. now apply (listen_fold_served (fun _ _ => AllServed)).
Qed.

(** Folding a batch with the listen counter.  If the storage serves the
    requests of every event of the batch, the fold does not throw: it
    reports one changed item per event, for the key the event carries, and
    adds to the total of each key the number of events of the batch that
    carry it; keys without a record count from 0.  If the fold throws, it
    does so at the first event for which a request fails ([getReq.onerror]
    or [putReq.onerror]): [processEvent] has been called for the events up to
    and including that one, and those before it have been counted. *)
Theorem listen_totals_count_plays requests (evs : list (StoredEvent string)) totals items :
  ((forall d ev, In ev evs -> requests d ev = AllServed) ->
   exists d' items',
     foldEvents (C := MusicListenEventAggregator requests) evs totals items
     = (map ProcessEventCalled evs, Some d', items') /\
     map fst items' = map fst items ++ map value evs /\
     forall key, total_or_zero key d' = total_or_zero key totals + plays key evs) /\
  (forall calls items',
     foldEvents (C := MusicListenEventAggregator requests) evs totals items
     = (calls, None, items') ->
     exists pre ev post d,
       evs = pre ++ ev :: post /\
       calls = map ProcessEventCalled (pre ++ [ev]) /\
       requests d ev <> AllServed /\
       map fst items' = map fst items ++ map value pre /\
       forall key, total_or_zero key d = total_or_zero key totals + plays key pre) /\
  (forall d ev,
     (exists d' c,
        processEvent (Consumer := MusicListenEventAggregator requests) d ev
        = FoldReturns d' c)
     <-> requests d ev = AllServed).
Proof.
  split; [apply listen_fold_served|]. split; [apply listen_fold_fails|].
  intros d ev. rewrite listen_processEvent.
  destruct (requests d ev); split; intros H; try discriminate;
    try (destruct H as (d' & c & H); discriminate); eauto.
Qed.

Lemma object_get_set {T} key key' (v : T) obj :
  object_get key (object_set key' v obj)
  = if String.eqb key' key then Some v else object_get key obj.
Proof.
  induction obj as [|[k v0] obj IH]; simpl.
  - destruct (String.eqb_spec key' key); reflexivity.
  - destruct (String.eqb_spec k key') as [->|Hne]; simpl.
    + destruct (String.eqb_spec key' key); reflexivity.
    + destruct (String.eqb_spec k key) as [->|Hne'].
      * destruct (String.eqb_spec key' key); [congruence | reflexivity].
      * exact IH.
Qed.

Lemma object_get_entries totals key ids : forall acc,
  object_get key
    (fold_left (fun acc entry => object_set (fst entry) (snd entry) acc)
               (map (getItemData totals) ids) acc)
  = if existsb (String.eqb key) ids
    then Some (key, total_or_zero key totals)
    else object_get key acc.
Proof.
  induction ids as [|id ids IH]; intros acc; simpl; [reflexivity|].
  rewrite IH. destruct (existsb (String.eqb key) ids); [now rewrite orb_true_r|].
  rewrite orb_false_r, object_get_set, String.eqb_sym.
  destruct (String.eqb_spec key id) as [->|Hne]; [|reflexivity].
  unfold total_or_zero. destruct (total_of id totals); reflexivity.
Qed.


(** ** Catch-up feeding the listen counter *)

Lemma folded_app {V A} (t1 t2 : list (Effect V A)) :
  folded (t1 ++ t2) = folded t1 ++ folded t2.
Proof.
  induction t1 as [|e t1 IH]; [reflexivity|].
  destruct e; simpl; rewrite IH; reflexivity.
Qed.

Lemma folded_calls {V A} (evs : list (StoredEvent V)) :
  folded (A := A) (map ProcessEventCalled evs) = evs.
Proof. induction evs as [|ev evs IH]; simpl; [|rewrite IH]; reflexivity. Qed.

Lemma plays_app key evs1 evs2 : plays key (evs1 ++ evs2) = plays key evs1 + plays key evs2.
Proof. induction evs1 as [|ev evs1 IH]; simpl; [|rewrite IH]; lia. Qed.

Lemma plays_rev key evs : plays key (rev evs) = plays key evs.
Proof.
  induction evs as [|ev evs IH]; [reflexivity|].
  simpl. rewrite plays_app, IH. simpl. lia.
Qed.

(** One tick of the listen counter whose transaction commits: the totals grow
    by the plays of the events it folded. *)
Lemma listen_tick_totals (s : System string (list (string * Z))) key :
  total_or_zero key (stores (aggDisk (fst (fst (processEvents (C := MusicListen) Commits s)))))
  = total_or_zero key (stores (aggDisk s))
    + plays key (folded (snd (fst (processEvents (C := MusicListen) Commits s)))).
Proof.
  unfold processEvents.
  destruct (agg_db (aggregator s)); cbn [negb]; [|simpl; lia].
  destruct (isFullyCovered _); [simpl; lia|].
  destruct (findRangeToProcess _) as [|[range|]|msg]; try (simpl; lia).
  cbv zeta.
  destruct (getEventsBefore _ _ s) as [|evs|msg]; try (simpl; lia).
  destruct evs as [|first rest]; [simpl; lia|].
  destruct (listen_totals_fold (first :: rest) (stores (aggDisk s)) [])
    as (d' & items' & Hfold & _ & Htot).
  rewrite Hfold. cbn [fst snd aggDisk with_aggDisk stores]. rewrite folded_calls. apply Htot.
Qed.

Lemma listen_ticks_totals k key : forall (s : System string (list (string * Z))),
  total_or_zero key (stores (aggDisk (fst (fst (run (C := MusicListen) (ticks k) s)))))
  = total_or_zero key (stores (aggDisk s))
    + plays key (folded (snd (fst (run (C := MusicListen) (ticks k) s)))).
Proof.
  induction k as [|k IH]; intros s; [simpl; lia|].
  change (ticks (S k)) with (OpProcessEvents Commits :: ticks (V := string) k).
  cbn [run step]. pose proof (listen_tick_totals s key) as Htick.
  destruct (processEvents Commits s) as [[s1 eff1] r1]. cbn [fst snd] in Htick.
  specialize (IH s1).
  destruct (run (ticks k) s1) as [[s2 eff2] rs]. cbn [fst snd] in *.
  rewrite folded_app, plays_app. lia.
Qed.

(** The listen counter over a backlog: on a store that holds events 1 to
    [n], with empty coverage and no totals yet, once enough ticks have run
    for [k * batchSize] to reach [n], [getAggregated] reports for every key
    asked for the number of stored events that carry it: each play is
    counted exactly once. *)
Theorem listen_counter_counts_every_play
    (s : System string (list (string * Z))) k itemIds :
  agg_db (aggregator s) = true ->
  store_db (eventStore s) = true ->
  1 <= batchSize (aggregator s) ->
  store_invariant (eventsDisk s) -> lowest_key (eventsDisk s) = 1 ->
  keyGenerator (eventsDisk s) <= MAX_SAFE_INTEGER ->
  processedRanges (aggregator s) = [] ->
  stores (aggDisk s) = [] ->
  Z.of_nat (List.length (records (eventsDisk s))) <= Z.of_nat k * batchSize (aggregator s) ->
  exists obj,
    MusicListen_getAggregated itemIds (fst (fst (run (C := MusicListen) (ticks k) s)))
    = Resolved obj /\
    forall key, In key itemIds ->
      object_get key obj = Some (key, plays key (records (eventsDisk s))).
Proof.
  intros Hadb Hsdb Hbs Hstore Hlo Hmax Hmem Hd Hk.
  assert (Hdr : draining s s (batchSize (aggregator s)) 0).
  { unfold draining, coverage_after. simpl. repeat split; auto. intros Hk0. lia. }
  destruct (run_ticks_drain (C := MusicListen) s (batchSize (aggregator s)) k 0 s
              MusicListen_fold_total Hbs Hstore Hlo Hmax Hdr) as (s' & Hrun & Hdr').
  pose proof (listen_ticks_totals k) as Htot.
  rewrite Hrun in *. cbn [fst snd] in *.
  destruct Hdr' as (Hadb' & _).
  exists (fold_left (fun acc entry => object_set (fst entry) (snd entry) acc)
                    (map (getItemData (stores (aggDisk s'))) itemIds) []).
  unfold MusicListen_getAggregated. rewrite Hadb'. split; [reflexivity|].
  intros key Hin. rewrite object_get_entries.
  assert (Hex : existsb (String.eqb key) itemIds = true).
  { apply existsb_exists. exists key. split; [exact Hin | apply String.eqb_refl]. }
  rewrite Hex. do 2 f_equal.
  specialize (Htot key s). rewrite Hrun in Htot. cbn [fst snd] in Htot.
  rewrite Htot, folded_calls. unfold total_or_zero at 1. rewrite Hd. simpl total_of.
  rewrite skipn_O, firstn_all2, plays_rev; [lia|].
  rewrite length_rev. nia.
Qed.

(** ** The live path feeding the listen counter *)

Section LivePathState.

Context {V A D : Type} `{C : Consumer V A D}.

(** The live fold does not look at the store's database. *)
Lemma handleNewEvent_other_disk ev fate (s : System V D) db' :
  aggDisk (fst (fst (handleNewEvent ev fate (with_eventsDisk s db'))))
  = aggDisk (fst (fst (handleNewEvent ev fate s))) /\
  aggregator (fst (fst (handleNewEvent ev fate (with_eventsDisk s db'))))
  = aggregator (fst (fst (handleNewEvent ev fate s))).
Proof.
  unfold handleNewEvent. cbn [with_eventsDisk aggregator aggDisk].
  destruct (agg_db (aggregator s)); cbn [negb]; [|auto].
  destruct (processEvent (stores (aggDisk s)) ev) as [err|d' c]; [auto|].
  destruct fate; auto.
Qed.

Lemma add_aggDisk gid v fate aggFate (s : System V D) key db' :
  store_db (eventStore s) = true ->
  agg_db (aggregator s) = true ->
  NoDup (store_listeners (eventStore s)) ->
  In AggregatorHandler (store_listeners (eventStore s)) ->
  idb_add (eventsDisk s) gid v = Some (key, db') ->
  fate <> StoreRequestFails ->
  aggDisk (fst (fst (add gid v fate aggFate s)))
  = aggDisk (fst (fst (handleNewEvent (mkEvent key gid v) aggFate s))) /\
  aggregator (fst (fst (add gid v fate aggFate s)))
  = aggregator (fst (fst (handleNewEvent (mkEvent key gid v) aggFate s))).
Proof.
  intros Hsdb Hadb Hnd Hin Hadd Hfate.
  pose proof (add_state gid v fate aggFate s Hsdb) as Hst. rewrite Hadd in Hst.
  destruct fate; [|congruence|]; destruct Hst as (n & -> & _ & _ & Hone);
    rewrite (Hone Hnd Hin Hadb); cbn [Nat.iter nat_rect]; auto.
  apply handleNewEvent_other_disk.
Qed.

End LivePathState.

(** The listen counter on the live path: an [add] whose request succeeds, on
    a store the initialized counter is subscribed to, raises the total of the
    key played by exactly 1 and leaves every other total as it is, once the
    aggregator's transaction commits; this holds also when the store's own
    transaction then fails to commit, so that the play counted is not
    stored. *)
Theorem live_play_is_counted_once gid (v : string) fate
    (s : System string (list (string * Z))) key db' :
  store_db (eventStore s) = true ->
  agg_db (aggregator s) = true ->
  NoDup (store_listeners (eventStore s)) ->
  In AggregatorHandler (store_listeners (eventStore s)) ->
  idb_add (eventsDisk s) gid v = Some (key, db') ->
  fate <> StoreRequestFails ->
  forall k,
    total_or_zero k
      (stores (aggDisk (fst (fst (add (C := MusicListen) gid v fate Commits s)))))
    = total_or_zero k (stores (aggDisk s)) + (if String.eqb v k then 1 else 0).
Proof.
  intros Hsdb Hadb Hnd Hin Hadd Hfate k.
  rewrite (proj1 (add_aggDisk (C := MusicListen) gid v fate Commits s key db'
                    Hsdb Hadb Hnd Hin Hadd Hfate)).
  unfold handleNewEvent. rewrite Hadb, MusicListen_processEvent. cbn [negb].
  cbv zeta. cbn [fst snd aggDisk with_aggDisk stores value].
  unfold total_or_zero. rewrite total_of_put_total.
  destruct (String.eqb_spec v k) as [->|Hne]; lia.
Qed.

(** ** Aborted ticks, failed initialization, and mounting again *)

Section Recovery.

Context {V A D : Type} `{C : Consumer V A D}.

Lemma foldEvents_calls_are_folds evs : forall d items,
  Forall (fun e => is_ProcessEventCalled e = true)
         (fst (fst (foldEvents (V := V) (A := A) evs d items))).
Proof.
  induction evs as [|ev evs IH]; intros d items; simpl; [constructor|].
  destruct (processEvent d ev) as [err|d' c]; simpl; [repeat constructor|].
  specialize (IH d' (match c with Some c0 => items ++ [c0] | None => items end)).
  destruct (foldEvents evs d' _) as [[calls r] its]. simpl in *.
  constructor; [reflexivity | exact IH].
Qed.

(** A tick that aborts its transaction has written nothing: the aggregator's
    database and the store are as before, the error is logged and the promise
    resolves.  Unless it was the write of the coverage list that failed, the
    object is unchanged as well, so the next tick fetches the same batch. *)
Theorem aborted_tick_writes_nothing fate (s : System V D) :
  In TxAbortCalled (snd (fst (processEvents fate s))) ->
  aggDisk (fst (fst (processEvents fate s))) = aggDisk s /\
  eventsDisk (fst (fst (processEvents fate s))) = eventsDisk s /\
  snd (processEvents fate s) = Resolved tt /\
  In (ConsoleError "Error processing events:") (snd (fst (processEvents fate s))) /\
  (fate <> PutFails -> fst (fst (processEvents fate s)) = s).
Proof.
  unfold processEvents.
  destruct (agg_db (aggregator s)); cbn [negb]; [|intros []].
  destruct (isFullyCovered _); [intros []|].
  destruct (findRangeToProcess _) as [|[range|]|msg]; try (intros []).
  cbv zeta.
  destruct (getEventsBefore _ _ s) as [|evs|msg]; try (intros []).
  destruct evs as [|first rest]; [intros []|].
  pose proof (foldEvents_calls_are_folds (first :: rest) (stores (aggDisk s)) [])
    as Hcalls.
  destruct (foldEvents (first :: rest) (stores (aggDisk s)) []) as [[calls r] items].
  cbn [fst snd] in Hcalls.
  assert (Hnot : ~ In TxAbortCalled calls).
  { intros Hin. rewrite Forall_forall in Hcalls. specialize (Hcalls _ Hin). discriminate. }
  assert (Hlog : forall rest',
             In (ConsoleError (V := V) (A := A) "Error processing events:")
                (calls ++ [ConsoleError "Error processing events:"; TxAbortCalled]
                       ++ rest')).
  { intros rest'. apply in_or_app. right. now left. }
  destruct r as [d'|].
  - destruct fate; cbn [fst snd]; intros Hab.
    + contradiction.
    + repeat split; auto. congruence.
    + contradiction.
  - cbn [fst snd]. intros _. repeat split; auto.
Qed.





Lemma mount_engine_invariant (s : System V D) bs :
  engine_invariant s -> engine_invariant (mount (eventsDisk s) (aggDisk s) bs).
Proof.
  intros (Hstore & _ & _ & _ & Hdisk).
  split; [exact Hstore|]. split; [constructor|]. split; [constructor|].
  split; [auto|].
  intros l Hl. destruct (Hdisk l Hl) as (H1 & H2 & _).
  split; [exact H1|]. split; [exact H2|]. discriminate.
Qed.

(** Mounting again over the same databases: after the provider has
    constructed both objects and initialized them, both hold their
    database, the handler is the one subscriber of the store, the coverage
    list is the persisted one (empty if none was ever written), the
    databases are untouched and the invariant of the engine holds; if the
    previous aggregator had been initialized successfully, every id covered
    now was covered by it, so nothing that was not folded before counts as
    folded after. *)
Theorem remount_resumes_from_persisted_coverage (s : System V D) :
  engine_invariant s ->
  let s' := fst (fst (run (mount_ops None InitSucceeds)
                          (mount (eventsDisk s) (aggDisk s) (batchSize (aggregator s))))) in
  processedRanges (aggregator s')
  = match metadata (aggDisk s) with Some l => l | None => [] end /\
  store_listeners (eventStore s') = [AggregatorHandler] /\
  store_db (eventStore s') = true /\
  agg_db (aggregator s') = true /\
  agg_initializationSucceeded (aggregator s') = true /\
  eventsDisk s' = eventsDisk s /\
  aggDisk s' = aggDisk s /\
  engine_invariant s' /\
  (agg_initializationSucceeded (aggregator s) = true ->
   forall z, covered (processedRanges (aggregator s')) z ->
             covered (processedRanges (aggregator s)) z).
Proof.
  intros Hinv s'.
  pose proof (mount_engine_invariant s (batchSize (aggregator s)) Hinv) as Hm.
  assert (Hadm : admissible (mount_ops None InitSucceeds)
                   (mount (eventsDisk s) (aggDisk s) (batchSize (aggregator s))))
    by (split; [exact I | split; exact I]).
  destruct (run_engine_invariant _ _ Hm Hadm) as [Hinv' _].
  destruct Hinv as (_ & _ & _ & _ & Hdisk).
  repeat (split; [reflexivity|]). split; [exact Hinv'|].
  intros Hsucc z Hcov. subst s'. simpl in Hcov.
  destruct (metadata (aggDisk s)) as [l|] eqn:Hl.
  - destruct (Hdisk l eq_refl) as (_ & _ & H). now apply H.
  - now apply covered_nil in Hcov.
Qed.

End Recovery.

(** ** Subscriptions of the aggregator *)

Section AggregatorListeners.

Context {V A D : Type} `{C : Consumer V A D}.

Lemma notifyListeners_In (ag : EventAggregator) (changes : list A) l c :
  In (ListenerCalled l c) (EventAggregator_notifyListeners (V := V) ag changes)
  <-> In l (agg_listeners ag) /\ In c changes.
Proof.
  unfold EventAggregator_notifyListeners. rewrite in_flat_map. split.
  - intros (c' & Hc' & Hin). apply in_flat_map in Hin. destruct Hin as (l' & Hl' & Hin).
    destruct Hin as [Heq|Hin].
    + injection Heq as -> ->. auto.
    + destruct (listenerThrows l'); [destruct Hin as [Heq|[]]; discriminate | destruct Hin].
  - intros (Hl & Hc). exists c. split; [exact Hc|]. apply in_flat_map.
    exists l. split; [exact Hl | now left].
Qed.

(** The aggregator's listeners form a set as well: subscribing a listener a
    second time changes nothing, so it is still called once per change; the
    function [subscribe] returns removes it, after which no change reaches
    it, while every other listener is called as before. *)
Theorem aggregator_subscriptions_form_a_set (ag : EventAggregator) l :
  NoDup (agg_listeners ag) ->
  EventAggregator_subscribe l (EventAggregator_subscribe l ag)
  = EventAggregator_subscribe l ag /\
  NoDup (agg_listeners (EventAggregator_subscribe l ag)) /\
  NoDup (agg_listeners (EventAggregator_unsubscribe l ag)) /\
  (forall (changes : list A) c,
     In (ListenerCalled l c)
        (EventAggregator_notifyListeners (V := V) (EventAggregator_subscribe l ag) changes)
     <-> In c changes) /\
  (forall (changes : list A) c,
     ~ In (ListenerCalled l c)
          (EventAggregator_notifyListeners (V := V) (EventAggregator_unsubscribe l ag)
             changes)) /\
  (forall l' (changes : list A) c, l' <> l ->
     (In (ListenerCalled l' c)
         (EventAggregator_notifyListeners (V := V) (EventAggregator_unsubscribe l ag)
            changes)
      <-> In (ListenerCalled l' c) (EventAggregator_notifyListeners (V := V) ag changes)) /\
     (In (ListenerCalled l' c)
         (EventAggregator_notifyListeners (V := V) (EventAggregator_subscribe l ag)
            changes)
      <-> In (ListenerCalled l' c) (EventAggregator_notifyListeners (V := V) ag changes))).
Proof.
  intros Hnd.
  destruct (set_add_spec Nat.eqb l (agg_listeners ag) Nat_eqb_correct)
    as (Hin & Hnd' & Hidem).
  destruct (set_delete_spec Nat.eqb l (agg_listeners ag) Nat_eqb_correct) as (Hdel & Hnd'').
  split.
  { unfold EventAggregator_subscribe, with_agg_listeners. simpl. now rewrite Hidem. }
  split; [simpl; auto|]. split; [simpl; auto|].
  split.
  { intros changes c. rewrite notifyListeners_In. simpl. rewrite Hin. tauto. }
  split.
  { intros changes c. rewrite notifyListeners_In. simpl. rewrite Hdel. tauto. }
  intros l' changes c Hne. rewrite !notifyListeners_In. simpl. rewrite Hin, Hdel. tauto.
Qed.

End AggregatorListeners.

(* ================================================================== *)
(** * Part IV: the further properties on the scenarios                 *)
(* ================================================================== *)

Lemma delayed_deploy_store_invariant : store_invariant (eventsDisk delayed_deploy).
Proof.
  split; [unfold lowest_key; simpl; lia|]. split; [reflexivity|].
  simpl. repeat (constructor; [simpl; intuition discriminate|]). constructor.
Qed.

Lemma listen_backlog_store_invariant : store_invariant (eventsDisk listen_backlog).
Proof.
  split; [unfold lowest_key; simpl; lia|]. split; [reflexivity|].
  simpl. repeat (constructor; [simpl; intuition discriminate|]). constructor.
Qed.

Lemma delayed_deploy_engine_invariant : engine_invariant delayed_deploy.
Proof.
  assert (Hwf : well_formed [mkRange 6 6; mkRange 8 8]).
  { apply wf_cons; simpl; try lia. apply wf_one. simpl. lia. }
  assert (Hin : ranges_within 1 9 [mkRange 6 6; mkRange 8 8]).
  { repeat constructor; simpl; lia. }
  split; [exact delayed_deploy_store_invariant|].
  split; [exact Hwf|]. split; [exact Hin|].
  split; [discriminate|].
  intros l Hl. injection Hl as <-. split; [exact Hwf|]. split; [exact Hin|]. auto.
Qed.

Lemma getEventsBefore_newest_first_witness :
  store_db (eventStore delayed_deploy) = true /\
  store_invariant (eventsDisk delayed_deploy) /\
  1 <= 2 /\
  exists evs,
    getEventsBefore 8 (Some 2) delayed_deploy = Resolved evs /\
    (forall ev, In ev evs -> In ev (records (eventsDisk delayed_deploy))) /\
    map localId evs = [7; 6].
Proof.
  split; [reflexivity|]. split; [exact delayed_deploy_store_invariant|].
  split; [lia|].
  exact (getEventsBefore_newest_first delayed_deploy 8 2 eq_refl
           delayed_deploy_store_invariant ltac:(lia)).
Defined.

Lemma getEventsAfter_oldest_first_witness :
  store_db (eventStore delayed_deploy) = true /\
  store_invariant (eventsDisk delayed_deploy) /\
  1 <= 2 /\
  exists evs,
    getEventsAfter 5 (Some 2) delayed_deploy = Resolved evs /\
    (forall ev, In ev evs -> In ev (records (eventsDisk delayed_deploy))) /\
    map localId evs = [6; 7].
Proof.
  split; [reflexivity|]. split; [exact delayed_deploy_store_invariant|].
  split; [lia|].
  exact (getEventsAfter_oldest_first delayed_deploy 5 2 eq_refl
           delayed_deploy_store_invariant ltac:(lia)).
Defined.

Lemma add_calls_each_listener_once_witness :
  store_db (eventStore listen_running) = true /\
  filter is_StoreListenerCalled
    (snd (fst (add (C := MusicListen) "g2" "song2"%string StoreCommits Commits
                   listen_running)))
  = [StoreListenerCalled AggregatorHandler (mkEvent 2 "g2" "song2"%string);
     StoreListenerCalled (ExternalListener 3) (mkEvent 2 "g2" "song2"%string)].
Proof.
  split; [reflexivity|].
  exact (add_calls_each_listener_once (C := MusicListen) "g2" "song2"%string
           StoreCommits Commits listen_running eq_refl).
Defined.

Lemma store_subscriptions_form_a_set_witness :
  NoDup (store_listeners (eventStore listen_running)) /\
  EventStore_subscribe (ExternalListener 3)
    (EventStore_subscribe (ExternalListener 3) (eventStore listen_running))
  = EventStore_subscribe (ExternalListener 3) (eventStore listen_running) /\
  ~ In (ExternalListener 3)
       (store_listeners (EventStore_unsubscribe (ExternalListener 3)
                           (eventStore listen_running))).
Proof.
  assert (Hnd : NoDup (store_listeners (eventStore listen_running))).
  { simpl. repeat (constructor; [simpl; intuition discriminate|]). constructor. }
  split; [exact Hnd|].
  destruct (store_subscriptions_form_a_set (eventStore listen_running) (ExternalListener 3)
              Hnd) as (H1 & _ & _ & _ & H5 & _).
  split; [exact H1 | exact H5].
Defined.

Lemma store_never_reports_success_witness :
  store_initializationSucceeded
    (eventStore (newSystem (V := string) (D := list (string * Z)) [] 100)) = false /\
  store_initializationSucceeded
    (eventStore (fst (fst (run (C := MusicListen) listen_backlog_ops (newSystem [] 100)))))
  = false /\
  ~ In StartProcessing
       (bootEffect false
          (fst (fst (run (C := MusicListen) listen_backlog_ops (newSystem [] 100))))).
Proof.
  split; [reflexivity|].
  destruct (store_never_reports_success (C := MusicListen) listen_backlog_ops
              (newSystem [] 100) eq_refl) as [H1 H2].
  split; [exact H1 | exact (H2 false)].
Defined.

Lemma delayed_deploy_admissible :
  admissible (C := Journal)
    [OpHandleNewEvent (mkEvent 7 "g7" 2) Commits; OpProcessEvents Commits] delayed_deploy.
Proof.
  split; [simpl; lia|]. split; exact I.
Qed.

Lemma coverage_stays_well_formed_witness :
  engine_invariant delayed_deploy /\
  admissible (C := Journal)
    [OpHandleNewEvent (mkEvent 7 "g7" 2) Commits; OpProcessEvents Commits] delayed_deploy /\
  well_formed
    (processedRanges
       (aggregator
          (fst (fst (run (C := Journal)
                         [OpHandleNewEvent (mkEvent 7 "g7" 2) Commits;
                          OpProcessEvents Commits] delayed_deploy))))).
Proof.
  split; [exact delayed_deploy_engine_invariant|].
  split; [exact delayed_deploy_admissible|].
  exact (proj1 (coverage_stays_well_formed (C := Journal) _ delayed_deploy
                  delayed_deploy_engine_invariant delayed_deploy_admissible)).
Defined.

Lemma coverage_never_shrinks_witness :
  engine_invariant delayed_deploy /\
  admissible (C := Journal)
    [OpHandleNewEvent (mkEvent 7 "g7" 2) Commits; OpProcessEvents Commits] delayed_deploy /\
  covered (processedRanges (aggregator delayed_deploy)) 6 /\
  covered
    (processedRanges
       (aggregator
          (fst (fst (run (C := Journal)
                         [OpHandleNewEvent (mkEvent 7 "g7" 2) Commits;
                          OpProcessEvents Commits] delayed_deploy))))) 6.
Proof.
  assert (Hcov : covered (processedRanges (aggregator delayed_deploy)) 6).
  { exists (mkRange 6 6). split; [now left | unfold in_range; simpl; lia]. }
  split; [exact delayed_deploy_engine_invariant|].
  split; [exact delayed_deploy_admissible|]. split; [exact Hcov|].
  exact (coverage_never_shrinks (C := Journal) _ delayed_deploy 6
           delayed_deploy_engine_invariant delayed_deploy_admissible Hcov).
Defined.

Lemma persisted_coverage_is_covered_in_memory_witness :
  engine_invariant delayed_deploy /\
  admissible (C := Journal)
    [OpHandleNewEvent (mkEvent 7 "g7" 2) Commits; OpProcessEvents Commits] delayed_deploy /\
  agg_initializationSucceeded
    (aggregator
       (fst (fst (run (C := Journal)
                      [OpHandleNewEvent (mkEvent 7 "g7" 2) Commits;
                       OpProcessEvents Commits] delayed_deploy)))) = true /\
  metadata
    (aggDisk
       (fst (fst (run (C := Journal)
                      [OpHandleNewEvent (mkEvent 7 "g7" 2) Commits;
                       OpProcessEvents Commits] delayed_deploy))))
  = Some [mkRange 1 8] /\
  covered [mkRange 1 8] 3 /\
  covered
    (processedRanges
       (aggregator
          (fst (fst (run (C := Journal)
                         [OpHandleNewEvent (mkEvent 7 "g7" 2) Commits;
                          OpProcessEvents Commits] delayed_deploy))))) 3.
Proof.
  assert (Hcov : covered [mkRange 1 8] 3).
  { exists (mkRange 1 8). split; [now left | unfold in_range; simpl; lia]. }
  split; [exact delayed_deploy_engine_invariant|].
  split; [exact delayed_deploy_admissible|].
  split; [reflexivity|]. split; [reflexivity|]. split; [exact Hcov|].
  exact (persisted_coverage_is_covered_in_memory (C := Journal) _ delayed_deploy
           [mkRange 1 8] 3
           delayed_deploy_engine_invariant delayed_deploy_admissible
           eq_refl eq_refl Hcov).
Defined.


Lemma catch_up_drains_the_backlog_witness :
  (forall d ev, exists d' c,
      processEvent (Consumer := MusicListen) d ev = FoldReturns d' c) /\
  agg_db (aggregator listen_backlog) = true /\
  store_db (eventStore listen_backlog) = true /\
  batchSize (aggregator listen_backlog) = 100 /\ 1 <= 100 /\
  store_invariant (eventsDisk listen_backlog) /\
  lowest_key (eventsDisk listen_backlog) = 1 /\
  keyGenerator (eventsDisk listen_backlog) <= MAX_SAFE_INTEGER /\
  processedRanges (aggregator listen_backlog) = [] /\
  snd (fst (run (C := MusicListen) (ticks 1) listen_backlog))
  = [ProcessEventCalled (mkEvent 3 "g3" "song1"%string);
     ProcessEventCalled (mkEvent 2 "g2" "song2"%string);
     ProcessEventCalled (mkEvent 1 "g1" "song1"%string)] /\
  processedRanges (aggregator (fst (fst (run (C := MusicListen) (ticks 1) listen_backlog))))
  = [mkRange 1 3].
Proof.
  assert (Hmax : keyGenerator (eventsDisk listen_backlog) <= MAX_SAFE_INTEGER)
    by (unfold MAX_SAFE_INTEGER; simpl; lia).
  split; [exact MusicListen_fold_total|].
  split; [reflexivity|]. split; [reflexivity|]. split; [reflexivity|]. split; [lia|].
  split; [exact listen_backlog_store_invariant|]. split; [reflexivity|].
  split; [exact Hmax|]. split; [reflexivity|].
  destruct (catch_up_drains_the_backlog (C := MusicListen) listen_backlog 100 1
              MusicListen_fold_total eq_refl eq_refl eq_refl ltac:(lia)
              listen_backlog_store_invariant eq_refl Hmax eq_refl) as (H1 & H2 & _).
  split; [exact H1 | exact H2].
Defined.

Lemma live_path_covers_and_persists_witness :
  agg_db (aggregator listen_running) = true /\
  well_formed (processedRanges (aggregator listen_running)) /\
  processEvent (Consumer := MusicListen) (stores (aggDisk listen_running))
    (mkEvent 2 "g2" "song2"%string)
  = FoldReturns [("song1"%string, 1); ("song2"%string, 1)] (Some ("song2"%string, 1)) /\
  stores (aggDisk (fst (fst (handleNewEvent (C := MusicListen)
                               (mkEvent 2 "g2" "song2"%string) Commits listen_running))))
  = [("song1"%string, 1); ("song2"%string, 1)] /\
  metadata (aggDisk (fst (fst (handleNewEvent (C := MusicListen)
                                 (mkEvent 2 "g2" "song2"%string) Commits listen_running))))
  = Some (processedRanges
            (aggregator (fst (fst (handleNewEvent (C := MusicListen)
                                     (mkEvent 2 "g2" "song2"%string) Commits
                                     listen_running))))).
Proof.
  assert (Hwf : well_formed (processedRanges (aggregator listen_running)))
    by (apply wf_one; simpl; lia).
  split; [reflexivity|]. split; [exact Hwf|]. split; [reflexivity|].
  destruct (live_path_covers_and_persists (C := MusicListen)
              (mkEvent 2 "g2" "song2"%string)
              [("song1"%string, 1); ("song2"%string, 1)] (Some ("song2"%string, 1))
              listen_running eq_refl Hwf eq_refl) as (_ & H2 & H3 & _).
  split; [exact H2 | exact H3].
Defined.

Lemma append_folds_the_event_once_witness :
  store_db (eventStore listen_running) = true /\
  agg_db (aggregator listen_running) = true /\
  NoDup (store_listeners (eventStore listen_running)) /\
  In AggregatorHandler (store_listeners (eventStore listen_running)) /\
  idb_add (eventsDisk listen_running) "g2" "song2"%string
  = Some (2, mkEventsDb [mkEvent 1 "g1" "song1"%string; mkEvent 2 "g2" "song2"%string] 3) /\
  StoreCommitFails <> StoreRequestFails /\
  filter is_ProcessEventCalled
    (snd (fst (add (C := MusicListen) "g2" "song2"%string StoreCommitFails Commits
                   listen_running)))
  = [ProcessEventCalled (mkEvent 2 "g2" "song2"%string)].
Proof.
  assert (Hnd : NoDup (store_listeners (eventStore listen_running))).
  { simpl. repeat (constructor; [simpl; intuition discriminate|]). constructor. }
  assert (Hin : In AggregatorHandler (store_listeners (eventStore listen_running)))
    by (now left).
  assert (Hfate : StoreCommitFails <> StoreRequestFails) by discriminate.
  split; [reflexivity|]. split; [reflexivity|]. split; [exact Hnd|]. split; [exact Hin|].
  split; [reflexivity|]. split; [exact Hfate|].
  exact (append_folds_the_event_once (C := MusicListen) "g2" "song2"%string
           StoreCommitFails Commits listen_running 2 _ eq_refl eq_refl Hnd Hin eq_refl Hfate).
Defined.

Lemma listen_counter_counts_every_play_witness :
  agg_db (aggregator listen_backlog) = true /\
  store_db (eventStore listen_backlog) = true /\
  1 <= batchSize (aggregator listen_backlog) /\
  store_invariant (eventsDisk listen_backlog) /\
  lowest_key (eventsDisk listen_backlog) = 1 /\
  keyGenerator (eventsDisk listen_backlog) <= MAX_SAFE_INTEGER /\
  processedRanges (aggregator listen_backlog) = [] /\
  stores (aggDisk listen_backlog) = [] /\
  Z.of_nat (List.length (records (eventsDisk listen_backlog)))
  <= Z.of_nat 1 * batchSize (aggregator listen_backlog) /\
  exists obj,
    MusicListen_getAggregated ["song1"; "song2"; "song3"]%string
      (fst (fst (run (C := MusicListen) (ticks 1) listen_backlog)))
    = Resolved obj /\
    forall key, In key ["song1"; "song2"; "song3"]%string ->
      object_get key obj = Some (key, plays key (records (eventsDisk listen_backlog))).
Proof.
  assert (Hbs : 1 <= batchSize (aggregator listen_backlog)) by (simpl; lia).
  assert (Hmax : keyGenerator (eventsDisk listen_backlog) <= MAX_SAFE_INTEGER)
    by (unfold MAX_SAFE_INTEGER; simpl; lia).
  assert (Hk : Z.of_nat (List.length (records (eventsDisk listen_backlog)))
               <= Z.of_nat 1 * batchSize (aggregator listen_backlog)) by (simpl; lia).
  split; [reflexivity|]. split; [reflexivity|]. split; [exact Hbs|].
  split; [exact listen_backlog_store_invariant|]. split; [reflexivity|].
  split; [exact Hmax|]. split; [reflexivity|]. split; [reflexivity|]. split; [exact Hk|].
  exact (listen_counter_counts_every_play listen_backlog 1
           ["song1"; "song2"; "song3"]%string eq_refl eq_refl Hbs
           listen_backlog_store_invariant eq_refl Hmax eq_refl eq_refl Hk).
Defined.

Lemma live_play_is_counted_once_witness :
  store_db (eventStore listen_running) = true /\
  agg_db (aggregator listen_running) = true /\
  NoDup (store_listeners (eventStore listen_running)) /\
  In AggregatorHandler (store_listeners (eventStore listen_running)) /\
  idb_add (eventsDisk listen_running) "g2" "song1"%string
  = Some (2, mkEventsDb [mkEvent 1 "g1" "song1"%string; mkEvent 2 "g2" "song1"%string] 3) /\
  StoreCommits <> StoreRequestFails /\
  total_or_zero "song1"
    (stores (aggDisk (fst (fst (add (C := MusicListen) "g2" "song1"%string StoreCommits
                                    Commits listen_running)))))
  = total_or_zero "song1" (stores (aggDisk listen_running)) + 1.
Proof.
  assert (Hnd : NoDup (store_listeners (eventStore listen_running))).
  { simpl. repeat (constructor; [simpl; intuition discriminate|]). constructor. }
  assert (Hin : In AggregatorHandler (store_listeners (eventStore listen_running)))
    by (now left).
  assert (Hfate : StoreCommits <> StoreRequestFails) by discriminate.
  split; [reflexivity|]. split; [reflexivity|]. split; [exact Hnd|]. split; [exact Hin|].
  split; [reflexivity|]. split; [exact Hfate|].
  exact (live_play_is_counted_once "g2" "song1"%string StoreCommits listen_running 2 _
           eq_refl eq_refl Hnd Hin eq_refl Hfate "song1"%string).
Defined.

Lemma aborted_tick_writes_nothing_witness :
  In TxAbortCalled (snd (fst (processEvents (C := Journal) PutFails delayed_deploy))) /\
  aggDisk (fst (fst (processEvents (C := Journal) PutFails delayed_deploy)))
  = aggDisk delayed_deploy /\
  snd (processEvents (C := Journal) PutFails delayed_deploy) = Resolved tt.
Proof.
  assert (Hab : In TxAbortCalled
                   (snd (fst (processEvents (C := Journal) PutFails delayed_deploy))))
    by (simpl; tauto).
  split; [exact Hab|].
  destruct (aborted_tick_writes_nothing (C := Journal) PutFails delayed_deploy Hab)
    as (H1 & _ & H3 & _).
  split; [exact H1 | exact H3].
Defined.


Lemma remount_resumes_from_persisted_coverage_witness :
  engine_invariant delayed_deploy /\
  processedRanges
    (aggregator
       (fst (fst (run (C := Journal) (mount_ops None InitSucceeds)
                      (mount (eventsDisk delayed_deploy) (aggDisk delayed_deploy)
                         (batchSize (aggregator delayed_deploy)))))))
  = [mkRange 6 6; mkRange 8 8] /\
  store_listeners
    (eventStore
       (fst (fst (run (C := Journal) (mount_ops None InitSucceeds)
                      (mount (eventsDisk delayed_deploy) (aggDisk delayed_deploy)
                         (batchSize (aggregator delayed_deploy)))))))
  = [AggregatorHandler] /\
  engine_invariant
    (fst (fst (run (C := Journal) (mount_ops None InitSucceeds)
                   (mount (eventsDisk delayed_deploy) (aggDisk delayed_deploy)
                      (batchSize (aggregator delayed_deploy)))))) /\
  (agg_initializationSucceeded (aggregator delayed_deploy) = true ->
   forall z,
     covered
       (processedRanges
          (aggregator
             (fst (fst (run (C := Journal) (mount_ops None InitSucceeds)
                            (mount (eventsDisk delayed_deploy) (aggDisk delayed_deploy)
                               (batchSize (aggregator delayed_deploy)))))))) z ->
     covered (processedRanges (aggregator delayed_deploy)) z).
Proof.
  split; [exact delayed_deploy_engine_invariant|].
  pose proof (remount_resumes_from_persisted_coverage (C := Journal) delayed_deploy
                delayed_deploy_engine_invariant) as H.
  cbv zeta in H. destruct H as (H1 & H2 & _ & _ & _ & _ & _ & H8 & H9).
  split; [exact H1|]. split; [exact H2|]. split; [exact H8 | exact H9].
Defined.

Lemma listen_totals_count_plays_witness :
  (forall d ev, In ev [mkEvent 1 "g1" "song1"%string; mkEvent 2 "g2" "song1"%string] ->
     (fun (_ : list (string * Z)) (e : StoredEvent string) =>
        if localId e =? 3 then PutRequestFails "quota" else AllServed) d ev = AllServed) /\
  (exists d' items',
     foldEvents (C := MusicListenEventAggregator
                        (fun _ e => if localId e =? 3 then PutRequestFails "quota"
                                    else AllServed))
       [mkEvent 1 "g1" "song1"%string; mkEvent 2 "g2" "song1"%string] [] []
     = (map ProcessEventCalled
          [mkEvent 1 "g1" "song1"%string; mkEvent 2 "g2" "song1"%string],
        Some d', items') /\
     total_or_zero "song1" d' = 2) /\
  foldEvents (C := MusicListenEventAggregator
                     (fun _ e => if localId e =? 3 then PutRequestFails "quota"
                                 else AllServed))
    [mkEvent 4 "g4" "song2"%string; mkEvent 3 "g3" "song1"%string;
     mkEvent 2 "g2" "song1"%string] [] []
  = ([ProcessEventCalled (mkEvent 4 "g4" "song2"%string);
      ProcessEventCalled (mkEvent 3 "g3" "song1"%string)],
     None, [("song2"%string, 1)]).
Proof.
  assert (Hserved : forall d ev,
            In ev [mkEvent 1 "g1" "song1"%string; mkEvent 2 "g2" "song1"%string] ->
            (fun (_ : list (string * Z)) (e : StoredEvent string) =>
               if localId e =? 3 then PutRequestFails "quota" else AllServed) d ev
            = AllServed)
    by (intros d ev [<-|[<-|[]]]; reflexivity).
  split; [exact Hserved|].
  destruct (proj1 (listen_totals_count_plays
                     (fun _ e => if localId e =? 3 then PutRequestFails "quota"
                                 else AllServed)
                     [mkEvent 1 "g1" "song1"%string; mkEvent 2 "g2" "song1"%string] [] [])
              Hserved) as (d' & items' & Hfold & _ & Htot).
  split; [|reflexivity].
  exists d', items'. split; [exact Hfold|]. rewrite Htot. reflexivity.
Defined.

Lemma aggregator_subscriptions_form_a_set_witness :
  NoDup (agg_listeners (aggregator listen_running)) /\
  EventAggregator_subscribe 7 (EventAggregator_subscribe 7 (aggregator listen_running))
  = EventAggregator_subscribe 7 (aggregator listen_running) /\
  ~ In (ListenerCalled 7 ("song1"%string, 2))
       (EventAggregator_notifyListeners (V := string) (C := MusicListen)
          (EventAggregator_unsubscribe 7 (aggregator listen_running))
          [("song1"%string, 2)]).
Proof.
  assert (Hnd : NoDup (agg_listeners (aggregator listen_running))).
  { simpl. repeat (constructor; [simpl; intuition discriminate|]). constructor. }
  split; [exact Hnd|].
  destruct (aggregator_subscriptions_form_a_set (C := MusicListen) (V := string)
              (aggregator listen_running) 7%nat Hnd) as (H1 & _ & _ & _ & H5 & _).
  split; [exact H1 | exact (H5 [("song1"%string, 2)] ("song1"%string, 2))].
Defined.
